(** * CSV search / replace engine: row matching, replacement, slug rule

    A shallow embedding of the row-matching and replacement core of the
    repository:

    - [src/app/api/csv/process/route.ts]   (simple and advanced search,
      the two replace modes of the process endpoint),
    - the multi-operation replace endpoint ([/api/csv/replace]),
    - the fix-slug-urls endpoint ([/api/csv/fix-slug-urls]),
    - [normalizeToKebabCase] of [lib/utils.ts],
    - the part of [startReplace] (CSVProcessorPanel) that builds the
      replace operations.

    JavaScript strings are sequences of UTF-16 code units, modelled as
    [list Z].  A parsed CSV row is a JavaScript object whose keys keep
    their insertion order ([Object.keys], [Papa.unparse] and the row text
    of the simple search all depend on it), so a row is an association
    list with unique keys, looked up and updated like [row[f]] and
    [row[f] = v].

    What the JavaScript runtime provides and the repository does not
    define ([String.prototype.normalize], [toLowerCase], [RegExp]) is a
    parameter of the development, the class [JsRuntime]; a concrete
    Latin-1 fragment of it is given for the examples.  Downloads, CSV
    parsing and writes are outcomes supplied by a [World]; of the
    effects of a request the statistics and the persisted outputs are
    kept, the server-sent events are not. *)

From Stdlib Require Import ZArith List String Ascii Bool Lia.
From stdpp Require Import base tactics option list.

Local Open Scope Z_scope.
Local Open Scope list_scope.

(** ** JavaScript strings as lists of UTF-16 code units *)

Abbreviation jsstring := (list Z).

(** An ASCII literal as a JavaScript string. *)
Definition str (s : string) : jsstring :=
  List.map (fun a => Z.of_N (N_of_ascii a)) (list_ascii_of_string s).

Module JsString.

Definition hyphen : Z := 45.
Definition space : Z := 32.

Definition inRange (lo hi c : Z) : bool := (lo <=? c) && (c <=? hi).

(** The regular expression class [\s], which is also the set of code
    units removed by [String.prototype.trim]: WhiteSpace and
    LineTerminator of ECMA-262. *)
Definition isWhiteSpace (c : Z) : bool :=
  inRange 9 13 c || (c =? 32) || (c =? 160) || (c =? 5760)
  || inRange 8192 8202 c || (c =? 8232) || (c =? 8233) || (c =? 8239)
  || (c =? 8287) || (c =? 12288) || (c =? 65279).

(** The class [\w] without the [i] and [u] flags: [A-Za-z0-9_]. *)
Definition isWordChar (c : Z) : bool :=
  inRange 48 57 c || inRange 65 90 c || (c =? 95) || inRange 97 122 c.

Definition isHyphen (c : Z) : bool := c =? hyphen.

(** The class [U+0300-U+036F], the combining diacritical marks. *)
Definition isCombiningMark (c : Z) : bool := inRange 768 879 c.

Definition eqb (s t : jsstring) : bool := bool_decide (s = t).

(** A string is falsy exactly when it is empty. *)
Definition truthy (s : jsstring) : bool :=
  match s with [] => false | _ :: _ => true end.

Fixpoint dropWhile (p : Z -> bool) (s : jsstring) : jsstring :=
  match s with
  | [] => []
  | c :: t => if p c then dropWhile p t else s
  end.

(** The string without its longest suffix of characters of [p]. *)
Fixpoint dropWhileEnd (p : Z -> bool) (s : jsstring) : jsstring :=
  match s with
  | [] => []
  | c :: t =>
      match dropWhileEnd p t with
      | [] => if p c then [] else [c]
      | t' => c :: t'
      end
  end.

(** [s.trim()] *)
Definition trim (s : jsstring) : jsstring :=
  dropWhileEnd isWhiteSpace (dropWhile isWhiteSpace s).

(** [s.startsWith(p)] *)
Fixpoint startsWith (s p : jsstring) : bool :=
  match p, s with
  | [], _ => true
  | _ :: _, [] => false
  | a :: p', b :: s' => (a =? b) && startsWith s' p'
  end.

(** [s.endsWith(p)] *)
Definition endsWith (s p : jsstring) : bool :=
  startsWith (rev s) (rev p).

(** [s.indexOf(p)]; [None] stands for [-1]. *)
Fixpoint indexOf (s p : jsstring) : option nat :=
  if startsWith s p then Some 0%nat
  else match s with
       | [] => None
       | _ :: t => S <$> indexOf t p
       end.

(** [s.includes(p)] *)
Definition includes (s p : jsstring) : bool :=
  bool_decide (is_Some (indexOf s p)).

(** [s.substring(0, n)] for [0 <= n]. *)
Definition substring0 (n : nat) (s : jsstring) : jsstring := take n s.

(** [parts.join(sep)] *)
Fixpoint join (sep : jsstring) (parts : list jsstring) : jsstring :=
  match parts with
  | [] => []
  | [p] => p
  | p :: rest => p ++ sep ++ join sep rest
  end.

(** [s.replace(/c+/g, rep)] for a character class [p]: every maximal run
    of characters of the class becomes the single code unit [rep].  A
    character of the class is emitted (as [rep]) only when it ends its
    run. *)
Fixpoint replaceRuns (p : Z -> bool) (rep : Z) (s : jsstring) : jsstring :=
  match s with
  | [] => []
  | c :: t =>
      if p c then
        match t with
        | [] => [rep]
        | c' :: _ => if p c' then replaceRuns p rep t
                     else rep :: replaceRuns p rep t
        end
      else c :: replaceRuns p rep t
  end.

(** [s.replace(/c/g, '')] for a character class [p]. *)
Definition removeAll (p : Z -> bool) (s : jsstring) : jsstring :=
  List.filter (fun c => negb (p c)) s.

End JsString.

(** ** The JavaScript runtime

    [normalizeNFD s] is [s.normalize('NFD')], [toLowerCase s] is
    [s.toLowerCase()], and [RegExp pattern ignoreCase] is
    [new RegExp(pattern, flags)]: [None] when the constructor throws a
    SyntaxError, otherwise the function [text => re.test(text)] run with
    [lastIndex = 0] (the code resets it before every test of a global
    expression). *)
Class JsRuntime := {
  normalizeNFD : jsstring -> jsstring;
  toLowerCase : jsstring -> jsstring;
  RegExp : jsstring -> bool -> option (jsstring -> bool)
}.

(** ** lib/utils.ts *)

Section Utils.
Context `{!JsRuntime}.

(** [normalizeToKebabCase]: NFD, strip combining marks, lowercase, runs
    of white space to one hyphen, drop what is not [\w] or a hyphen,
    collapse hyphens, trim hyphens at both ends. *)
Definition normalizeToKebabCase (input : jsstring) : jsstring :=
  if negb (JsString.truthy input) then []
  else
    let s1 := normalizeNFD input in
    let s2 := JsString.removeAll JsString.isCombiningMark s1 in
    let s3 := toLowerCase s2 in
    let s4 := JsString.replaceRuns JsString.isWhiteSpace JsString.hyphen s3 in
    let s5 := JsString.removeAll
                (fun c => negb (JsString.isWordChar c || JsString.isHyphen c)) s4 in
    let s6 := JsString.replaceRuns JsString.isHyphen JsString.hyphen s5 in
    JsString.dropWhileEnd JsString.isHyphen
      (JsString.dropWhile JsString.isHyphen s6).

End Utils.

(** ** Rows, match events, statistics *)

(** A row object: keys in insertion order, each key once.  (JavaScript
    lists keys that are array indices first; CSV headers of that form
    are left aside.) *)
Abbreviation row := (list (jsstring * jsstring)).

Module Row.

(** [row[f]]; [None] is [undefined]. *)
Fixpoint get (r : row) (f : jsstring) : option jsstring :=
  match r with
  | [] => None
  | (k, v) :: r' => if JsString.eqb k f then Some v else get r' f
  end.

(** [row[f] = v]: an existing key keeps its place, a new key is added
    at the end. *)
Fixpoint set (r : row) (f v : jsstring) : row :=
  match r with
  | [] => [(f, v)]
  | (k, w) :: r' => if JsString.eqb k f then (k, v) :: r' else (k, w) :: set r' f v
  end.

(** [Object.keys(row)] *)
Definition keys (r : row) : list jsstring := List.map fst r.

(** [row[f] ?? ''], which for string cells is also [row[f] || '']. *)
Definition cell (r : row) (f : jsstring) : jsstring := default [] (get r f).

End Row.

(** [headers.includes(f)] *)
Definition hasHeader (headers : list jsstring) (f : jsstring) : bool :=
  bool_decide (f ∈ headers).

(** [Object.keys(rows[0] || {})] *)
Definition headersOf (rows : list row) : list jsstring :=
  match rows with
  | [] => []
  | r :: _ => Row.keys r
  end.

Record MatchEvent := {
  ev_field : jsstring;
  ev_oldValue : jsstring;
  ev_newValue : jsstring
}.

(** What one iteration of a row loop produces: the row object after the
    iteration, whether it is pushed on [processedRows], whether the row
    matched, the events reported for it and the number of replacements
    counted. *)
Record RowOutcome := {
  out_row : row;
  out_pushed : bool;
  out_matched : bool;
  out_events : list MatchEvent;
  out_replacements : nat
}.

Record ProcessStats := {
  totalFiles : nat;
  processedFiles : nat;
  totalRows : nat;
  processedRows : nat;
  totalMatches : nat;
  totalReplacements : nat
}.

Inductive SaveMode := filebrowser | overwrite | local.

(** One persisted output: [fs.writeFile] under [public/] for [local],
    [filebrowserClient.uploadFile] otherwise.  The content is the row
    list handed to [Papa.unparse]; the file name is the source name with
    the given suffix, or the source path itself for [overwrite]. *)
Record Artifact := {
  art_source : jsstring;
  art_mode : SaveMode;
  art_suffix : jsstring;
  art_rows : list row
}.

Record FileRef := {
  path : jsstring;
  name : jsstring
}.

(** The outcome of [downloadFile] followed by [Papa.parse]. *)
Inductive Fetched :=
| DownloadFails
| ParseErrors
| Parsed (rows : list row).

(** The file store as the endpoints see it during one request: what a
    download of a path yields, and whether persisting the output of the
    file of that path returns normally. *)
Record World := {
  download : jsstring -> Fetched;
  storeOk : jsstring -> bool
}.

(** The state of one request: the running statistics and the outputs
    persisted so far, oldest first. *)
Record RunState := {
  stats : ProcessStats;
  saved : list Artifact
}.

(** A step of a request handler: it updates the state and either
    returns a value or throws ([None]); the state reached before a throw
    is kept, as the [catch] block of a file only reports the error. *)
Definition Run (A : Type) : Type := RunState -> RunState * option A.

Definition ret {A} (a : A) : Run A := fun s => (s, Some a).
Definition throw {A} : Run A := fun s => (s, None).
Definition bind {A B} (m : Run A) (k : A -> Run B) : Run B :=
  fun s => match m s with
           | (s', Some a) => k a s'
           | (s', None) => (s', None)
           end.
Definition updStats (f : ProcessStats -> ProcessStats) : Run unit :=
  fun s => ({| stats := f (stats s); saved := saved s |}, Some tt).
Definition persist (w : World) (a : Artifact) : Run unit :=
  fun s => if storeOk w (art_source a)
           then ({| stats := stats s; saved := saved s ++ [a] |}, Some tt)
           else (s, None).
(** [try { m } catch { sendEvent('error', ...) }] *)
Definition catch (m : Run unit) : Run unit :=
  fun s => (fst (m s), Some tt).

#[global] Instance run_ret : MRet Run := @ret.
#[global] Instance run_bind : MBind Run := fun A B k m => bind m k.

(** [for (const x of xs) { body x }] *)
Fixpoint forEach {A} (xs : list A) (body : A -> Run unit) : Run unit :=
  match xs with
  | [] => ret tt
  | x :: xs' => _ ← body x; forEach xs' body
  end.

Definition addTotalRows (n : nat) (s : ProcessStats) : ProcessStats :=
  {| totalFiles := totalFiles s; processedFiles := processedFiles s;
     totalRows := (totalRows s + n)%nat; processedRows := processedRows s;
     totalMatches := totalMatches s; totalReplacements := totalReplacements s |}.

Definition incProcessedFiles (s : ProcessStats) : ProcessStats :=
  {| totalFiles := totalFiles s; processedFiles := S (processedFiles s);
     totalRows := totalRows s; processedRows := processedRows s;
     totalMatches := totalMatches s; totalReplacements := totalReplacements s |}.

(** The counters one row iteration moves: [processedRows++], and for a
    matching row [totalMatches++], with [totalReplacements++] once per
    replacement. *)
Definition countRow (o : RowOutcome) (s : ProcessStats) : ProcessStats :=
  {| totalFiles := totalFiles s; processedFiles := processedFiles s;
     totalRows := totalRows s; processedRows := S (processedRows s);
     totalMatches := (totalMatches s + if out_matched o then 1 else 0)%nat;
     totalReplacements := (totalReplacements s + out_replacements o)%nat |}.

Definition initStats (n : nat) : ProcessStats :=
  {| totalFiles := n; processedFiles := 0; totalRows := 0;
     processedRows := 0; totalMatches := 0; totalReplacements := 0 |}.

Definition initState (n : nat) : RunState :=
  {| stats := initStats n; saved := [] |}.

(** What a row loop has accumulated for the current file. *)
Record FileAcc := {
  acc_rows : list row;
  acc_matches : nat;
  acc_replacements : nat
}.

Definition emptyAcc : FileAcc :=
  {| acc_rows := []; acc_matches := 0; acc_replacements := 0 |}.

Definition accRow (o : RowOutcome) (a : FileAcc) : FileAcc :=
  {| acc_rows := if out_pushed o then acc_rows a ++ [out_row o] else acc_rows a;
     acc_matches := (acc_matches a + if out_matched o then 1 else 0)%nat;
     acc_replacements := (acc_replacements a + out_replacements o)%nat |}.

(** [for (let i = 0; i < rows.length; i++) { ... }]: [step i row] is one
    iteration, [None] when it throws. *)
Fixpoint rowLoop (step : nat -> row -> option RowOutcome)
    (i : nat) (rows : list row) (a : FileAcc) : Run FileAcc :=
  match rows with
  | [] => ret a
  | r :: rows' =>
      match step i r with
      | None => throw
      | Some o => _ ← updStats (countRow o); rowLoop step (S i) rows' (accRow o a)
      end
  end.

(** [persist] of the processed rows of [file]. *)
Definition saveOutput (w : World) (file : jsstring) (mode : SaveMode)
    (suffix : jsstring) (rows : list row) : Run unit :=
  persist w {| art_source := file; art_mode := mode;
               art_suffix := suffix; art_rows := rows |}.

(** ** src/app/api/csv/process/route.ts *)

Inductive MatchMode := contains | equals | regex | startsWith | endsWith.
Inductive AdvancedLogic := AND | OR.

(** [cond_mode] is [None] when the mode is absent or not one of the five
    known ones; both behave as ['contains']. *)
Record FieldSearchCondition := {
  cond_field : jsstring;
  cond_value : jsstring;
  cond_mode : option MatchMode
}.

Record AdvancedSearchConfig := {
  conditions : list FieldSearchCondition;
  logic : option AdvancedLogic;
  adv_caseSensitive : bool
}.

Record ProcessRequest := {
  files : list FileRef;
  searchTerm : option jsstring;
  replaceTerm : option jsstring;
  selectedFields : list jsstring;
  showOnlyMatches : bool;
  saveMode : option SaveMode;
  caseSensitive : bool;
  wholeWord : bool;
  useRegex : bool;
  advanced : option AdvancedSearchConfig;
  replaceTargetField : option jsstring;
  replaceValue : option jsstring
}.

Module ProcessRoute.
Section WithRuntime.
Context `{!JsRuntime}.

Definition buildFieldMatcher (cond : FieldSearchCondition)
    (globalCaseSensitive : bool) : option (jsstring -> bool) :=
  let caseSensitive := globalCaseSensitive in
  let mode := default contains (cond_mode cond) in
  match mode with
  | regex => RegExp (cond_value cond) (negb caseSensitive)
  | _ =>
      let needle := if caseSensitive then cond_value cond
                    else toLowerCase (cond_value cond) in
      Some (fun raw =>
        let hay := if caseSensitive then raw else toLowerCase raw in
        match mode with
        | equals => JsString.eqb hay needle
        | startsWith => JsString.startsWith hay needle
        | endsWith => JsString.endsWith hay needle
        | _ => JsString.includes hay needle
        end)
  end.

(** [c.value && c.value.trim() !== ''] *)
Definition isActive (c : FieldSearchCondition) : bool :=
  JsString.truthy (cond_value c)
  && negb (JsString.eqb (JsString.trim (cond_value c)) []).

Abbreviation fieldMatcher := (FieldSearchCondition * (jsstring -> bool))%type.

Fixpoint andLoop (headers : list jsstring) (r : row)
    (ms : list fieldMatcher) (matchedFields : list jsstring)
  : bool * list jsstring :=
  match ms with
  | [] => (true, matchedFields)
  | (cond, test) :: ms' =>
      if negb (hasHeader headers (cond_field cond)) then (false, [])
      else if negb (test (Row.cell r (cond_field cond))) then (false, [])
      else andLoop headers r ms' (matchedFields ++ [cond_field cond])
  end.

Fixpoint orLoop (headers : list jsstring) (r : row)
    (ms : list fieldMatcher) (any : bool) (matchedFields : list jsstring)
  : bool * list jsstring :=
  match ms with
  | [] => (any, if any then matchedFields else [])
  | (cond, test) :: ms' =>
      if negb (hasHeader headers (cond_field cond))
      then orLoop headers r ms' any matchedFields
      else if test (Row.cell r (cond_field cond))
      then orLoop headers r ms' true (matchedFields ++ [cond_field cond])
      else orLoop headers r ms' any matchedFields
  end.

(** [rowMatchesAdvanced]: [(matches, matchedFields)], or [None] when
    building a matcher throws. *)
Definition rowMatchesAdvanced (r : row) (headers : list jsstring)
    (adv : AdvancedSearchConfig) : option (bool * list jsstring) :=
  let logic := default AND (logic adv) in
  let caseSensitive := adv_caseSensitive adv in
  let activeConds := List.filter isActive (conditions adv) in
  if (length activeConds =? 0)%nat then Some (true, [])
  else
    fieldMatchers ← mapM (fun c => pair c <$> buildFieldMatcher c caseSensitive)
                         activeConds;
    match logic with
    | AND => Some (andLoop headers r fieldMatchers [])
    | OR => Some (orLoop headers r fieldMatchers false [])
    end.

(** The characters of the class [[.*+?^${}()|[\]\\]]. *)
Definition isRegExpSpecial (c : Z) : bool :=
  bool_decide (c ∈ [46; 42; 43; 63; 94; 36; 123; 125; 40; 41; 124; 91; 93; 92]).

(** [searchTerm.replace(/[.*+?^${}()|[\]\\]/g, '\\$&')] *)
Definition escapeRegExp (term : jsstring) : jsstring :=
  flat_map (fun c => if isRegExpSpecial c then [92; c] else [c]) term.

Definition wordBoundary : jsstring := Eval cbv in str "\b".

Definition searchPattern (useRegex wholeWord : bool) (term : jsstring) : jsstring :=
  if useRegex then
    if wholeWord then wordBoundary ++ [40] ++ term ++ [41] ++ wordBoundary
    else term
  else
    let escaped := escapeRegExp term in
    if wholeWord then wordBoundary ++ escaped ++ wordBoundary else escaped.

Definition allLiteral : jsstring := Eval cbv in str "All".

Definition replaceFields (selectedFields headers : list jsstring) : list jsstring :=
  if bool_decide (allLiteral ∈ selectedFields) || (length selectedFields =? 0)%nat
  then headers
  else List.filter (hasHeader headers) selectedFields.

(** [replaceTerm !== undefined && replaceTerm !== ''], with the term. *)
Definition replaceModeTerm (replaceTerm : option jsstring) : option jsstring :=
  match replaceTerm with
  | Some (c :: t) => Some (c :: t)
  | _ => None
  end.

(** The search-only branch: one event per field whose own value matches. *)
Definition matchedFieldEvents (test : jsstring -> bool)
    (searchFields : list jsstring) (r : row) : list MatchEvent :=
  flat_map (fun f =>
    let value := Row.cell r f in
    if test value
    then [{| ev_field := f; ev_oldValue := value; ev_newValue := value |}]
    else []) searchFields.

(** The replace branch: [for (const field of replaceFields)], assigning
    the replacement term to every field that does not hold it yet. *)
Fixpoint overwriteFields (newValue : jsstring) (fields : list jsstring)
    (r : row) (events : list MatchEvent) (n : nat)
  : row * list MatchEvent * nat :=
  match fields with
  | [] => (r, events, n)
  | f :: fields' =>
      let oldValue := Row.cell r f in
      if negb (JsString.eqb newValue oldValue)
      then overwriteFields newValue fields' (Row.set r f newValue)
             (events ++ [{| ev_field := f; ev_oldValue := oldValue;
                            ev_newValue := newValue |}]) (S n)
      else overwriteFields newValue fields' r events n
  end.

(** The row after the replace branch. *)
Definition overwritten (newValue : jsstring) (fields : list jsstring)
    (r : row) : row :=
  (overwriteFields newValue fields r [] 0).1.1.

(** One iteration of the simple-mode row loop. *)
Definition simpleRow (test : jsstring -> bool) (headers fields : list jsstring)
    (replaceMode : option jsstring) (showOnly : bool) (r : row) : RowOutcome :=
  let searchFields := headers in
  let rowText := JsString.join [JsString.space]
                   (List.map (Row.cell r) searchFields) in
  let rowMatched := test rowText in
  if negb rowMatched then
    {| out_row := r; out_pushed := negb showOnly; out_matched := false;
       out_events := []; out_replacements := 0 |}
  else
    match replaceMode with
    | None =>
        {| out_row := r; out_pushed := negb showOnly || rowMatched;
           out_matched := true;
           out_events := matchedFieldEvents test searchFields r;
           out_replacements := 0 |}
    | Some newValue =>
        let '(r', events, n) := overwriteFields newValue fields r [] 0 in
        {| out_row := r'; out_pushed := negb showOnly || rowMatched;
           out_matched := true; out_events := events; out_replacements := n |}
    end.

Definition replacedSuffix : jsstring := Eval cbv in str "_replaced".

(** The body of the simple-mode file loop. *)
Definition processFileSimple (w : World) (req : ProcessRequest)
    (term : jsstring) (file : FileRef) : Run unit :=
  catch
    match download w (path file) with
    | DownloadFails => throw
    | ParseErrors => ret tt
    | Parsed rows =>
        let headers := headersOf rows in
        _ ← updStats (addTotalRows (length rows));
        let fields := replaceFields (selectedFields req) headers in
        match RegExp (searchPattern (useRegex req) (wholeWord req) term)
                     (negb (caseSensitive req)) with
        | None => throw
        | Some test =>
            let replaceMode := replaceModeTerm (replaceTerm req) in
            acc ← rowLoop (fun _ r => Some (simpleRow test headers fields
                              replaceMode (showOnlyMatches req) r))
                    0 rows emptyAcc;
            _ ← match replaceMode with
                | Some _ => saveOutput w (path file)
                              (default filebrowser (saveMode req))
                              replacedSuffix (acc_rows acc)
                | None => ret tt
                end;
            updStats incProcessedFiles
        end
    end.

(** [!!(replaceTargetField && replaceValue !== undefined)], with the
    target field and the value. *)
Definition advancedReplaceMode (target value : option jsstring)
  : option (jsstring * jsstring) :=
  match target, value with
  | Some (c :: t), Some v => Some (c :: t, v)
  | _, _ => None
  end.

(** One iteration of the advanced-mode row loop. *)
Definition advancedRow (adv : AdvancedSearchConfig) (headers : list jsstring)
    (replaceMode : option (jsstring * jsstring)) (showOnly : bool) (r : row)
  : option RowOutcome :=
  '(rowMatchesFlag, matchedFields) ← rowMatchesAdvanced r headers adv;
  if negb rowMatchesFlag then
    Some {| out_row := r; out_pushed := negb showOnly; out_matched := false;
            out_events := []; out_replacements := 0 |}
  else
    let viewEvents :=
      List.map (fun f => {| ev_field := f; ev_oldValue := Row.cell r f;
                            ev_newValue := Row.cell r f |}) matchedFields in
    let '(r', events, n) :=
      match replaceMode with
      | Some (target, newValue) =>
          if hasHeader headers target then
            let oldValue := Row.cell r target in
            if negb (JsString.eqb newValue oldValue)
            then (Row.set r target newValue,
                  [{| ev_field := target; ev_oldValue := oldValue;
                      ev_newValue := newValue |}], 1%nat)
            else (r, [], 0%nat)
          else (r, viewEvents, 0%nat)
      | None => (r, viewEvents, 0%nat)
      end in
    Some {| out_row := r';
            out_pushed := negb showOnly || negb (length events =? 0)%nat;
            out_matched := true; out_events := events; out_replacements := n |}.

Definition processFileAdvanced (w : World) (adv : AdvancedSearchConfig)
    (replaceMode : option (jsstring * jsstring)) (showOnly : bool)
    (mode : SaveMode) (file : FileRef) : Run unit :=
  catch
    match download w (path file) with
    | DownloadFails => throw
    | ParseErrors => ret tt
    | Parsed rows =>
        let headers := headersOf rows in
        _ ← updStats (addTotalRows (length rows));
        acc ← rowLoop (fun _ r => advancedRow adv headers replaceMode showOnly r)
                0 rows emptyAcc;
        _ ← match replaceMode with
            | Some _ => saveOutput w (path file) mode replacedSuffix (acc_rows acc)
            | None => ret tt
            end;
        updStats incProcessedFiles
    end.

Definition processFilesWithAdvancedSearch (w : World)
    (fs : list FileRef) (adv : AdvancedSearchConfig)
    (target value : option jsstring) (showOnly : bool) (mode : SaveMode)
  : Run unit :=
  let replaceMode := advancedReplaceMode target value in
  forEach fs (processFileAdvanced w adv replaceMode showOnly mode).

(** The simple-mode part of [POST], entered when the request is not an
    advanced one. *)
Definition simpleSearch (w : World) (req : ProcessRequest) (st : RunState)
  : option RunState :=
  match searchTerm req with
  | Some (c :: t) =>
      Some (fst (forEach (files req) (processFileSimple w req (c :: t)) st))
  | _ => None
  end.

(** [advanced && Array.isArray(advanced.conditions) &&
    advanced.conditions.length > 0], with the configuration. *)
Definition useAdvanced (req : ProcessRequest) : option AdvancedSearchConfig :=
  match advanced req with
  | Some adv => if (length (conditions adv) =? 0)%nat then None else Some adv
  | None => None
  end.

(** [POST]: the state carried by the final ['complete'] event, or [None]
    when the request is refused with an ['error'] event. *)
Definition POST (w : World) (req : ProcessRequest) : option RunState :=
  if (length (files req) =? 0)%nat then None
  else
    let st := initState (length (files req)) in
    match useAdvanced req with
    | Some adv =>
        Some (fst (processFilesWithAdvancedSearch w (files req) adv
                     (replaceTargetField req) (replaceValue req)
                     (showOnlyMatches req)
                     (default filebrowser (saveMode req)) st))
    | None => simpleSearch w req st
    end.

End WithRuntime.
End ProcessRoute.

(** ** The replace and fix-slug-urls endpoints *)

Record SearchResultRow := {
  rowIndex : Z;
  fields : row
}.

Record SearchResult := {
  filename : jsstring;
  sr_path : jsstring;
  sr_rows : list SearchResultRow
}.

Record ReplaceOperation := {
  op_field : jsstring;
  op_value : jsstring
}.

Record ReplaceRequest := {
  searchResults : list SearchResult;
  rr_replaceTargetField : option jsstring;
  rr_replaceValue : option jsstring;
  replaceOperations : option (list ReplaceOperation);
  rr_saveMode : option SaveMode
}.

Record FixSlugUrlsRequest := {
  fs_searchResults : list SearchResult;
  fs_saveMode : option SaveMode
}.

(** [filesMap.set(path, result)] on a [Map] kept in insertion order. *)
Fixpoint mapSet (m : list (jsstring * SearchResult)) (k : jsstring)
    (v : SearchResult) : list (jsstring * SearchResult) :=
  match m with
  | [] => [(k, v)]
  | (k', v') :: m' =>
      if JsString.eqb k' k then (k', v) :: m' else (k', v') :: mapSet m' k v
  end.

(** The search results grouped by path, files without rows left out. *)
Definition filesMap (results : list SearchResult)
  : list (jsstring * SearchResult) :=
  fold_left (fun m result =>
               if negb (length (sr_rows result) =? 0)%nat
               then mapSet m (sr_path result) result else m)
            results [].

(** [new Set(searchResult.rows.map(r => r.rowIndex - 1)).has(i)] *)
Definition inRowSet (result : SearchResult) (i : nat) : bool :=
  bool_decide (Z.of_nat i ∈ List.map (fun r => rowIndex r - 1) (sr_rows result)).

Definition slug_url : jsstring := Eval cbv in str "slug_url".
Definition location : jsstring := Eval cbv in str "location".
Definition salary : jsstring := Eval cbv in str "-salary".

Module ReplaceRoute.
Section WithRuntime.
Context `{!JsRuntime}.

(** The operations of a request (new format, else the old single
    field/value pair), [None] when the request is refused. *)
Definition operationsOf (req : ReplaceRequest) : option (list ReplaceOperation) :=
  match replaceOperations req with
  | Some (o :: os) => Some (o :: os)
  | _ =>
      match rr_replaceTargetField req with
      | Some (c :: t) =>
          match rr_replaceValue req with
          | Some v => Some [{| op_field := c :: t; op_value := v |}]
          | None => None
          end
      | _ => None
      end
  end.

(** [for (const op of operations)] on one row; [loc] is
    [locationReplacement], its old and new value. *)
Fixpoint applyOperations (headers : list jsstring)
    (ops : list ReplaceOperation) (r : row) (events : list MatchEvent)
    (n : nat) (loc : option (jsstring * jsstring))
  : row * list MatchEvent * nat * option (jsstring * jsstring) :=
  match ops with
  | [] => (r, events, n, loc)
  | op :: ops' =>
      if negb (hasHeader headers (op_field op))
      then applyOperations headers ops' r events n loc
      else
        let oldValue := Row.cell r (op_field op) in
        let newValue := op_value op in
        if negb (JsString.eqb oldValue newValue)
        then applyOperations headers ops' (Row.set r (op_field op) newValue)
               (events ++ [{| ev_field := op_field op; ev_oldValue := oldValue;
                              ev_newValue := newValue |}])
               (S n)
               (if JsString.eqb (op_field op) location
                then Some (oldValue, newValue) else loc)
        else applyOperations headers ops' r events n loc
  end.

(** The slug a changed location leads to, from the trimmed current
    slug: [None] when the current slug holds no [-salary]. *)
Definition recomputedSlug (currentSlugUrl newLocation : jsstring)
  : option jsstring :=
  if JsString.includes currentSlugUrl salary then
    match JsString.indexOf currentSlugUrl salary with
    | Some salaryIndex =>
        let baseSlug := JsString.substring0 (salaryIndex + 7) currentSlugUrl in
        let normalizedNewLocation := normalizeToKebabCase newLocation in
        Some (if JsString.truthy normalizedNewLocation
              then baseSlug ++ [JsString.hyphen] ++ normalizedNewLocation
              else baseSlug)
    | None => None
    end
  else None.

(** [// Update slug_url if location was replaced] *)
Definition updateSlugUrl (headers : list jsstring) (r : row)
    (events : list MatchEvent) (n : nat) (loc : option (jsstring * jsstring))
  : row * list MatchEvent * nat :=
  match loc with
  | Some (_, newValue) =>
      if hasHeader headers slug_url then
        let currentSlugUrl := JsString.trim (Row.cell r slug_url) in
        match recomputedSlug currentSlugUrl newValue with
        | Some newSlugUrl =>
            if negb (JsString.eqb newSlugUrl currentSlugUrl)
            then (Row.set r slug_url newSlugUrl,
                  events ++ [{| ev_field := slug_url;
                                ev_oldValue := currentSlugUrl;
                                ev_newValue := newSlugUrl |}],
                  S n)
            else (r, events, n)
        | None => (r, events, n)
        end
      else (r, events, n)
  | None => (r, events, n)
  end.

(** One iteration of the row loop.  The endpoint never touches
    [totalMatches]. *)
Definition replaceRow (headers : list jsstring) (ops : list ReplaceOperation)
    (targeted : bool) (r : row) : RowOutcome :=
  let '(r', events, n) :=
    if targeted then
      let '(r1, events1, n1, loc) := applyOperations headers ops r [] 0 None in
      updateSlugUrl headers r1 events1 n1 loc
    else (r, [], 0%nat) in
  {| out_row := r'; out_pushed := true; out_matched := false;
     out_events := events; out_replacements := n |}.

Definition processFile (w : World) (ops : list ReplaceOperation)
    (mode : SaveMode) (entry : jsstring * SearchResult) : Run unit :=
  let '(filePath, searchResult) := entry in
  catch
    match download w filePath with
    | DownloadFails => throw
    | ParseErrors => ret tt
    | Parsed rows =>
        let headers := headersOf rows in
        _ ← updStats (addTotalRows (length rows));
        let invalidFields :=
          List.filter (fun f => negb (hasHeader headers f))
                      (List.map op_field ops) in
        if negb (length invalidFields =? 0)%nat then ret tt
        else
          acc ← rowLoop (fun i r => Some (replaceRow headers ops
                                            (inRowSet searchResult i) r))
                  0 rows emptyAcc;
          if (0 <? acc_replacements acc)%nat
          then _ ← saveOutput w filePath mode ProcessRoute.replacedSuffix
                     (acc_rows acc);
               updStats incProcessedFiles
          else ret tt
    end.

Definition POST (w : World) (req : ReplaceRequest) : option RunState :=
  if (length (searchResults req) =? 0)%nat then None
  else
    operations ← operationsOf req;
    if negb (forallb (fun op => JsString.truthy (op_field op)) operations)
    then None
    else
      let fm := filesMap (searchResults req) in
      if (length fm =? 0)%nat then None
      else Some (fst (forEach fm
                        (processFile w operations
                           (default filebrowser (rr_saveMode req)))
                        (initState (length fm)))).

End WithRuntime.
End ReplaceRoute.

Module FixSlugUrlsRoute.
Section WithRuntime.
Context `{!JsRuntime}.

Definition fixedSuffix : jsstring := Eval cbv in str "_fixed".

(** One iteration of the row loop. *)
Definition fixRow (targeted : bool) (r : row) : RowOutcome :=
  let unchanged :=
    {| out_row := r; out_pushed := true; out_matched := false;
       out_events := []; out_replacements := 0 |} in
  if targeted then
    let currentSlugUrl := JsString.trim (Row.cell r slug_url) in
    let loc := JsString.trim (Row.cell r location) in
    let normalizedLocation := normalizeToKebabCase loc in
    if JsString.endsWith currentSlugUrl salary then
      if JsString.truthy normalizedLocation then
        let expectedSuffix := salary ++ [JsString.hyphen] ++ normalizedLocation in
        if negb (JsString.endsWith currentSlugUrl expectedSuffix) then
          let newSlugUrl := currentSlugUrl ++ [JsString.hyphen] ++ normalizedLocation in
          {| out_row := Row.set r slug_url newSlugUrl; out_pushed := true;
             out_matched := false;
             out_events := [{| ev_field := slug_url;
                               ev_oldValue := currentSlugUrl;
                               ev_newValue := newSlugUrl |}];
             out_replacements := 1 |}
        else unchanged
      else unchanged
    else unchanged
  else unchanged.

Definition processFile (w : World) (mode : SaveMode)
    (entry : jsstring * SearchResult) : Run unit :=
  let '(filePath, searchResult) := entry in
  catch
    match download w filePath with
    | DownloadFails => throw
    | ParseErrors => ret tt
    | Parsed rows =>
        let headers := headersOf rows in
        _ ← updStats (addTotalRows (length rows));
        if negb (hasHeader headers slug_url) then ret tt
        else if negb (hasHeader headers location) then ret tt
        else
          acc ← rowLoop (fun i r => Some (fixRow (inRowSet searchResult i) r))
                  0 rows emptyAcc;
          if (0 <? acc_replacements acc)%nat
          then _ ← saveOutput w filePath mode fixedSuffix (acc_rows acc);
               updStats incProcessedFiles
          else ret tt
    end.

Definition POST (w : World) (req : FixSlugUrlsRequest) : option RunState :=
  if (length (fs_searchResults req) =? 0)%nat then None
  else
    let fm := filesMap (fs_searchResults req) in
    if (length fm =? 0)%nat then None
    else Some (fst (forEach fm
                      (processFile w (default filebrowser (fs_saveMode req)))
                      (initState (length fm)))).

End WithRuntime.
End FixSlugUrlsRoute.

(** ** CSVProcessorPanel: [startReplace] *)

Record ReplaceCondition := {
  rc_id : jsstring;
  rc_field : jsstring;
  rc_value : jsstring
}.

Module CSVProcessorPanel.
Section WithRuntime.
Context `{!JsRuntime}.

Definition emptyLiteral : jsstring := Eval cbv in str "empty".

(** [cond.value.trim().toLowerCase() === 'empty' ? '' : cond.value] *)
Definition actualValue (value : jsstring) : jsstring :=
  if JsString.eqb (toLowerCase (JsString.trim value)) emptyLiteral
  then [] else value.

(** [activeReplaceConditions]: the conditions with a field. *)
Definition activeReplaceConditions (conds : list ReplaceCondition)
  : list ReplaceCondition :=
  List.filter (fun c => JsString.truthy (rc_field c)) conds.

(** The [replaceOperations] array of the payload. *)
Definition buildReplaceOperations (active : list ReplaceCondition)
  : list ReplaceOperation :=
  List.map (fun c => {| op_field := rc_field c;
                        op_value := actualValue (rc_value c) |}) active.

(** The payload [startReplace] posts to [/api/csv/replace], [None] when
    it alerts and returns instead. *)
Definition startReplace (conds : list ReplaceCondition)
    (hasSearchResults : bool) (fileResults : list SearchResult)
    (mode : SaveMode) : option ReplaceRequest :=
  let active := activeReplaceConditions conds in
  if (length active =? 0)%nat then None
  else if (length fileResults =? 0)%nat || negb hasSearchResults then None
  else
    let results :=
      List.filter (fun fr => negb (length (sr_rows fr) =? 0)%nat) fileResults in
    if (length results =? 0)%nat then None
    else Some {| searchResults := results;
                 rr_replaceTargetField := None;
                 rr_replaceValue := None;
                 replaceOperations := Some (buildReplaceOperations active);
                 rr_saveMode := Some mode |}.

End WithRuntime.
End CSVProcessorPanel.

(** ** A Latin-1 fragment of the runtime

    [normalize('NFD')] and [toLowerCase] as they act on code units below
    U+0100 (and on the combining marks the decomposition introduces),
    and [RegExp] on patterns without metacharacters.  It is what the
    examples below run on. *)

Module Latin1.

(** Canonical decompositions of the capital letters of U+00C0..U+00DD:
    base letter and combining mark. *)
Definition capitals : list (Z * (Z * Z)) :=
  [(192, (65, 768)); (193, (65, 769)); (194, (65, 770)); (195, (65, 771));
   (196, (65, 776)); (197, (65, 778)); (199, (67, 807));
   (200, (69, 768)); (201, (69, 769)); (202, (69, 770)); (203, (69, 776));
   (204, (73, 768)); (205, (73, 769)); (206, (73, 770)); (207, (73, 776));
   (209, (78, 771));
   (210, (79, 768)); (211, (79, 769)); (212, (79, 770)); (213, (79, 771));
   (214, (79, 776));
   (217, (85, 768)); (218, (85, 769)); (219, (85, 770)); (220, (85, 776));
   (221, (89, 769))].

Fixpoint assoc (k : Z) (t : list (Z * (Z * Z))) : option (Z * Z) :=
  match t with
  | [] => None
  | (k', v) :: t' => if k' =? k then Some v else assoc k t'
  end.

Definition decompose (c : Z) : jsstring :=
  match assoc c capitals with
  | Some (base, mark) => [base; mark]
  | None =>
      if c =? 255 then [121; 776]
      else match assoc (c - 32) capitals with
           | Some (base, mark) =>
               if JsString.inRange 224 254 c then [base + 32; mark] else [c]
           | None => [c]
           end
  end.

Definition lower (c : Z) : Z :=
  if JsString.inRange 65 90 c
     || (JsString.inRange 192 222 c && negb (c =? 215))
  then c + 32 else c.

(** A pattern without metacharacters matches where it occurs. *)
Definition literalRegExp (pattern : jsstring) (ignoreCase : bool)
  : option (jsstring -> bool) :=
  if forallb (fun c => negb (ProcessRoute.isRegExpSpecial c)) pattern then
    Some (fun text =>
            if ignoreCase
            then JsString.includes (List.map lower text) (List.map lower pattern)
            else JsString.includes text pattern)
  else None.

Definition runtime : JsRuntime := {|
  normalizeNFD := flat_map decompose;
  toLowerCase := List.map lower;
  RegExp := literalRegExp
|}.

End Latin1.

(** ** What the proofs ask of the runtime

    [toLowerCase] leaves no [A-Z], and neither it nor NFD changes a
    string of slug characters [a-z0-9_-]. *)

Definition isSlugChar (c : Z) : bool :=
  JsString.inRange 97 122 c || JsString.inRange 48 57 c
  || (c =? 95) || (c =? 45).

Class JsRuntimeLaws `{!JsRuntime} : Prop := {
  toLowerCase_no_capital :
    forall s c, c ∈ toLowerCase s -> JsString.inRange 65 90 c = false;
  toLowerCase_slug :
    forall s, Forall (fun c => isSlugChar c = true) s -> toLowerCase s = s;
  normalizeNFD_slug :
    forall s, Forall (fun c => isSlugChar c = true) s -> normalizeNFD s = s
}.

(** A string is fixed by [dropWhile p] exactly when it does not start
    with a character of [p]. *)
Definition headFree (p : Z -> bool) (s : jsstring) : Prop :=
  match s with [] => True | c :: _ => p c = false end.

(** No two neighbouring characters of the class [p]. *)
Fixpoint noAdjacent (p : Z -> bool) (s : jsstring) : bool :=
  match s with
  | [] => true
  | c :: t =>
      match t with
      | [] => true
      | c' :: _ => negb (p c && p c') && noAdjacent p t
      end
  end.

(** ** Row loops as lists of outcomes *)

(** The outcomes of a row loop whose iterations do not throw, in row
    order; [i] is the index of the first row. *)
Fixpoint outcomesFrom (step : nat -> row -> RowOutcome) (i : nat)
    (rows : list row) : list RowOutcome :=
  match rows with
  | [] => []
  | r :: rows' => step i r :: outcomesFrom step (S i) rows'
  end.

(** The rows pushed on [processedRows]. *)
Definition pushedRows (outs : list RowOutcome) : list row :=
  List.map out_row (List.filter out_pushed outs).

(** The replacements counted over a file. *)
Definition replacementsOf (outs : list RowOutcome) : nat :=
  fold_right (fun o n => (out_replacements o + n)%nat) 0%nat outs.

Definition matchesOf (outs : list RowOutcome) : nat :=
  fold_right (fun o n => ((if out_matched o then 1 else 0) + n)%nat) 0%nat outs.

(** The statistics after the row loop of a file. *)
Definition countRows (outs : list RowOutcome) (s : ProcessStats) : ProcessStats :=
  {| totalFiles := totalFiles s; processedFiles := processedFiles s;
     totalRows := totalRows s;
     processedRows := (processedRows s + length outs)%nat;
     totalMatches := (totalMatches s + matchesOf outs)%nat;
     totalReplacements := (totalReplacements s + replacementsOf outs)%nat |}.

(** The row text the simple search tests. *)
Definition rowText (headers : list jsstring) (r : row) : jsstring :=
  JsString.join [JsString.space] (List.map (Row.cell r) headers).

(** The rows the fix-slug-urls loop produces from the rows of a file. *)
Definition fixedRows `{!JsRuntime} (result : SearchResult) (rows : list row)
  : list row :=
  List.map out_row
    (outcomesFrom (fun i r => FixSlugUrlsRoute.fixRow (inRowSet result i) r)
                  0 rows).

(** A value is blank when it is empty or white space only. *)
Definition isBlank (v : jsstring) : bool := forallb JsString.isWhiteSpace v.

(** The specification's reading of the simple replace, kept apart from
    the code: [value.replace(regex, replacement)] with the global flag,
    for a non-empty search term without metacharacters and a
    replacement without [$].  [skip] counts the characters of a match
    still to be passed over. *)
Fixpoint spec_substituteInPlace (needle replacement : jsstring) (skip : nat)
    (value : jsstring) : jsstring :=
  match value with
  | [] => []
  | c :: t =>
      match skip with
      | S k => spec_substituteInPlace needle replacement k t
      | O =>
          if JsString.startsWith value needle
          then replacement
                 ++ spec_substituteInPlace needle replacement
                      (length needle - 1) t
          else c :: spec_substituteInPlace needle replacement 0 t
      end
  end.

(** The specification's reading of the derived-field rule, kept apart
    from the code: it applies to a [slug_url] value that ends with
    [-salary], and the value itself is then the part up to and including
    [-salary], to which a hyphen and the normalized new location are
    appended when that is non-empty. *)
Definition spec_recomputedSlug `{!JsRuntime} (slugValue newLocation : jsstring)
  : option jsstring :=
  if JsString.endsWith slugValue salary then
    let normalized := normalizeToKebabCase newLocation in
    Some (if JsString.truthy normalized
          then slugValue ++ [JsString.hyphen] ++ normalized
          else slugValue)
  else None.

(** ** Example data *)

(** The string "Sao Paulo" with U+00E3, a with tilde, as its second
    letter. *)
Definition saoPaulo : jsstring := [83; 227; 111; 32; 80; 97; 117; 108; 111].

Definition title : jsstring := Eval cbv in str "title".
Definition note : jsstring := Eval cbv in str "note".
Definition aCsv : jsstring := Eval cbv in str "/data/a.csv".

Definition rowFooBar : row := [(title, str "foo bar"); (note, str "zzz")].
Definition rowPlain : row := [(title, str "abc"); (note, str "def")].

(** A store with one file of two rows, in which every write succeeds. *)
Definition oneFile (rows : list row) : World :=
  {| download := fun p => if JsString.eqb p aCsv then Parsed rows else DownloadFails;
     storeOk := fun _ => true |}.

(** A simple-mode request on that file: case-sensitive literal search,
    no field selection. *)
Definition simpleRequest (term : jsstring) (replacement : option jsstring)
    (showOnly : bool) (mode : SaveMode) : ProcessRequest :=
  {| files := [{| path := aCsv; name := str "a.csv" |}];
     searchTerm := Some term; replaceTerm := replacement;
     selectedFields := []; showOnlyMatches := showOnly;
     saveMode := Some mode; caseSensitive := true; wholeWord := false;
     useRegex := false; advanced := None;
     replaceTargetField := None; replaceValue := None |}.

Definition engineerRow : row :=
  [(slug_url, str "engineer-salary"); (location, str "Old")].

(** The search result naming the first row of the example file. *)
Definition firstRow : SearchResult :=
  {| filename := str "a.csv"; sr_path := aCsv;
     sr_rows := [{| rowIndex := 1; fields := [] |}] |}.

(** A replace request with one operation on the first row of the file. *)
Definition replaceRequest (f v : jsstring) : ReplaceRequest :=
  {| searchResults := [firstRow];
     rr_replaceTargetField := None; rr_replaceValue := None;
     replaceOperations := Some [{| op_field := f; op_value := v |}];
     rr_saveMode := Some filebrowser |}.

(** ** The older single-field replace endpoint

    The first version of the replace endpoint: one target field and one
    value, no derived-field rule.  It reads [searchResults],
    [replaceTargetField], [replaceValue] and [saveMode] of the body. *)

Module LegacyReplaceRoute.

(** One iteration of the row loop. *)
Definition replaceRow (replaceTargetField replaceValue : jsstring)
    (targeted : bool) (r : row) : RowOutcome :=
  let unchanged :=
    {| out_row := r; out_pushed := true; out_matched := false;
       out_events := []; out_replacements := 0 |} in
  if targeted then
    let oldValue := Row.cell r replaceTargetField in
    let newValue := replaceValue in
    if negb (JsString.eqb oldValue newValue) then
      {| out_row := Row.set r replaceTargetField newValue; out_pushed := true;
         out_matched := false;
         out_events := [{| ev_field := replaceTargetField;
                           ev_oldValue := oldValue; ev_newValue := newValue |}];
         out_replacements := 1 |}
    else unchanged
  else unchanged.

Definition processFile (w : World) (replaceTargetField replaceValue : jsstring)
    (mode : SaveMode) (entry : jsstring * SearchResult) : Run unit :=
  let '(filePath, searchResult) := entry in
  catch
    match download w filePath with
    | DownloadFails => throw
    | ParseErrors => ret tt
    | Parsed rows =>
        let headers := headersOf rows in
        _ ← updStats (addTotalRows (length rows));
        if negb (hasHeader headers replaceTargetField) then ret tt
        else
          acc ← rowLoop (fun i r => Some (replaceRow replaceTargetField
                                            replaceValue
                                            (inRowSet searchResult i) r))
                  0 rows emptyAcc;
          if (0 <? acc_replacements acc)%nat
          then _ ← saveOutput w filePath mode ProcessRoute.replacedSuffix
                     (acc_rows acc);
               updStats incProcessedFiles
          else ret tt
    end.

Definition POST (w : World) (req : ReplaceRequest) : option RunState :=
  if (length (searchResults req) =? 0)%nat then None
  else
    match rr_replaceTargetField req, rr_replaceValue req with
    | Some (c :: t), Some (d :: v) =>
        let fm := filesMap (searchResults req) in
        if (length fm =? 0)%nat then None
        else Some (fst (forEach fm
                          (processFile w (c :: t) (d :: v)
                             (default filebrowser (rr_saveMode req)))
                          (initState (length fm))))
    | _, _ => None
    end.

End LegacyReplaceRoute.

(** ** CSVProcessorPanel: the search request and the edit handlers *)

Definition state : jsstring := Eval cbv in str "state".

Module CSVProcessorPanelSearch.

(** The pattern the handlers use for an empty value. *)
Definition emptyPattern : jsstring := Eval cbv in str "^\s*$".

(** The condition [handleEditFromState], [handleEditFromLocation] and
    [handleEditFromCombo] build for a field and a detected value. *)
Definition editCondition (field value : jsstring) : FieldSearchCondition :=
  let isEmpty := negb (JsString.truthy value)
                 || JsString.eqb (JsString.trim value) [] in
  {| cond_field := field;
     cond_value := if isEmpty then emptyPattern else value;
     cond_mode := Some (if isEmpty then regex else equals) |}.

Definition handleEditFromState (stateValue : jsstring)
  : list FieldSearchCondition := [editCondition state stateValue].

Definition handleEditFromLocation (locationValue : jsstring)
  : list FieldSearchCondition := [editCondition location locationValue].

Definition handleEditFromCombo (stateValue locationValue : jsstring)
  : list FieldSearchCondition :=
  [editCondition state stateValue; editCondition location locationValue].

(** The body [startProcessing] posts to [/api/csv/process], [None] when
    it alerts and returns instead. *)
Definition startProcessing (selectedFiles : list FileRef)
    (conds : list FieldSearchCondition) (advancedLogic : AdvancedLogic)
    (caseSensitive showOnlyMatches : bool) : option ProcessRequest :=
  if (length selectedFiles =? 0)%nat then None
  else if negb (0 <? length conds)%nat then None
  else Some {| files := selectedFiles; searchTerm := None;
               replaceTerm := None; selectedFields := [];
               showOnlyMatches := showOnlyMatches;
               saveMode := Some filebrowser;
               caseSensitive := false; wholeWord := false; useRegex := false;
               advanced := Some {| conditions := conds;
                                   logic := Some advancedLogic;
                                   adv_caseSensitive := caseSensitive |};
               replaceTargetField := None; replaceValue := None |}.

End CSVProcessorPanelSearch.

(** ** CSVProcessorPanel: the fix-slug-urls request *)

Module CSVProcessorPanelFix.

Definition anyLocation : jsstring := Eval cbv in str ".+".

(** [shouldShowFixSlugSection]: a search has results and its conditions
    hold both [slug_url endsWith '-salary'] and [location regex '.+']. *)
Definition shouldShowFixSlugSection (hasSearchResults : bool)
    (fileResults : list SearchResult) (conds : list FieldSearchCondition)
  : bool :=
  if negb hasSearchResults || (length fileResults =? 0)%nat then false
  else
    let hasSlugUrlCondition :=
      existsb (fun c => JsString.eqb (cond_field c) slug_url
                        && match cond_mode c with
                           | Some endsWith => true
                           | _ => false
                           end
                        && JsString.eqb (cond_value c) salary) conds in
    let hasLocationCondition :=
      existsb (fun c => JsString.eqb (cond_field c) location
                        && match cond_mode c with
                           | Some regex => true
                           | _ => false
                           end
                        && JsString.eqb (cond_value c) anyLocation) conds in
    hasSlugUrlCondition && hasLocationCondition.

(** The payload [startFixSlugUrls] posts to [/api/csv/fix-slug-urls],
    [None] when it alerts and returns instead. *)
Definition startFixSlugUrls (hasSearchResults : bool)
    (fileResults : list SearchResult) (conds : list FieldSearchCondition)
    (mode : SaveMode) : option FixSlugUrlsRequest :=
  if (length fileResults =? 0)%nat || negb hasSearchResults then None
  else if negb (shouldShowFixSlugSection hasSearchResults fileResults conds)
  then None
  else
    let results :=
      List.filter (fun fr => negb (length (sr_rows fr) =? 0)%nat) fileResults in
    if (length results =? 0)%nat then None
    else Some {| fs_searchResults := results; fs_saveMode := Some mode |}.

End CSVProcessorPanelFix.

(** ** src/app/api/csv/detect-location-state/route.ts *)

Module DetectRoute.

Definition comboSeparator : jsstring := Eval cbv in str "|||".

(** [`${state}|||${location}`] *)
Definition comboKey (stateValue locationValue : jsstring) : jsstring :=
  stateValue ++ comboSeparator ++ locationValue.

(** The three sets and the array the loops fill; a [Set] is kept in
    insertion order, as [Array.from] lists it. *)
Record Detected := {
  uniqueStatesSet : list jsstring;
  uniqueLocationsSet : list jsstring;
  stateLocationSet : list jsstring;
  combosSoFar : list (jsstring * jsstring)
}.

Definition nothingDetected : Detected :=
  {| uniqueStatesSet := []; uniqueLocationsSet := [];
     stateLocationSet := []; combosSoFar := [] |}.

(** [set.add(x)] *)
Definition setAdd (s : list jsstring) (x : jsstring) : list jsstring :=
  if bool_decide (x ∈ s) then s else s ++ [x].

(** One iteration of [for (const row of rows)]. *)
Definition detectRow (hasState hasLocation : bool) (d : Detected) (r : row)
  : Detected :=
  let stateValue := if hasState then JsString.trim (Row.cell r state) else [] in
  let locationValue :=
    if hasLocation then JsString.trim (Row.cell r location) else [] in
  if JsString.truthy locationValue then
    let key := comboKey stateValue locationValue in
    if negb (bool_decide (key ∈ stateLocationSet d)) then
      {| uniqueStatesSet :=
           if JsString.truthy stateValue
           then setAdd (uniqueStatesSet d) stateValue else uniqueStatesSet d;
         uniqueLocationsSet := setAdd (uniqueLocationsSet d) locationValue;
         stateLocationSet := stateLocationSet d ++ [key];
         combosSoFar := combosSoFar d ++ [(stateValue, locationValue)] |}
    else d
  else d.

(** The body of [for (const file of files)]. *)
Definition detectFile (w : World) (d : Detected) (file : FileRef) : Detected :=
  match download w (path file) with
  | DownloadFails => d
  | ParseErrors => d
  | Parsed rows =>
      if (length rows =? 0)%nat then d
      else
        let headers := headersOf rows in
        let hasState := hasHeader headers state in
        let hasLocation := hasHeader headers location in
        if negb hasState && negb hasLocation then d
        else fold_left (detectRow hasState hasLocation) rows d
  end.

(** The order of [Array.prototype.sort] without a comparator on
    strings: by UTF-16 code units. *)
Fixpoint codeUnitLeb (s t : jsstring) : bool :=
  match s, t with
  | [], _ => true
  | _ :: _, [] => false
  | a :: s', b :: t' => (a <? b) || ((a =? b) && codeUnitLeb s' t')
  end.

(** [Array.prototype.sort], which is stable, for a comparator that is
    a total preorder. *)
Fixpoint insertSorted {A} (le : A -> A -> bool) (x : A) (l : list A) : list A :=
  match l with
  | [] => [x]
  | y :: l' => if le x y then x :: l else y :: insertSorted le x l'
  end.

Definition sortBy {A} (le : A -> A -> bool) (l : list A) : list A :=
  fold_right (insertSorted le) [] l.

(** The comparator of the combinations; [localeCompare] is the
    runtime's [String.prototype.localeCompare]. *)
Definition compareCombos (localeCompare : jsstring -> jsstring -> Z)
    (a b : jsstring * jsstring) : Z :=
  if negb (JsString.eqb a.1 b.1) then localeCompare a.1 b.1
  else localeCompare a.2 b.2.

Record DetectResponse := {
  uniqueStates : list jsstring;
  uniqueLocations : list jsstring;
  stateLocationCombos : list (jsstring * jsstring);
  dr_totalFiles : nat;
  totalStates : nat;
  totalLocations : nat;
  totalCombinations : nat
}.

(** [POST]: the body of the JSON response, [None] for the status 400. *)
Definition POST (w : World) (localeCompare : jsstring -> jsstring -> Z)
    (fs : list FileRef) : option DetectResponse :=
  if (length fs =? 0)%nat then None
  else
    let d := fold_left (detectFile w) fs nothingDetected in
    let uniqueStates := sortBy codeUnitLeb (uniqueStatesSet d) in
    let uniqueLocations := sortBy codeUnitLeb (uniqueLocationsSet d) in
    let combos :=
      sortBy (fun a b => compareCombos localeCompare a b <=? 0)
             (combosSoFar d) in
    Some {| uniqueStates := uniqueStates;
            uniqueLocations := uniqueLocations;
            stateLocationCombos := combos;
            dr_totalFiles := length fs;
            totalStates := length uniqueStates;
            totalLocations := length uniqueLocations;
            totalCombinations := length combos |}.

End DetectRoute.

(** ** The listing endpoint: [getAllCSVFilesRecursive] *)

Module FilesRoute.

(** The directory tree as [listResources] shows it: a directory cannot
    be listed (the call throws), or it has file names and folders, each
    folder with the tree under it. *)
Inductive Dir :=
| Unreadable
| Listed (fileNames : list jsstring) (folders : Folders)
with Folders :=
| noFolders
| folder (folderName : jsstring) (content : Dir) (rest : Folders).

Scheme Dir_mut := Induction for Dir Sort Prop
  with Folders_mut := Induction for Folders Sort Prop.
Combined Scheme Dir_Folders_ind from Dir_mut, Folders_mut.

Section WithRuntime.
Context `{!JsRuntime}.

Definition csvExtension : jsstring := Eval cbv in str ".csv".
Definition slash : jsstring := Eval cbv in str "/".

(** [file.name.toLowerCase().endsWith('.csv')] *)
Definition isCsv (fileName : jsstring) : bool :=
  JsString.endsWith (toLowerCase fileName) csvExtension.

(** [path === '/' ? `/${name}` : `${path}/${name}`] *)
Definition childPath (dir entryName : jsstring) : jsstring :=
  if JsString.eqb dir slash then slash ++ entryName
  else dir ++ slash ++ entryName.

(** [getAllCSVFilesRecursive(path, allFiles)]; [subdirectories] is its
    loop over the folders. *)
Fixpoint getAllCSVFilesRecursive (dir : jsstring) (d : Dir)
    (allFiles : list FileRef) : list FileRef :=
  match d with
  | Unreadable => allFiles
  | Listed fileNames folders =>
      subdirectories dir folders
        (allFiles
         ++ List.map (fun n => {| path := childPath dir n; name := n |})
                     (List.filter isCsv fileNames))
  end
with subdirectories (dir : jsstring) (fs : Folders) (allFiles : list FileRef)
  : list FileRef :=
  match fs with
  | noFolders => allFiles
  | folder n content rest =>
      subdirectories dir rest
        (getAllCSVFilesRecursive (childPath dir n) content allFiles)
  end.

(** [GET]: the [files] of the response; [tree] is what the file store
    holds under a path. *)
Definition GET (pathParam : option jsstring) (tree : jsstring -> Dir)
  : list FileRef :=
  let dir := match pathParam with
             | Some (c :: t) => c :: t
             | _ => slash
             end in
  getAllCSVFilesRecursive dir (tree dir) [].

End WithRuntime.
End FilesRoute.

(** ** Predicates used in the statements *)

(** The accepting condition of one field matcher on a row. *)
Definition accepts (headers : list jsstring) (r : row)
    (m : FieldSearchCondition * (jsstring -> bool)) : bool :=
  hasHeader headers (cond_field m.1) && m.2 (Row.cell r (cond_field m.1)).

(** The counters of a request state are consistent: no more files
    processed than submitted, no more rows processed than parsed, no
    more matching rows than processed rows. *)
Definition countersConsistent (st : RunState) : Prop :=
  (processedFiles (stats st) <= totalFiles (stats st))%nat
  /\ (processedRows (stats st) <= totalRows (stats st))%nat
  /\ (totalMatches (stats st) <= processedRows (stats st))%nat.

(** An active condition holds on a row: its matcher is built, its field
    is a header and the matcher accepts the cell. *)
Definition conditionHolds `{!JsRuntime} (headers : list jsstring) (r : row)
    (caseSensitive : bool) (c : FieldSearchCondition) : bool :=
  match ProcessRoute.buildFieldMatcher c caseSensitive with
  | Some test =>
      hasHeader headers (cond_field c) && test (Row.cell r (cond_field c))
  | None => false
  end.

(** What the body of a file loop may do to the state of a request:
    [totalFiles] is kept, no counter decreases, at most one file is
    counted as processed, rows are processed only if parsed, matches
    are counted only on processed rows, and at most one output is
    added, after the ones already saved. *)
Definition fileStep (st st' : RunState) : Prop :=
  totalFiles (stats st') = totalFiles (stats st)
  /\ exists dFiles dRows dProcessed dMatches dReplacements,
       (dFiles <= 1)%nat
       /\ processedFiles (stats st') = (processedFiles (stats st) + dFiles)%nat
       /\ totalRows (stats st') = (totalRows (stats st) + dRows)%nat
       /\ processedRows (stats st') = (processedRows (stats st) + dProcessed)%nat
       /\ (dProcessed <= dRows)%nat
       /\ totalMatches (stats st') = (totalMatches (stats st) + dMatches)%nat
       /\ (dMatches <= dProcessed)%nat
       /\ totalReplacements (stats st')
          = (totalReplacements (stats st) + dReplacements)%nat
       /\ (saved st' = saved st
           \/ (dFiles = 1%nat /\ exists a, saved st' = saved st ++ [a])).

(** The invariant of a file loop after [k] files of a request on [n]
    files. *)
Definition loopInvariant (n k : nat) (st : RunState) : Prop :=
  totalFiles (stats st) = n
  /\ (processedFiles (stats st) <= k)%nat
  /\ (processedRows (stats st) <= totalRows (stats st))%nat
  /\ (totalMatches (stats st) <= processedRows (stats st))%nat
  /\ (length (saved st) <= processedFiles (stats st))%nat.

(** The state of a replace endpoint between files: one output per file
    counted as processed, at least one replacement per such file, and
    no match counted. *)
Definition replaceInvariant (st : RunState) : Prop :=
  processedFiles (stats st) = length (saved st)
  /\ (processedFiles (stats st) <= totalReplacements (stats st))%nat
  /\ totalMatches (stats st) = 0%nat.

(** The process endpoint runs a request in search mode: no replacement
    term in simple mode, no target field with a value in advanced
    mode. *)
Definition searchOnly (req : ProcessRequest) : Prop :=
  match ProcessRoute.useAdvanced req with
  | Some _ =>
      ProcessRoute.advancedReplaceMode (replaceTargetField req)
                                       (replaceValue req) = None
  | None => ProcessRoute.replaceModeTerm (replaceTerm req) = None
  end.

(** A combination comes from a row: a file of the request parses, has
    a [location] column, and holds a row whose trimmed location is the
    location of the combination and whose trimmed state, or the empty
    string, is its state. *)
Definition fromRow (w : World) (fs : list FileRef)
    (stateValue locationValue : jsstring) : Prop :=
  exists file rows r,
    file ∈ fs /\ download w (path file) = Parsed rows /\ r ∈ rows
    /\ location ∈ headersOf rows
    /\ locationValue = JsString.trim (Row.cell r location)
    /\ (stateValue = JsString.trim (Row.cell r state) \/ stateValue = []).

(** What holds of the sets of the detection between rows; [origin]
    is what is known of every combination found. *)
Definition detectInvariant (origin : jsstring -> jsstring -> Prop)
    (d : DetectRoute.Detected) : Prop :=
  NoDup (DetectRoute.uniqueStatesSet d)
  /\ NoDup (DetectRoute.uniqueLocationsSet d)
  /\ NoDup (DetectRoute.stateLocationSet d)
  /\ DetectRoute.stateLocationSet d
     = List.map (fun c => DetectRoute.comboKey c.1 c.2) (DetectRoute.combosSoFar d)
  /\ (length (DetectRoute.uniqueStatesSet d)
      <= length (DetectRoute.combosSoFar d))%nat
  /\ (length (DetectRoute.uniqueLocationsSet d)
      <= length (DetectRoute.combosSoFar d))%nat
  /\ (forall s l, (s, l) ∈ DetectRoute.combosSoFar d ->
        l <> [] /\ l ∈ DetectRoute.uniqueLocationsSet d
        /\ (s <> [] -> s ∈ DetectRoute.uniqueStatesSet d) /\ origin s l)
  /\ (forall l, l ∈ DetectRoute.uniqueLocationsSet d ->
        exists s, (s, l) ∈ DetectRoute.combosSoFar d)
  /\ (forall s, s ∈ DetectRoute.uniqueStatesSet d ->
        s <> [] /\ exists l, (s, l) ∈ DetectRoute.combosSoFar d).

(** * Properties *)

(** ** Strings *)

Section StringLemmas.
Import JsString.

Lemma eqb_true s t : eqb s t = true <-> s = t.
Proof. unfold eqb. apply bool_decide_eq_true. Qed.

Lemma eqb_false s t : eqb s t = false <-> s <> t.
Proof. unfold eqb. apply bool_decide_eq_false. Qed.

Lemma eqb_refl s : eqb s s = true.
Proof. by apply eqb_true. Qed.

Lemma removeAll_id p s :
  Forall (fun c => p c = false) s -> removeAll p s = s.
Proof.
  unfold removeAll. induction 1 as [|c t Hc _ IH]; simpl; [done|].
  by rewrite Hc, IH.
Qed.

Lemma elem_of_removeAll p s c :
  c ∈ removeAll p s <-> c ∈ s /\ p c = false.
Proof.
  unfold removeAll. rewrite !list_elem_of_In, filter_In.
  by rewrite negb_true_iff.
Qed.

Lemma replaceRuns_id p rep s :
  Forall (fun c => p c = false) s -> replaceRuns p rep s = s.
Proof.
  induction 1 as [|c t Hc _ IH]; simpl; [done|]. by rewrite Hc, IH.
Qed.

Lemma elem_of_replaceRuns p rep s c :
  c ∈ replaceRuns p rep s -> c = rep \/ (c ∈ s /\ p c = false).
Proof.
  induction s as [|a t IH]; simpl; [by intros ?%elem_of_nil|].
  destruct (p a) eqn:Ha.
  - destruct t as [|b t'].
    + intros ->%list_elem_of_singleton. by left.
    + destruct (p b) eqn:Hb.
      * intros [?|[??]]%IH; [by left|right; split; [by right|done]].
      * intros [->|[?|[??]]%IH]%elem_of_cons; [by left|by left|].
        right; split; [by right|done].
  - intros [->|[?|[??]]%IH]%elem_of_cons.
    + right; split; [by left|done].
    + by left.
    + right; split; [by right|done].
Qed.

Lemma replaceRuns_cons_false p rep c s :
  p c = false -> replaceRuns p rep (c :: s) = c :: replaceRuns p rep s.
Proof. intros Hc. cbn [replaceRuns]. by rewrite Hc. Qed.

Lemma noAdjacent_cons_false p c s :
  p c = false -> noAdjacent p (c :: s) = noAdjacent p s.
Proof. intros Hc. destruct s; cbn [noAdjacent]; [done|]. by rewrite Hc. Qed.

Lemma noAdjacent_cons_next_false p c b s :
  p b = false -> noAdjacent p (c :: b :: s) = noAdjacent p (b :: s).
Proof. intros Hb. cbn [noAdjacent]. by rewrite Hb, andb_false_r. Qed.

Lemma noAdjacent_cons2 p c b s :
  noAdjacent p (c :: b :: s) = negb (p c && p b) && noAdjacent p (b :: s).
Proof. reflexivity. Qed.

Lemma noAdjacent_tail p c s :
  noAdjacent p (c :: s) = true -> noAdjacent p s = true.
Proof.
  destruct s; cbn [noAdjacent]; [done|]. by intros [_ ?]%andb_true_iff.
Qed.

Lemma replaceRuns_noAdjacent p rep s :
  noAdjacent p (replaceRuns p rep s) = true.
Proof.
  induction s as [|a t IH]; [done|].
  destruct (p a) eqn:Ha.
  - cbn [replaceRuns]. rewrite Ha.
    destruct t as [|b t']; [done|].
    destruct (p b) eqn:Hb; [done|].
    rewrite replaceRuns_cons_false in * by done.
    by rewrite noAdjacent_cons_next_false.
  - rewrite replaceRuns_cons_false by done.
    by rewrite noAdjacent_cons_false.
Qed.

Lemma replaceRuns_fixed p rep s :
  (forall c, p c = true -> c = rep) ->
  noAdjacent p s = true -> replaceRuns p rep s = s.
Proof.
  intros Hrep. induction s as [|a t IH]; [done|].
  intros Hs. pose proof (noAdjacent_tail _ _ _ Hs) as Ht.
  destruct (p a) eqn:Ha.
  - destruct t as [|b t'].
    + cbn [replaceRuns]. by rewrite Ha, (Hrep a Ha).
    + cbn [noAdjacent] in Hs. rewrite Ha in Hs.
      destruct (p b) eqn:Hb; [done|].
      change (replaceRuns p rep (a :: b :: t')) with
        (if p a then
           if p b then replaceRuns p rep (b :: t')
           else rep :: replaceRuns p rep (b :: t')
         else a :: replaceRuns p rep (b :: t')).
      by rewrite Ha, Hb, IH, (Hrep a Ha).
  - by rewrite replaceRuns_cons_false, IH.
Qed.

Lemma dropWhile_sublist p s c : c ∈ dropWhile p s -> c ∈ s.
Proof.
  induction s as [|a t IH]; simpl; [done|].
  destruct (p a); [right; auto | done].
Qed.

Lemma dropWhileEnd_cons p c t :
  dropWhileEnd p (c :: t) = [] \/ dropWhileEnd p (c :: t) = c :: dropWhileEnd p t.
Proof.
  cbn [dropWhileEnd]. destruct (dropWhileEnd p t); [|by right].
  destruct (p c); [by left | by right].
Qed.

Lemma dropWhileEnd_sublist p s c : c ∈ dropWhileEnd p s -> c ∈ s.
Proof.
  induction s as [|a t IH]; [done|].
  destruct (dropWhileEnd_cons p a t) as [-> | ->]; [by intros ?%elem_of_nil|].
  intros [->|?]%elem_of_cons; [by left | right; auto].
Qed.

Lemma dropWhile_noAdjacent p q s :
  noAdjacent q s = true -> noAdjacent q (dropWhile p s) = true.
Proof.
  induction s as [|a t IH]; [done|]. intros Hs.
  cbn [dropWhile]. destruct (p a); [|done].
  apply IH. by eapply noAdjacent_tail.
Qed.

Lemma dropWhileEnd_noAdjacent p q s :
  noAdjacent q s = true -> noAdjacent q (dropWhileEnd p s) = true.
Proof.
  induction s as [|a t IH]; [done|]. intros Hs.
  pose proof (noAdjacent_tail _ _ _ Hs) as Ht.
  destruct (dropWhileEnd_cons p a t) as [-> | ->]; [done|].
  destruct t as [|b t']; [done|].
  destruct (dropWhileEnd_cons p b t') as [E | E].
  - by rewrite E.
  - rewrite E. rewrite E in IH. specialize (IH Ht).
    rewrite noAdjacent_cons2 in Hs |- *.
    apply andb_true_iff in Hs as [Hs _]. by rewrite Hs, IH.
Qed.

Lemma dropWhile_headFree p s : headFree p (dropWhile p s).
Proof.
  induction s as [|a t IH]; [done|]. cbn [dropWhile].
  destruct (p a) eqn:Ha; [done|]. exact Ha.
Qed.

Lemma dropWhile_fixed p s : headFree p s -> dropWhile p s = s.
Proof. destruct s as [|a t]; [done|]. simpl. by intros ->. Qed.

Lemma dropWhileEnd_headFree p s : headFree p s -> headFree p (dropWhileEnd p s).
Proof.
  destruct s as [|a t]; [done|]. intros Ha.
  by destruct (dropWhileEnd_cons p a t) as [-> | ->].
Qed.

Lemma dropWhileEnd_idem p s :
  dropWhileEnd p (dropWhileEnd p s) = dropWhileEnd p s.
Proof.
  induction s as [|a t IH]; [done|].
  cbn [dropWhileEnd]. destruct (dropWhileEnd p t) as [|b u] eqn:E.
  - destruct (p a) eqn:Ha; [done|]. cbn [dropWhileEnd]. by rewrite Ha.
  - cbn [dropWhileEnd]. cbn [dropWhileEnd] in IH.
    destruct (dropWhileEnd p u) eqn:E'.
    + destruct (p b); [done|]. by inversion IH.
    + by rewrite IH.
Qed.

(** Trimming both ends is idempotent, for white space and for hyphens. *)
Lemma trimBoth_fixed p s :
  let t := dropWhileEnd p (dropWhile p s) in
  dropWhile p t = t /\ dropWhileEnd p t = t.
Proof.
  split.
  - apply dropWhile_fixed, dropWhileEnd_headFree, dropWhile_headFree.
  - apply dropWhileEnd_idem.
Qed.

Lemma trim_idem s : trim (trim s) = trim s.
Proof.
  unfold trim. destruct (trimBoth_fixed isWhiteSpace s) as [H1 H2].
  cbv zeta in H1, H2. by rewrite H1, H2.
Qed.

End StringLemmas.

(** ** Character classes *)

Ltac char_unfold :=
  unfold isSlugChar, JsString.isWhiteSpace, JsString.isWordChar,
    JsString.isHyphen, JsString.isCombiningMark, JsString.inRange,
    JsString.hyphen in *.

Ltac char_solve :=
  char_unfold;
  repeat match goal with
  | H : _ = false |- _ => apply not_true_iff_false in H
  | |- _ = false => apply not_true_iff_false; intros ?
  end;
  rewrite ?negb_true_iff, ?andb_true_iff, ?orb_true_iff, ?Z.leb_le, ?Z.eqb_eq in *;
  repeat match goal with
  | H : ~ _ |- _ =>
      rewrite ?negb_true_iff, ?andb_true_iff, ?orb_true_iff, ?Z.leb_le, ?Z.eqb_eq in H
  end;
  lia.

Lemma slugChar_not_combining c :
  isSlugChar c = true -> JsString.isCombiningMark c = false.
Proof. intros. char_solve. Qed.

Lemma slugChar_not_space c :
  isSlugChar c = true -> JsString.isWhiteSpace c = false.
Proof. intros. char_solve. Qed.

Lemma slugChar_kept c :
  isSlugChar c = true ->
  negb (JsString.isWordChar c || JsString.isHyphen c) = false.
Proof. intros. apply negb_false_iff. char_solve. Qed.

Lemma kept_not_space c :
  JsString.isWordChar c || JsString.isHyphen c = true ->
  JsString.isWhiteSpace c = false.
Proof. intros. char_solve. Qed.

Lemma kept_lower_is_slug c :
  JsString.isWordChar c || JsString.isHyphen c = true ->
  JsString.inRange 65 90 c = false -> isSlugChar c = true.
Proof. intros. char_solve. Qed.

Lemma isHyphen_eq c : JsString.isHyphen c = true -> c = JsString.hyphen.
Proof. unfold JsString.isHyphen. apply Z.eqb_eq. Qed.

(** ** The slug normalizer *)

Section Normalizer.
Context `{!JsRuntime}.

(** Every character of a normalized string is a word character or a
    hyphen. *)
Lemma normalize_kept input c :
  c ∈ normalizeToKebabCase input ->
  JsString.isWordChar c || JsString.isHyphen c = true.
Proof.
  unfold normalizeToKebabCase. destruct (JsString.truthy input); simpl;
    [|by intros ?%elem_of_nil].
  intros Hc%dropWhileEnd_sublist%dropWhile_sublist%elem_of_replaceRuns.
  destruct Hc as [->|[Hc _]]; [done|].
  apply elem_of_removeAll in Hc as [_ Hc]. by apply negb_false_iff in Hc.
Qed.

Lemma normalize_no_space input :
  Forall (fun c => JsString.isWhiteSpace c = false) (normalizeToKebabCase input).
Proof.
  apply Forall_forall. intros c Hc. eapply kept_not_space, normalize_kept, Hc.
Qed.

(** The shape of a normalized string: hyphens are isolated and none is
    at either end. *)
Lemma normalize_shape input :
  let o := normalizeToKebabCase input in
  noAdjacent JsString.isHyphen o = true
  /\ JsString.dropWhile JsString.isHyphen o = o
  /\ JsString.dropWhileEnd JsString.isHyphen o = o.
Proof.
  unfold normalizeToKebabCase. destruct (JsString.truthy input); simpl; [|done].
  split.
  - apply dropWhileEnd_noAdjacent, dropWhile_noAdjacent, replaceRuns_noAdjacent.
  - apply trimBoth_fixed.
Qed.

(** A string of slug characters of that shape is left as it is. *)
Lemma normalize_fixed `{!JsRuntimeLaws} s :
  Forall (fun c => isSlugChar c = true) s ->
  noAdjacent JsString.isHyphen s = true ->
  JsString.dropWhile JsString.isHyphen s = s ->
  JsString.dropWhileEnd JsString.isHyphen s = s ->
  normalizeToKebabCase s = s.
Proof.
  intros Hs Hadj Hl Hr. unfold normalizeToKebabCase.
  destruct (JsString.truthy s) eqn:Hne; [|by destruct s].
  cbn [negb].
  rewrite (normalizeNFD_slug _ Hs).
  rewrite (removeAll_id JsString.isCombiningMark s)
    by (eapply Forall_impl; [exact Hs|]; apply slugChar_not_combining).
  rewrite (toLowerCase_slug _ Hs).
  rewrite (replaceRuns_id JsString.isWhiteSpace _ s)
    by (eapply Forall_impl; [exact Hs|]; apply slugChar_not_space).
  rewrite (removeAll_id _ s)
    by (eapply Forall_impl; [exact Hs|]; apply slugChar_kept).
  rewrite (replaceRuns_fixed _ _ _ isHyphen_eq Hadj).
  by rewrite Hl, Hr.
Qed.

Lemma normalize_slug `{!JsRuntimeLaws} input :
  Forall (fun c => isSlugChar c = true) (normalizeToKebabCase input).
Proof.
  apply Forall_forall. intros c Hc.
  apply kept_lower_is_slug; [by eapply normalize_kept|].
  revert Hc. unfold normalizeToKebabCase.
  destruct (JsString.truthy input); simpl; [|by intros ?%elem_of_nil].
  intros Hc%dropWhileEnd_sublist%dropWhile_sublist%elem_of_replaceRuns.
  destruct Hc as [->|[Hc _]]; [done|].
  apply elem_of_removeAll in Hc as [Hc _].
  apply elem_of_replaceRuns in Hc as [->|[Hc _]]; [done|].
  by eapply toLowerCase_no_capital.
Qed.

(** C4.  The slug normalizer is idempotent: for every input string [x],
    [normalizeToKebabCase (normalizeToKebabCase x)] is
    [normalizeToKebabCase x].  The runtime is asked to behave as
    JavaScript does on ASCII ([JsRuntimeLaws]). *)
Theorem normalizeToKebabCase_idempotent `{!JsRuntimeLaws} (x : jsstring) :
  normalizeToKebabCase (normalizeToKebabCase x) = normalizeToKebabCase x.
Proof.
  destruct (normalize_shape x) as (Hadj & Hl & Hr).
  apply normalize_fixed; auto using normalize_slug.
Qed.

End Normalizer.

(** ** The Latin-1 fragment obeys the laws *)

Lemma latin1_assoc_below c :
  c < 192 -> Latin1.assoc c Latin1.capitals = None.
Proof.
  intros Hc. unfold Latin1.capitals. cbn [Latin1.assoc].
  repeat match goal with
  | |- context [?k =? c] => destruct (Z.eqb_spec k c) as [?|_]; [lia|]
  end.
  reflexivity.
Qed.

Lemma latin1_decompose_slug c :
  isSlugChar c = true -> Latin1.decompose c = [c].
Proof.
  intros Hc. assert (c < 128) by char_solve.
  unfold Latin1.decompose.
  rewrite !latin1_assoc_below by lia.
  destruct (Z.eqb_spec c 255); [lia|done].
Qed.

Lemma latin1_lower_slug c : isSlugChar c = true -> Latin1.lower c = c.
Proof.
  intros Hc. unfold Latin1.lower.
  assert (JsString.inRange 65 90 c = false) as -> by char_solve.
  assert (JsString.inRange 192 222 c = false) as -> by char_solve.
  done.
Qed.

Lemma latin1_lower_no_capital c : JsString.inRange 65 90 (Latin1.lower c) = false.
Proof.
  unfold Latin1.lower.
  destruct (JsString.inRange 65 90 c) eqn:E1; simpl.
  - char_solve.
  - destruct (JsString.inRange 192 222 c && negb (c =? 215)) eqn:E2; [|done].
    apply andb_true_iff in E2 as [E2 _]. clear E1. char_solve.
Qed.

Lemma latin1_laws : @JsRuntimeLaws Latin1.runtime.
Proof.
  split.
  - intros s c. cbn. rewrite list_elem_of_In, in_map_iff.
    intros (a & <- & _). apply latin1_lower_no_capital.
  - intros s Hs. cbn. induction Hs as [|c t Hc _ IH]; [done|].
    cbn. by rewrite latin1_lower_slug, IH.
  - intros s Hs. cbn. induction Hs as [|c t Hc _ IH]; [done|].
    cbn [flat_map]. by rewrite latin1_decompose_slug, IH.
Qed.

Section NormalizerExamples.
#[local] Existing Instance Latin1.runtime.
#[local] Existing Instance latin1_laws.

Example normalize_saoPaulo :
  normalizeToKebabCase saoPaulo = str "sao-paulo".
Proof. reflexivity. Qed.

Example normalize_munchen :
  normalizeToKebabCase [77; 252; 110; 99; 104; 101; 110] = str "munchen".
Proof. reflexivity. Qed.

Example normalize_punctuation :
  normalizeToKebabCase (str "  New -- York!  ") = str "new-york".
Proof. reflexivity. Qed.

Lemma normalizeToKebabCase_idempotent_witness :
  normalizeToKebabCase (normalizeToKebabCase saoPaulo)
  = normalizeToKebabCase saoPaulo.
Proof. exact (normalizeToKebabCase_idempotent saoPaulo). Defined.

End NormalizerExamples.

(** ** More on strings: prefixes, suffixes, occurrences *)

Section OccurrenceLemmas.
Import JsString.

Lemma startsWith_app p t : startsWith (p ++ t) p = true.
Proof.
  induction p as [|a p IH]; [by destruct t|].
  cbn. by rewrite Z.eqb_refl, IH.
Qed.

Lemma startsWith_inv s p : startsWith s p = true -> exists t, s = p ++ t.
Proof.
  revert s. induction p as [|a p IH]; intros s; [by exists s|].
  destruct s as [|b s]; [done|]. cbn.
  intros [->%Z.eqb_eq [t ->]%IH]%andb_true_iff. by exists t.
Qed.

Lemma endsWith_app pre p : endsWith (pre ++ p) p = true.
Proof. unfold endsWith. rewrite rev_app_distr. apply startsWith_app. Qed.

Lemma endsWith_inv s p : endsWith s p = true -> exists pre, s = pre ++ p.
Proof.
  unfold endsWith. intros [t Ht]%startsWith_inv. exists (rev t).
  apply (f_equal (@rev Z)) in Ht.
  by rewrite rev_involutive, rev_app_distr, rev_involutive in Ht.
Qed.

Lemma indexOf_unfold s p :
  indexOf s p =
  if startsWith s p then Some 0%nat
  else match s with [] => None | _ :: t => S <$> indexOf t p end.
Proof. by destruct s. Qed.

Lemma indexOf_app pre p post : is_Some (indexOf (pre ++ p ++ post) p).
Proof.
  induction pre as [|a pre IH].
  - cbn [app]. rewrite indexOf_unfold, startsWith_app. by eexists.
  - rewrite indexOf_unfold. cbn [app].
    destruct (startsWith _ p); [by eexists|].
    destruct IH as [i ->]. by eexists.
Qed.

Lemma includes_app pre p post : includes (pre ++ p ++ post) p = true.
Proof. unfold includes. apply bool_decide_eq_true, indexOf_app. Qed.

Lemma includes_suffix pre p : includes (pre ++ p) p = true.
Proof. rewrite <- (app_nil_r p) at 1. apply includes_app. Qed.

(** [s.substring(0, s.indexOf(p) + p.length)] ends with [p]. *)
Lemma indexOf_take s p i :
  indexOf s p = Some i ->
  exists pre, take (i + length p) s = pre ++ p /\ length pre = i.
Proof.
  revert i. induction s as [|a s IH]; intros i; rewrite indexOf_unfold.
  - destruct (startsWith [] p) eqn:E; [|done].
    intros [= <-]. destruct p; [|done]. by exists [].
  - destruct (startsWith (a :: s) p) eqn:E.
    + intros [= <-]. apply startsWith_inv in E as [t E]. rewrite E.
      exists []. split; [|done]. cbn [app Nat.add]. by rewrite take_app_length.
    + destruct (indexOf s p) as [j|] eqn:Ej; [|done].
      intros [= <-]. destruct (IH j eq_refl) as (pre & Hpre & Hlen).
      exists (a :: pre). cbn. by rewrite Hpre, Hlen.
Qed.

Lemma dropWhileEnd_app p x y :
  dropWhileEnd p y <> [] -> dropWhileEnd p (x ++ y) = x ++ dropWhileEnd p y.
Proof.
  intros Hy. induction x as [|a x IH]; [done|].
  cbn [app dropWhileEnd]. rewrite IH.
  destruct (x ++ dropWhileEnd p y) eqn:E; [|done].
  by apply app_eq_nil in E as [_ ?].
Qed.

Lemma dropWhileEnd_fixed p s :
  Forall (fun c => p c = false) s -> dropWhileEnd p s = s.
Proof.
  induction 1 as [|a t Ha _ IH]; [done|].
  cbn [dropWhileEnd]. rewrite IH, Ha. by destruct t.
Qed.

(** Appending a non-empty string free of [p] protects what precedes it. *)
Lemma dropWhileEnd_app_free p x y :
  y <> [] -> Forall (fun c => p c = false) y ->
  dropWhileEnd p (x ++ y) = x ++ y.
Proof.
  intros Hne Hy. rewrite dropWhileEnd_app; rewrite dropWhileEnd_fixed; done.
Qed.

Lemma headFree_app p x y : x <> [] -> headFree p x -> headFree p (x ++ y).
Proof. by destruct x. Qed.

Lemma dropWhile_app_keep p x y :
  headFree p y -> y <> [] -> exists x', dropWhile p (x ++ y) = x' ++ y.
Proof.
  intros Hy Hne. induction x as [|a x IH].
  - exists []. by apply dropWhile_fixed.
  - cbn [app dropWhile]. destruct (p a); [done|]. by exists (a :: x).
Qed.

Lemma trim_headFree s : headFree isWhiteSpace (trim s).
Proof. apply dropWhileEnd_headFree, dropWhile_headFree. Qed.

(** Trimming keeps a non-empty suffix that is free of white space. *)
Lemma trim_keeps_suffix pre y :
  y <> [] -> Forall (fun c => isWhiteSpace c = false) y ->
  exists pre', trim (pre ++ y) = pre' ++ y.
Proof.
  intros Hne Hy. unfold trim.
  destruct (dropWhile_app_keep isWhiteSpace pre y) as [x' ->]; [|done|].
  - destruct Hy; [done|]. done.
  - exists x'. by apply dropWhileEnd_app_free.
Qed.

Lemma trim_fixed s :
  headFree isWhiteSpace s -> dropWhileEnd isWhiteSpace s = s -> trim s = s.
Proof. intros H1 H2. unfold trim. by rewrite dropWhile_fixed. Qed.

Lemma salary_no_space : Forall (fun c => isWhiteSpace c = false) salary.
Proof. repeat constructor. Qed.

Lemma trim_nil_iff s : trim s = [] <-> isBlank s = true.
Proof.
  unfold trim, isBlank. induction s as [|a t IH]; [done|].
  cbn [dropWhile forallb]. destruct (isWhiteSpace a) eqn:Ha; [done|].
  split; [|done]. cbn [dropWhileEnd]. rewrite Ha.
  by destruct (dropWhileEnd isWhiteSpace t).
Qed.

End OccurrenceLemmas.

(** ** Rows *)

Lemma get_set_eq r f v : Row.get (Row.set r f v) f = Some v.
Proof.
  induction r as [|[k w] r IH]; cbn.
  - by rewrite eqb_refl.
  - destruct (JsString.eqb k f) eqn:E; cbn; by rewrite E.
Qed.

Lemma get_set_ne r f g v : f <> g -> Row.get (Row.set r f v) g = Row.get r g.
Proof.
  intros Hne. induction r as [|[k w] r IH]; cbn.
  - by apply eqb_false in Hne as ->.
  - destruct (JsString.eqb k f) eqn:E; cbn; [|by rewrite IH].
    apply eqb_true in E as ->. by apply eqb_false in Hne as ->.
Qed.

Lemma cell_set_eq r f v : Row.cell (Row.set r f v) f = v.
Proof. unfold Row.cell. by rewrite get_set_eq. Qed.

Lemma cell_set_ne r f g v : f <> g -> Row.cell (Row.set r f v) g = Row.cell r g.
Proof. intros. unfold Row.cell. by rewrite get_set_ne. Qed.

(** Assigning to a key the row has keeps the keys and their order. *)
Lemma keys_set r f v : is_Some (Row.get r f) -> Row.keys (Row.set r f v) = Row.keys r.
Proof.
  unfold Row.keys. induction r as [|[k w] r IH]; cbn; [by intros [? ?]|].
  destruct (JsString.eqb k f) eqn:E; cbn; [done|]. intros H. by rewrite IH.
Qed.

Lemma cell_nonempty_get r f : Row.cell r f <> [] -> is_Some (Row.get r f).
Proof. unfold Row.cell. destruct (Row.get r f); [by eexists | done]. Qed.

(** ** Row loops *)

(** What a row loop without throwing iterations accumulates. *)
Lemma rowLoop_total step f i rows a st :
  (forall i r, step i r = Some (f i r)) ->
  rowLoop step i rows a st =
  ({| stats := countRows (outcomesFrom f i rows) (stats st); saved := saved st |},
   Some {| acc_rows := acc_rows a ++ pushedRows (outcomesFrom f i rows);
           acc_matches := (acc_matches a + matchesOf (outcomesFrom f i rows))%nat;
           acc_replacements :=
             (acc_replacements a + replacementsOf (outcomesFrom f i rows))%nat |}).
Proof.
  intros Hstep. revert i a st.
  induction rows as [|r rows IH]; intros i a st.
  - destruct a, st as [[] ?]. cbn. unfold ret, countRows. cbn.
    by rewrite app_nil_r, !Nat.add_0_r.
  - cbn [rowLoop outcomesFrom]. rewrite Hstep.
    unfold mbind, run_bind, bind, updStats. rewrite IH.
    destruct a, st as [[] ?]. unfold countRows, accRow, pushedRows. cbn.
    change (foldr (fun o n => ((if out_matched o then 1 else 0) + n)%nat) 0%nat ?l)
      with (matchesOf l).
    change (foldr (fun o n => (out_replacements o + n)%nat) 0%nat ?l)
      with (replacementsOf l).
    f_equal; [f_equal; f_equal; lia|]. f_equal. f_equal; [|lia..].
    destruct (out_pushed (f i r)); cbn; [by rewrite <- app_assoc | done].
Qed.

Lemma outcomesFrom_length f i rows : length (outcomesFrom f i rows) = length rows.
Proof. revert i. induction rows; intros; cbn; auto. Qed.

Lemma outcomesFrom_lookup f i rows j r :
  rows !! j = Some r -> outcomesFrom f i rows !! j = Some (f (i + j)%nat r).
Proof.
  revert i j. induction rows as [|a rows IH]; intros i [|j] H; try done.
  - injection H as ->. cbn. by rewrite Nat.add_0_r.
  - cbn [outcomesFrom]. change ((?x :: ?l) !! S j) with (l !! j).
    change ((a :: rows) !! S j) with (rows !! j) in H.
    rewrite (IH (S i) j H). do 2 f_equal. lia.
Qed.

(** When every row is pushed, the processed rows are the outcome rows. *)
Lemma pushedRows_all outs :
  Forall (fun o => out_pushed o = true) outs -> pushedRows outs = List.map out_row outs.
Proof.
  unfold pushedRows. induction 1 as [|o outs Ho _ IH]; [done|].
  cbn. by rewrite Ho, <- IH.
Qed.

Lemma replacementsOf_zero outs :
  Forall (fun o => out_replacements o = 0%nat) outs -> replacementsOf outs = 0%nat.
Proof.
  induction 1 as [|o outs Ho _ IH]; [done|].
  change (replacementsOf (o :: outs))
    with (out_replacements o + replacementsOf outs)%nat.
  by rewrite Ho, IH.
Qed.

(** ** The process endpoint, simple mode *)

Ltac run_unfold :=
  unfold mbind, run_bind, bind, updStats, ret, throw, catch, saveOutput,
    persist in *.

Lemma overwriteFields_get newValue fields r events n :
  newValue <> [] ->
  let r' := (ProcessRoute.overwriteFields newValue fields r events n).1.1 in
  (forall f, f ∈ fields -> Row.get r' f = Some newValue)
  /\ (forall f, f ∉ fields -> Row.get r' f = Row.get r f).
Proof.
  intros Hne. revert r events n.
  induction fields as [|f0 fields IH]; intros r events n; cbn zeta.
  - split; [by intros f ?%elem_of_nil | done].
  - cbn [ProcessRoute.overwriteFields].
    assert (forall r1, Row.get r1 f0 = Some newValue ->
              (forall f, f ∉ f0 :: fields -> Row.get r1 f = Row.get r f) ->
              forall ev1 n1,
              let r' := (ProcessRoute.overwriteFields newValue fields r1 ev1 n1).1.1 in
              (forall f, f ∈ f0 :: fields -> Row.get r' f = Some newValue)
              /\ (forall f, f ∉ f0 :: fields -> Row.get r' f = Row.get r f)) as Hstep.
    { intros r1 Hf0 Hothers ev1 n1. cbn zeta.
      destruct (IH r1 ev1 n1) as [IH1 IH2]. split.
      - intros f [->|Hf]%elem_of_cons; [|by apply IH1].
        destruct (decide (f0 ∈ fields)); [by apply IH1|]. by rewrite IH2.
      - intros f Hf. rewrite IH2, Hothers; [done..|].
        intros ?. apply Hf. by right. }
    destruct (JsString.eqb newValue (Row.cell r f0)) eqn:E; cbn [negb].
    + apply Hstep; [|done]. apply eqb_true in E. unfold Row.cell in E.
      destruct (Row.get r f0); cbn in E; congruence.
    + apply Hstep; [apply get_set_eq|].
      intros f Hf. apply get_set_ne. intros ->. apply Hf. by left.
Qed.

Lemma simpleRow_matched test headers fields newValue showOnly r :
  test (rowText headers r) = true ->
  out_row (ProcessRoute.simpleRow test headers fields (Some newValue) showOnly r)
  = ProcessRoute.overwritten newValue fields r.
Proof.
  intros Hm. unfold ProcessRoute.simpleRow, ProcessRoute.overwritten.
  fold (rowText headers r). rewrite Hm. cbn [negb].
  by destruct (ProcessRoute.overwriteFields _ _ _ _ _) as [[? ?] ?].
Qed.

Lemma simpleRow_unmatched test headers fields mode showOnly r :
  test (rowText headers r) = false ->
  ProcessRoute.simpleRow test headers fields mode showOnly r
  = {| out_row := r; out_pushed := negb showOnly; out_matched := false;
       out_events := []; out_replacements := 0 |}.
Proof.
  intros Hm. unfold ProcessRoute.simpleRow.
  fold (rowText headers r). by rewrite Hm.
Qed.

Lemma simpleRow_pushed test headers fields mode showOnly r :
  out_pushed (ProcessRoute.simpleRow test headers fields mode showOnly r)
  = negb showOnly || test (rowText headers r).
Proof.
  unfold ProcessRoute.simpleRow. fold (rowText headers r).
  destruct (test (rowText headers r)); cbn [negb]; [|by rewrite orb_false_r].
  destruct mode; [|done].
  by destruct (ProcessRoute.overwriteFields _ _ _ _ _) as [[? ?] ?].
Qed.

(** C1, as the code has it.  In simple mode with a non-empty replacement
    term, a row whose text matches the search expression gets the term
    as the whole new value of every replace field (all headers when the
    selection is empty or holds 'All', else the selected headers),
    whether or not that field's own value matched; its other fields, and
    the rows that do not match, are left as they are. *)
Theorem simple_replace_overwrites_fields
    (test : jsstring -> bool) (headers selected : list jsstring)
    (term : jsstring) (showOnly : bool) (r : row) :
  term <> [] ->
  let fields := ProcessRoute.replaceFields selected headers in
  let o := ProcessRoute.simpleRow test headers fields
             (ProcessRoute.replaceModeTerm (Some term)) showOnly r in
  (test (rowText headers r) = true ->
     (forall f, f ∈ fields -> Row.get (out_row o) f = Some term)
     /\ (forall f, f ∉ fields -> Row.get (out_row o) f = Row.get r f))
  /\ (test (rowText headers r) = false -> out_row o = r).
Proof.
  intros Hne fields o. subst o.
  assert (ProcessRoute.replaceModeTerm (Some term) = Some term) as ->
    by (by destruct term).
  split.
  - intros Hm. rewrite simpleRow_matched by done.
    by apply overwriteFields_get.
  - intros Hm. by rewrite simpleRow_unmatched.
Qed.

Lemma simple_replace_overwrites_fields_witness :
  let test := fun text => JsString.includes text (str "foo") in
  let o := ProcessRoute.simpleRow test [title; note]
             (ProcessRoute.replaceFields [] [title; note])
             (ProcessRoute.replaceModeTerm (Some (str "X"))) false rowFooBar in
  Row.get (out_row o) title = Some (str "X")
  /\ Row.get (out_row o) note = Some (str "X").
Proof.
  pose proof (simple_replace_overwrites_fields
                (fun text => JsString.includes text (str "foo"))
                [title; note] [] (str "X") false rowFooBar) as H.
  destruct H as [H _]; [done|].
  destruct H as [H _]; [reflexivity|].
  split; apply H; [by left | by right; left].
Defined.

Section SimpleReplaceExample.
#[local] Existing Instance Latin1.runtime.
#[local] Existing Instance latin1_laws.

(** C1, counterexample.  Searching [foo] and replacing by [X]: the
    title [foo bar] becomes [X], not the in-place substitution [X bar],
    and the note [zzz], which does not match the expression, becomes [X]
    too. *)
Lemma simple_replace_is_not_in_place :
  exists st a r',
    ProcessRoute.POST (oneFile [rowFooBar; rowPlain])
      (simpleRequest (str "foo") (Some (str "X")) false filebrowser) = Some st
    /\ saved st = [a] /\ art_rows a = [r'; rowPlain]
    /\ Row.get rowFooBar title = Some (str "foo bar")
    /\ spec_substituteInPlace (str "foo") (str "X") 0 (str "foo bar") = str "X bar"
    /\ Row.get r' title = Some (str "X")
    /\ Row.get r' title
       <> Some (spec_substituteInPlace (str "foo") (str "X") 0 (str "foo bar"))
    /\ Row.get rowFooBar note = Some (str "zzz")
    /\ JsString.includes (str "zzz") (str "foo") = false
    /\ Row.get r' note = Some (str "X").
Proof.
  eexists _, _, _. split; [vm_compute; reflexivity|].
  split; [reflexivity|]. split; [reflexivity|].
  repeat split; try reflexivity. vm_compute. discriminate.
Qed.

End SimpleReplaceExample.

(** ** The process endpoint, file by file *)

Section ProcessFiles.
Context `{!JsRuntime}.

(** The state after a simple-mode file that downloads and parses and
    whose search expression compiles. *)
Lemma processFileSimple_parsed w req term file rows test st :
  download w (path file) = Parsed rows ->
  RegExp (ProcessRoute.searchPattern (useRegex req) (wholeWord req) term)
         (negb (caseSensitive req)) = Some test ->
  let headers := headersOf rows in
  let fields := ProcessRoute.replaceFields (selectedFields req) headers in
  let mode := ProcessRoute.replaceModeTerm (replaceTerm req) in
  let outs := outcomesFrom
                (fun _ r => ProcessRoute.simpleRow test headers fields mode
                              (showOnlyMatches req) r) 0 rows in
  let s1 := countRows outs (addTotalRows (length rows) (stats st)) in
  fst (ProcessRoute.processFileSimple w req term file st) =
  match mode with
  | None => {| stats := incProcessedFiles s1; saved := saved st |}
  | Some _ =>
      if storeOk w (path file)
      then {| stats := incProcessedFiles s1;
              saved := saved st
                ++ [{| art_source := path file;
                       art_mode := default filebrowser (saveMode req);
                       art_suffix := ProcessRoute.replacedSuffix;
                       art_rows := pushedRows outs |}] |}
      else {| stats := s1; saved := saved st |}
  end.
Proof.
  intros Hdl Hre. cbn zeta. unfold ProcessRoute.processFileSimple.
  rewrite Hdl. run_unfold. cbn [stats saved]. rewrite Hre.
  erewrite rowLoop_total by reflexivity. cbn [stats saved acc_rows emptyAcc app].
  destruct (ProcessRoute.replaceModeTerm (replaceTerm req)); [|done].
  cbn [art_source]. by destruct (storeOk w (path file)).
Qed.

(** With [showOnlyMatches], the processed rows of a simple-mode replace
    are the matching rows only, each after the overwrite. *)
Lemma pushedRows_showOnly test headers fields newValue i rows :
  pushedRows (outcomesFrom
                (fun _ r => ProcessRoute.simpleRow test headers fields
                              (Some newValue) true r) i rows)
  = List.map (ProcessRoute.overwritten newValue fields)
      (List.filter (fun r => test (rowText headers r)) rows).
Proof.
  revert i. induction rows as [|r rows IH]; intros i; [done|].
  unfold pushedRows in *. cbn [outcomesFrom List.filter].
  rewrite simpleRow_pushed. cbn [negb orb].
  destruct (test (rowText headers r)) eqn:Hm; [|apply IH].
  cbn [List.map]. by rewrite simpleRow_matched, IH.
Qed.

(** C10.  In the simple-mode flow with [showOnlyMatches] set, the rows
    that do not match the search expression are left out of the
    processed row list, so with a replacement term the persisted output
    (in every save mode, [overwrite] included) holds the matching rows
    only: as many rows as match, each a matching row after the
    replacement. *)
Theorem simple_showOnlyMatches_drops_rows
    (w : World) (req : ProcessRequest) (term newValue : jsstring)
    (file : FileRef) (rows : list row) (test : jsstring -> bool)
    (st : RunState) :
  download w (path file) = Parsed rows ->
  RegExp (ProcessRoute.searchPattern (useRegex req) (wholeWord req) term)
         (negb (caseSensitive req)) = Some test ->
  showOnlyMatches req = true ->
  ProcessRoute.replaceModeTerm (replaceTerm req) = Some newValue ->
  storeOk w (path file) = true ->
  let headers := headersOf rows in
  let matching := List.filter (fun r => test (rowText headers r)) rows in
  exists content,
    saved (fst (ProcessRoute.processFileSimple w req term file st))
    = saved st ++ [{| art_source := path file;
                      art_mode := default filebrowser (saveMode req);
                      art_suffix := ProcessRoute.replacedSuffix;
                      art_rows := content |}]
    /\ content
       = List.map (ProcessRoute.overwritten newValue
                     (ProcessRoute.replaceFields (selectedFields req) headers))
                  matching
    /\ length content = length matching.
Proof.
  intros Hdl Hre Hshow Hmode Hok. cbn zeta.
  rewrite (processFileSimple_parsed _ _ _ _ _ _ _ Hdl Hre). cbn zeta.
  rewrite Hmode, Hok, Hshow. cbn [saved].
  eexists. split; [reflexivity|].
  rewrite pushedRows_showOnly. split; [done|]. by rewrite length_map.
Qed.

End ProcessFiles.

Section ShowOnlyExample.
#[local] Existing Instance Latin1.runtime.
#[local] Existing Instance latin1_laws.

Lemma simple_showOnlyMatches_drops_rows_witness :
  exists content,
    saved (fst (ProcessRoute.processFileSimple (oneFile [rowFooBar; rowPlain])
                  (simpleRequest (str "foo") (Some (str "X")) true overwrite)
                  (str "foo") {| path := aCsv; name := str "a.csv" |}
                  (initState 1)))
    = [{| art_source := aCsv; art_mode := overwrite;
          art_suffix := ProcessRoute.replacedSuffix; art_rows := content |}]
    /\ content = [[(title, str "X"); (note, str "X")]]
    /\ length content = 1%nat.
Proof.
  destruct (simple_showOnlyMatches_drops_rows (oneFile [rowFooBar; rowPlain])
              (simpleRequest (str "foo") (Some (str "X")) true overwrite)
              (str "foo") (str "X") {| path := aCsv; name := str "a.csv" |}
              [rowFooBar; rowPlain]
              (fun text => JsString.includes text (str "foo")) (initState 1))
    as (content & H1 & H2 & H3); try reflexivity.
  exists content. split; [exact H1|]. split; [|exact H3].
  rewrite H2. reflexivity.
Defined.

End ShowOnlyExample.

(** ** Files, outputs and the processedFiles counter *)

Section FileOutcomes.
Context `{!JsRuntime}.


Lemma replaceRow_pushed headers ops targeted r :
  out_pushed (ReplaceRoute.replaceRow headers ops targeted r) = true.
Proof.
  unfold ReplaceRoute.replaceRow. destruct targeted; [|done].
  destruct (ReplaceRoute.applyOperations _ _ _ _ _ _) as [[[? ?] ?] ?].
  by destruct (ReplaceRoute.updateSlugUrl _ _ _ _ _) as [[? ?] ?].
Qed.

Lemma fixRow_pushed targeted r :
  out_pushed (FixSlugUrlsRoute.fixRow targeted r) = true.
Proof.
  unfold FixSlugUrlsRoute.fixRow.
  repeat match goal with |- context [if ?b then _ else _] => destruct b end;
    done.
Qed.

Lemma pushedRows_outcomes step i rows :
  (forall i r, out_pushed (step i r) = true) ->
  pushedRows (outcomesFrom step i rows) = List.map out_row (outcomesFrom step i rows).
Proof.
  intros Hp. apply pushedRows_all, Forall_forall.
  revert i. induction rows as [|r rows IH]; intros i o; cbn.
  - by intros ?%elem_of_nil.
  - intros [->|?]%elem_of_cons; [apply Hp | by eapply IH].
Qed.

(** The state after a file of the replace endpoint that downloads and
    parses. *)
Lemma replace_processFile_parsed w ops mode file result rows st :
  download w file = Parsed rows ->
  let headers := headersOf rows in
  let outs := outcomesFrom
                (fun i r => ReplaceRoute.replaceRow headers ops
                              (inRowSet result i) r) 0 rows in
  let s0 := addTotalRows (length rows) (stats st) in
  let s1 := countRows outs s0 in
  fst (ReplaceRoute.processFile w ops mode (file, result) st) =
  if negb (length (List.filter (fun f => negb (hasHeader headers f))
                     (List.map op_field ops)) =? 0)%nat
  then {| stats := s0; saved := saved st |}
  else if (0 <? replacementsOf outs)%nat then
    if storeOk w file
    then {| stats := incProcessedFiles s1;
            saved := saved st
              ++ [{| art_source := file; art_mode := mode;
                     art_suffix := ProcessRoute.replacedSuffix;
                     art_rows := List.map out_row outs |}] |}
    else {| stats := s1; saved := saved st |}
  else {| stats := s1; saved := saved st |}.
Proof.
  intros Hdl. cbn zeta. unfold ReplaceRoute.processFile.
  rewrite Hdl. run_unfold. cbn [stats saved].
  destruct (negb _); [done|].
  erewrite rowLoop_total by reflexivity.
  cbn [stats saved acc_rows acc_replacements emptyAcc app Nat.add].
  destruct (0 <? _)%nat; [|done]. cbn [art_source].
  rewrite pushedRows_outcomes by (intros; apply replaceRow_pushed).
  by destruct (storeOk w file).
Qed.

(** The same for the fix-slug-urls endpoint. *)
Lemma fix_processFile_parsed w mode file result rows st :
  download w file = Parsed rows ->
  let headers := headersOf rows in
  let outs := outcomesFrom
                (fun i r => FixSlugUrlsRoute.fixRow (inRowSet result i) r) 0 rows in
  let s0 := addTotalRows (length rows) (stats st) in
  let s1 := countRows outs s0 in
  fst (FixSlugUrlsRoute.processFile w mode (file, result) st) =
  if negb (hasHeader headers slug_url) || negb (hasHeader headers location)
  then {| stats := s0; saved := saved st |}
  else if (0 <? replacementsOf outs)%nat then
    if storeOk w file
    then {| stats := incProcessedFiles s1;
            saved := saved st
              ++ [{| art_source := file; art_mode := mode;
                     art_suffix := FixSlugUrlsRoute.fixedSuffix;
                     art_rows := List.map out_row outs |}] |}
    else {| stats := s1; saved := saved st |}
  else {| stats := s1; saved := saved st |}.
Proof.
  intros Hdl. cbn zeta. unfold FixSlugUrlsRoute.processFile.
  rewrite Hdl. run_unfold. cbn [stats saved].
  destruct (negb (hasHeader _ slug_url)); [done|].
  destruct (negb (hasHeader _ location)); [done|]. cbn [orb].
  erewrite rowLoop_total by reflexivity.
  cbn [stats saved acc_rows acc_replacements emptyAcc app Nat.add].
  destruct (0 <? _)%nat; [|done]. cbn [art_source].
  rewrite pushedRows_outcomes by (intros; apply fixRow_pushed).
  by destruct (storeOk w file).
Qed.









End FileOutcomes.

Section Persistence.
Context `{!JsRuntime}.



End Persistence.

Section PersistenceExamples.
#[local] Existing Instance Latin1.runtime.
#[local] Existing Instance latin1_laws.





End PersistenceExamples.

(** ** Advanced mode: blank conditions *)

Section BlankConditions.
Context `{!JsRuntime}.

Lemma isActive_blank c :
  ProcessRoute.isActive c = negb (isBlank (cond_value c)).
Proof.
  unfold ProcessRoute.isActive. destruct (cond_value c) as [|a v] eqn:E; [done|].
  cbn [JsString.truthy andb]. f_equal.
  destruct (isBlank (a :: v)) eqn:Hb.
  - apply eqb_true. by apply trim_nil_iff.
  - apply eqb_false. intros Ht%trim_nil_iff. congruence.
Qed.

Lemma filter_isActive_idem cs :
  List.filter ProcessRoute.isActive
    (List.filter (fun c => negb (isBlank (cond_value c))) cs)
  = List.filter ProcessRoute.isActive cs.
Proof.
  induction cs as [|c cs IH]; [done|]. cbn [List.filter].
  rewrite <- isActive_blank.
  destruct (ProcessRoute.isActive c) eqn:E; [|done].
  cbn [List.filter]. by rewrite E, IH.
Qed.

Lemma filter_isActive_blank cs :
  Forall (fun c => isBlank (cond_value c) = true) cs ->
  List.filter ProcessRoute.isActive cs = [].
Proof.
  induction 1 as [|c cs Hc _ IH]; [done|]. cbn [List.filter].
  by rewrite isActive_blank, Hc.
Qed.

(** C6.  In advanced mode a condition whose value is empty or white
    space only is left out of the evaluation: the evaluator gives the
    same answer with and without the blank conditions.  When all
    conditions are blank, and so for an AND search with the single
    condition of value [""], it reports a match for every row. *)
Theorem blank_conditions_impose_nothing
    (r : row) (headers : list jsstring) (adv : AdvancedSearchConfig) :
  ProcessRoute.rowMatchesAdvanced r headers adv
  = ProcessRoute.rowMatchesAdvanced r headers
      {| conditions := List.filter (fun c => negb (isBlank (cond_value c)))
                                   (conditions adv);
         logic := logic adv; adv_caseSensitive := adv_caseSensitive adv |}
  /\ (Forall (fun c => isBlank (cond_value c) = true) (conditions adv) ->
      ProcessRoute.rowMatchesAdvanced r headers adv = Some (true, [])
      /\ forall mode showOnly,
           exists o, ProcessRoute.advancedRow adv headers mode showOnly r = Some o
                     /\ out_matched o = true)
  /\ (forall f m cs,
        ProcessRoute.rowMatchesAdvanced r headers
          {| conditions := [{| cond_field := f; cond_value := []; cond_mode := m |}];
             logic := Some AND; adv_caseSensitive := cs |} = Some (true, [])).
Proof.
  split; [|split].
  - unfold ProcessRoute.rowMatchesAdvanced. cbn [conditions logic adv_caseSensitive].
    by rewrite filter_isActive_idem.
  - intros Hb.
    assert (ProcessRoute.rowMatchesAdvanced r headers adv = Some (true, [])) as Hm.
    { unfold ProcessRoute.rowMatchesAdvanced.
      by rewrite (filter_isActive_blank _ Hb). }
    split; [done|]. intros mode showOnly.
    unfold ProcessRoute.advancedRow. rewrite Hm. cbn.
    destruct mode as [[target v]|]; [|by eexists].
    destruct (hasHeader headers target); [|by eexists].
    destruct (negb _); by eexists.
  - done.
Qed.

End BlankConditions.

Section BlankExample.
#[local] Existing Instance Latin1.runtime.
#[local] Existing Instance latin1_laws.

Lemma blank_conditions_impose_nothing_witness :
  ProcessRoute.rowMatchesAdvanced rowPlain [title; note]
    {| conditions := [{| cond_field := title; cond_value := str "  ";
                         cond_mode := Some equals |};
                      {| cond_field := str "missing"; cond_value := [];
                         cond_mode := Some regex |}];
       logic := Some AND; adv_caseSensitive := false |} = Some (true, []).
Proof.
  refine (proj1 (proj1 (proj2 (blank_conditions_impose_nothing
                                 rowPlain [title; note] _)) _)).
  repeat constructor.
Defined.

End BlankExample.

(** ** The replace endpoint, row by row *)

Section ReplaceRows.
Context `{!JsRuntime}.

(** An operation list leaves the fields it does not name alone. *)
Lemma applyOperations_untouched headers ops r events n loc f :
  f ∉ List.map op_field ops ->
  Row.get (ReplaceRoute.applyOperations headers ops r events n loc).1.1.1 f
  = Row.get r f.
Proof.
  revert r events n loc.
  induction ops as [|op ops IH]; intros r events n loc Hf; [done|].
  cbn [List.map] in Hf. apply not_elem_of_cons in Hf as [Hne Hf].
  cbn [ReplaceRoute.applyOperations].
  destruct (negb (hasHeader headers (op_field op))); [by apply IH|].
  destruct (negb (JsString.eqb _ _)); [|by apply IH].
  rewrite IH by done. by apply get_set_ne.
Qed.

(** After the operations, a field holds the value of the last operation
    that names it. *)
Lemma applyOperations_last headers pre op post r events n loc :
  hasHeader headers (op_field op) = true ->
  Forall (fun o => op_field o <> op_field op) post ->
  Row.cell (ReplaceRoute.applyOperations headers (pre ++ op :: post)
              r events n loc).1.1.1 (op_field op)
  = op_value op.
Proof.
  intros Hh Hpost. revert r events n loc.
  assert (forall r1 ev1 n1 loc1,
            Row.cell r1 (op_field op) = op_value op ->
            Row.cell (ReplaceRoute.applyOperations headers post r1 ev1 n1 loc1).1.1.1
              (op_field op) = op_value op) as Hrest.
  { intros r1 ev1 n1 loc1 <-. unfold Row.cell. f_equal.
    apply applyOperations_untouched.
    rewrite list_elem_of_In, in_map_iff. intros (o & Ho & Hin).
    rewrite Forall_forall in Hpost. apply list_elem_of_In in Hin. by eapply Hpost. }
  induction pre as [|p pre IH]; intros r events n loc.
  - cbn [app ReplaceRoute.applyOperations]. rewrite Hh. cbn [negb].
    destruct (JsString.eqb (Row.cell r (op_field op)) (op_value op)) eqn:E;
      cbn [negb]; apply Hrest.
    + by apply eqb_true in E.
    + apply cell_set_eq.
  - cbn [app ReplaceRoute.applyOperations].
    destruct (negb (hasHeader headers (op_field p))); [apply IH|].
    destruct (negb (JsString.eqb _ _)); apply IH.
Qed.

(** [locationReplacement] records the value the row holds in
    [location]. *)
Lemma applyOperations_location headers ops r events n loc :
  (forall old new, loc = Some (old, new) -> Row.cell r location = new) ->
  forall old new,
    (ReplaceRoute.applyOperations headers ops r events n loc).2 = Some (old, new) ->
    Row.cell (ReplaceRoute.applyOperations headers ops r events n loc).1.1.1 location
    = new.
Proof.
  revert r events n loc.
  induction ops as [|op ops IH]; intros r events n loc Hinv old new; [by apply Hinv|].
  cbn [ReplaceRoute.applyOperations].
  destruct (negb (hasHeader headers (op_field op))); [by apply IH|].
  destruct (negb (JsString.eqb _ _)) eqn:E; [|by apply IH].
  apply IH. intros old' new'.
  destruct (JsString.eqb (op_field op) location) eqn:El.
  - apply eqb_true in El. intros [= _ <-]. rewrite <- El. apply cell_set_eq.
  - apply eqb_false in El. intros Hl. rewrite cell_set_ne by done. by eapply Hinv.
Qed.

Lemma updateSlugUrl_untouched headers r events n loc f :
  f <> slug_url ->
  Row.get (ReplaceRoute.updateSlugUrl headers r events n loc).1.1 f = Row.get r f.
Proof.
  intros Hf. unfold ReplaceRoute.updateSlugUrl.
  destruct loc as [[old new]|]; [|done].
  destruct (hasHeader headers slug_url); [|done].
  destruct (ReplaceRoute.recomputedSlug _ _); [|done].
  destruct (negb _); [|done]. cbn. by apply get_set_ne.
Qed.

Lemma replaceRow_untargeted headers ops r :
  out_row (ReplaceRoute.replaceRow headers ops false r) = r.
Proof. done. Qed.

Lemma replaceRow_targeted headers ops r :
  out_row (ReplaceRoute.replaceRow headers ops true r)
  = (ReplaceRoute.updateSlugUrl headers
       (ReplaceRoute.applyOperations headers ops r [] 0 None).1.1.1
       (ReplaceRoute.applyOperations headers ops r [] 0 None).1.1.2
       (ReplaceRoute.applyOperations headers ops r [] 0 None).1.2
       (ReplaceRoute.applyOperations headers ops r [] 0 None).2).1.1.
Proof.
  unfold ReplaceRoute.replaceRow.
  destruct (ReplaceRoute.applyOperations _ _ _ _ _ _) as [[[r1 ev1] n1] loc].
  cbn [fst snd].
  by destruct (ReplaceRoute.updateSlugUrl _ _ _ _ _) as [[? ?] ?].
Qed.

(** A targeted row keeps every field that is neither named by an
    operation nor [slug_url]. *)
Lemma replaceRow_frame headers ops targeted r f :
  f ∉ List.map op_field ops -> f <> slug_url ->
  Row.get (out_row (ReplaceRoute.replaceRow headers ops targeted r)) f
  = Row.get r f.
Proof.
  intros Hops Hslug. destruct targeted; [|done].
  rewrite replaceRow_targeted, updateSlugUrl_untouched by done.
  by apply applyOperations_untouched.
Qed.

Lemma fixRow_untargeted r : out_row (FixSlugUrlsRoute.fixRow false r) = r.
Proof. done. Qed.

Lemma fixRow_frame targeted r f :
  f <> slug_url ->
  Row.get (out_row (FixSlugUrlsRoute.fixRow targeted r)) f = Row.get r f.
Proof.
  intros Hf. unfold FixSlugUrlsRoute.fixRow.
  repeat match goal with |- context [if ?b then _ else _] => destruct b end;
    try done.
  cbn. by apply get_set_ne.
Qed.

Lemma inRowSet_false result i :
  (forall sr, sr ∈ sr_rows result -> rowIndex sr <> Z.of_nat i + 1) ->
  inRowSet result i = false.
Proof.
  intros Hout. unfold inRowSet. apply bool_decide_eq_false.
  rewrite list_elem_of_In, in_map_iff. intros (sr & Heq & Hin).
  apply list_elem_of_In in Hin. apply (Hout sr Hin). lia.
Qed.

(** C9.  In the replace and fix-slug-urls endpoints the processed row
    list has one row per parsed row, in the same order; a row whose
    1-based index is not among the submitted search-result rows is
    unchanged; and a targeted row keeps the value of every field other
    than the target fields of the operations and [slug_url]. *)
Theorem replace_and_fix_frame
    (headers : list jsstring) (ops : list ReplaceOperation)
    (result : SearchResult) (rows : list row) (st : RunState) :
  (exists st' acc,
     rowLoop (fun i r => Some (ReplaceRoute.replaceRow headers ops
                                 (inRowSet result i) r))
             0 rows emptyAcc st = (st', Some acc)
     /\ length (acc_rows acc) = length rows
     /\ forall i r, rows !! i = Some r ->
          exists r', acc_rows acc !! i = Some r'
            /\ ((forall sr, sr ∈ sr_rows result ->
                   rowIndex sr <> Z.of_nat i + 1) -> r' = r)
            /\ (forall f, f ∉ List.map op_field ops -> f <> slug_url ->
                  Row.get r' f = Row.get r f))
  /\ (exists st' acc,
        rowLoop (fun i r => Some (FixSlugUrlsRoute.fixRow (inRowSet result i) r))
                0 rows emptyAcc st = (st', Some acc)
        /\ length (acc_rows acc) = length rows
        /\ forall i r, rows !! i = Some r ->
             exists r', acc_rows acc !! i = Some r'
               /\ ((forall sr, sr ∈ sr_rows result ->
                      rowIndex sr <> Z.of_nat i + 1) -> r' = r)
               /\ (forall f, f <> slug_url -> Row.get r' f = Row.get r f)).
Proof.
  split.
  - eexists _, _. split; [by erewrite rowLoop_total|].
    cbn [acc_rows emptyAcc app].
    rewrite pushedRows_outcomes by (intros; apply replaceRow_pushed).
    split; [by rewrite length_map, outcomesFrom_length|].
    intros i r Hi. eexists. split.
    { rewrite list_lookup_fmap, (outcomesFrom_lookup _ _ _ _ _ Hi). done. }
    cbn [Nat.add]. split.
    + intros Hout. by rewrite (inRowSet_false _ _ Hout).
    + intros f Hops Hslug. by apply replaceRow_frame.
  - eexists _, _. split; [by erewrite rowLoop_total|].
    cbn [acc_rows emptyAcc app].
    rewrite pushedRows_outcomes by (intros; apply fixRow_pushed).
    split; [by rewrite length_map, outcomesFrom_length|].
    intros i r Hi. eexists. split.
    { rewrite list_lookup_fmap, (outcomesFrom_lookup _ _ _ _ _ Hi). done. }
    cbn [Nat.add]. split.
    + intros Hout. by rewrite (inRowSet_false _ _ Hout).
    + intros f Hslug. by apply fixRow_frame.
Qed.

End ReplaceRows.

(** ** The derived-field rule of the replace endpoint *)

Section SlugRule.
Context `{!JsRuntime}.

Lemma headFree_take p n s : headFree p s -> headFree p (take n s).
Proof. by destruct s, n. Qed.

Lemma endsWith_salary_trim s :
  JsString.endsWith s salary = true -> exists pre, JsString.trim s = pre ++ salary.
Proof.
  intros [pre ->]%endsWith_inv.
  apply trim_keeps_suffix; [done | apply salary_no_space].
Qed.

(** The recomputed slug has no white space at either end. *)
Lemma recomputedSlug_trimmed cur newLocation newSlug :
  headFree JsString.isWhiteSpace cur ->
  ReplaceRoute.recomputedSlug cur newLocation = Some newSlug ->
  JsString.trim newSlug = newSlug.
Proof.
  intros Hhead. unfold ReplaceRoute.recomputedSlug.
  destruct (JsString.includes cur salary); [|done].
  destruct (JsString.indexOf cur salary) as [idx|] eqn:Hidx; [|done].
  intros [= <-].
  destruct (indexOf_take _ _ _ Hidx) as (pre & Hbase & _).
  change (length salary) with 7%nat in Hbase. unfold JsString.substring0.
  assert (headFree JsString.isWhiteSpace (take (idx + 7) cur)) as Hb
    by by apply headFree_take.
  destruct (JsString.truthy (normalizeToKebabCase newLocation)) eqn:Hn.
  - apply trim_fixed.
    + apply headFree_app; [|done]. rewrite Hbase. by destruct pre.
    + rewrite cons_middle, app_assoc.
      apply dropWhileEnd_app_free; [|apply normalize_no_space].
      by destruct (normalizeToKebabCase newLocation).
  - apply trim_fixed; [done|]. rewrite Hbase.
    apply dropWhileEnd_app_free; [done | apply salary_no_space].
Qed.

(** The derived-field rule on a row in which an operation changed
    [location], when the slug of the row ends with [-salary]. *)
Lemma slug_rule_applies headers ops r :
  let after := ReplaceRoute.applyOperations headers ops r [] 0 None in
  let r1 := after.1.1.1 in
  let s := Row.cell r1 slug_url in
  let cur := JsString.trim s in
  forall old new,
    after.2 = Some (old, new) ->
    hasHeader headers slug_url = true ->
    JsString.endsWith s salary = true ->
    exists idx pre,
      JsString.indexOf cur salary = Some idx
      /\ JsString.substring0 (idx + 7) cur = pre ++ salary
      /\ Row.cell r1 location = new
      /\ let norm := normalizeToKebabCase new in
         let newSlug := if JsString.truthy norm
                        then (pre ++ salary) ++ [JsString.hyphen] ++ norm
                        else pre ++ salary in
         let final := Row.cell (out_row (ReplaceRoute.replaceRow headers ops true r))
                               slug_url in
         final = (if JsString.eqb newSlug cur then s else newSlug)
         /\ JsString.trim final = newSlug.
Proof.
  cbn zeta. intros old new Hloc Hh Hends.
  set (r1 := (ReplaceRoute.applyOperations headers ops r [] 0 None).1.1.1) in *.
  set (s := Row.cell r1 slug_url) in *.
  destruct (endsWith_salary_trim _ Hends) as [p Hcur].
  assert (is_Some (JsString.indexOf (JsString.trim s) salary)) as [idx Hidx].
  { rewrite Hcur. rewrite <- (app_nil_r salary) at 1. apply indexOf_app. }
  destruct (indexOf_take _ _ _ Hidx) as (pre & Hbase & _).
  change (length salary) with 7%nat in Hbase.
  exists idx, pre. split; [done|]. split; [done|]. split.
  { by eapply applyOperations_location. }
  rewrite replaceRow_targeted. rewrite Hloc. fold r1.
  pose proof (fun ns => recomputedSlug_trimmed (JsString.trim s) new ns
                          (trim_headFree s)) as Htrim.
  unfold ReplaceRoute.updateSlugUrl. rewrite Hh. fold s.
  unfold ReplaceRoute.recomputedSlug in *.
  assert (JsString.includes (JsString.trim s) salary = true) as Hinc
    by (apply bool_decide_eq_true; by rewrite Hidx).
  rewrite Hinc, Hidx in *. unfold JsString.substring0 in *. rewrite Hbase in *.
  specialize (Htrim _ eq_refl).
  destruct (JsString.eqb _ _) eqn:E; cbn [negb fst].
  - split; [done|]. by apply eqb_true in E.
  - rewrite cell_set_eq. split; [done|]. exact Htrim.
Qed.

(** The derived-field rule as the code has it: it applies when the
    trimmed slug contains [-salary], anywhere. *)
Lemma slug_rule_contains headers ops r :
  let after := ReplaceRoute.applyOperations headers ops r [] 0 None in
  let r1 := after.1.1.1 in
  let s := Row.cell r1 slug_url in
  let cur := JsString.trim s in
  forall old new,
    after.2 = Some (old, new) ->
    hasHeader headers slug_url = true ->
    JsString.includes cur salary = true ->
    exists idx pre,
      JsString.indexOf cur salary = Some idx
      /\ JsString.substring0 (idx + 7) cur = pre ++ salary
      /\ length pre = idx
      /\ let norm := normalizeToKebabCase new in
         let newSlug := if JsString.truthy norm
                        then (pre ++ salary) ++ [JsString.hyphen] ++ norm
                        else pre ++ salary in
         let final := Row.cell (out_row (ReplaceRoute.replaceRow headers ops true r))
                               slug_url in
         final = (if JsString.eqb newSlug cur then s else newSlug)
         /\ JsString.trim final = newSlug.
Proof.
  cbn zeta. intros old new Hloc Hh Hinc.
  set (r1 := (ReplaceRoute.applyOperations headers ops r [] 0 None).1.1.1) in *.
  set (s := Row.cell r1 slug_url) in *.
  assert (is_Some (JsString.indexOf (JsString.trim s) salary)) as [idx Hidx]
    by (by apply bool_decide_eq_true in Hinc).
  destruct (indexOf_take _ _ _ Hidx) as (pre & Hbase & Hlen).
  change (length salary) with 7%nat in Hbase.
  exists idx, pre. split; [done|]. split; [done|]. split; [exact Hlen|].
  rewrite replaceRow_targeted. rewrite Hloc. fold r1.
  pose proof (fun ns => recomputedSlug_trimmed (JsString.trim s) new ns
                          (trim_headFree s)) as Htrim.
  unfold ReplaceRoute.updateSlugUrl. rewrite Hh. fold s.
  unfold ReplaceRoute.recomputedSlug in *.
  rewrite Hinc, Hidx in *. unfold JsString.substring0 in *. rewrite Hbase in *.
  specialize (Htrim _ eq_refl).
  destruct (JsString.eqb _ _) eqn:E; cbn [negb fst].
  - split; [done|]. by apply eqb_true in E.
  - rewrite cell_set_eq. split; [done|]. exact Htrim.
Qed.

(** Without [-salary] in the trimmed slug, or without a [slug_url]
    column, the row is left as the operations made it. *)
Lemma slug_rule_skipped headers ops r :
  let after := ReplaceRoute.applyOperations headers ops r [] 0 None in
  hasHeader headers slug_url = false
  \/ JsString.includes (JsString.trim (Row.cell after.1.1.1 slug_url)) salary
     = false ->
  out_row (ReplaceRoute.replaceRow headers ops true r) = after.1.1.1.
Proof.
  cbn zeta. intros Hwhy. rewrite replaceRow_targeted.
  unfold ReplaceRoute.updateSlugUrl.
  destruct ((ReplaceRoute.applyOperations headers ops r [] 0 None).2)
    as [[old new]|]; [|done].
  destruct (hasHeader headers slug_url); [|done].
  destruct Hwhy as [?|Hno]; [done|].
  unfold ReplaceRoute.recomputedSlug. by rewrite Hno.
Qed.

(** The same for a slug without leading white space whose only
    [-salary] is the one it ends with: the whole slug is the base. *)
Lemma slug_rule_plain headers ops r :
  let after := ReplaceRoute.applyOperations headers ops r [] 0 None in
  let s := Row.cell after.1.1.1 slug_url in
  forall old new,
    after.2 = Some (old, new) ->
    hasHeader headers slug_url = true ->
    JsString.endsWith s salary = true ->
    JsString.trim s = s ->
    JsString.indexOf s salary = Some (length s - 7)%nat ->
    Row.cell (out_row (ReplaceRoute.replaceRow headers ops true r)) slug_url
    = s ++ (if JsString.truthy (normalizeToKebabCase new)
            then [JsString.hyphen] ++ normalizeToKebabCase new else []).
Proof.
  cbn zeta. intros old new Hloc Hh Hends Htrim Hidx.
  destruct (slug_rule_applies headers ops r old new Hloc Hh Hends)
    as (idx & pre & Hidx' & Hbase & _ & Hfinal & _).
  cbn zeta in Hfinal. rewrite Htrim in *.
  assert (idx = (length (Row.cell
                   (ReplaceRoute.applyOperations headers ops r [] 0 None).1.1.1
                   slug_url) - 7)%nat) as -> by congruence.
  destruct (endsWith_inv _ _ Hends) as [p Hp].
  unfold JsString.substring0 in Hbase.
  rewrite take_ge in Hbase
    by (rewrite Hp, length_app; change (length salary) with 7%nat; lia).
  rewrite <- Hbase in Hfinal. rewrite Hfinal.
  destruct (JsString.truthy (normalizeToKebabCase new)).
  - destruct (JsString.eqb _ _) eqn:E; [|done]. by apply eqb_true in E.
  - rewrite app_nil_r. by destruct (JsString.eqb _ _).
Qed.

End SlugRule.

Section SlugRuleExample.
#[local] Existing Instance Latin1.runtime.
#[local] Existing Instance latin1_laws.

(** C2, as the code has it.  In the multi-field replace pathway, take
    a matched row in which an operation changed [location] (to [new],
    the value the row then holds), in a file that has a [slug_url]
    column, and let [s] be the [slug_url] value of the row after the
    operations.  When the trimmed [s] contains [-salary] (as it does
    when [s] ends with [-salary]), the slug is recomputed from the
    trimmed [s]: the part up to and including the first [-salary], with
    a hyphen and the normalized new location appended when that is
    non-empty, and the bare base when it is empty.  The result is stored
    in [slug_url] (when it equals the trimmed [s] the stored value stays
    [s]), so that the trimmed final value is always the recomputed slug.
    When the trimmed [s] contains no [-salary] the row is left as the
    operations made it.  Only for a slug without surrounding white
    space whose only [-salary] is its suffix is the result [s] itself
    with the hyphen and the normalized location appended, or [s] when
    that is empty.  In particular
    [{slug_url: "engineer-salary", location: "Old"}] with [location]
    replaced by "Sao Paulo" (a with tilde) ends with the slug
    [engineer-salary-sao-paulo]. *)
Theorem location_change_recomputes_slug :
  (forall (rt : JsRuntime) headers ops r old new,
     let after := ReplaceRoute.applyOperations headers ops r [] 0 None in
     let s := Row.cell after.1.1.1 slug_url in
     let cur := JsString.trim s in
     after.2 = Some (old, new) ->
     hasHeader headers slug_url = true ->
     Row.cell after.1.1.1 location = new
     /\ (JsString.endsWith s salary = true ->
         JsString.includes cur salary = true)
     /\ (JsString.includes cur salary = true ->
         exists idx pre,
           JsString.indexOf cur salary = Some idx
           /\ JsString.substring0 (idx + 7) cur = pre ++ salary
           /\ length pre = idx
           /\ let norm := normalizeToKebabCase new in
              let newSlug := if JsString.truthy norm
                             then (pre ++ salary) ++ [JsString.hyphen] ++ norm
                             else pre ++ salary in
              let final :=
                Row.cell (out_row (ReplaceRoute.replaceRow headers ops true r))
                         slug_url in
              final = (if JsString.eqb newSlug cur then s else newSlug)
              /\ JsString.trim final = newSlug)
     /\ (JsString.includes cur salary = false ->
         out_row (ReplaceRoute.replaceRow headers ops true r) = after.1.1.1))
  /\ (forall (rt : JsRuntime) headers ops r old new,
        let after := ReplaceRoute.applyOperations headers ops r [] 0 None in
        let s := Row.cell after.1.1.1 slug_url in
        after.2 = Some (old, new) ->
        hasHeader headers slug_url = true ->
        JsString.endsWith s salary = true ->
        JsString.trim s = s ->
        JsString.indexOf s salary = Some (length s - 7)%nat ->
        Row.cell (out_row (ReplaceRoute.replaceRow headers ops true r)) slug_url
        = s ++ (if JsString.truthy (normalizeToKebabCase new)
                then [JsString.hyphen] ++ normalizeToKebabCase new else []))
  /\ (exists st a,
        ReplaceRoute.POST (oneFile [engineerRow])
          (replaceRequest location saoPaulo) = Some st
        /\ saved st = [a]
        /\ art_rows a = [[(slug_url, str "engineer-salary-sao-paulo");
                          (location, saoPaulo)]]).
Proof.
  split; [|split].
  - intros rt headers ops r old new. cbn zeta. intros Hloc Hh.
    split; [by eapply applyOperations_location|]. split; [|split].
    + intros Hends. destruct (endsWith_salary_trim _ Hends) as [p Hcur].
      apply bool_decide_eq_true. rewrite Hcur.
      rewrite <- (app_nil_r salary) at 1. apply indexOf_app.
    + intros Hinc. exact (slug_rule_contains headers ops r old new Hloc Hh Hinc).
    + intros Hno. apply slug_rule_skipped. by right.
  - intros rt headers ops r old new. cbn zeta. intros Hloc Hh Hends Ht Hi.
    exact (slug_rule_plain headers ops r old new Hloc Hh Hends Ht Hi).
  - eexists _, _. split; [vm_compute; reflexivity|]. by split.
Qed.

(** C2, counterexample.  The rule is not "the value up to and including
    its suffix [-salary], plus the location".  A slug that ends with
    [-salary] and holds an earlier [-salary] is cut at the first one,
    and a slug with white space in front is stored trimmed: replacing
    [location] by "New York" turns [a-salary-b-salary] into
    [a-salary-new-york] and [ engineer-salary] into
    [engineer-salary-new-york]. *)
Lemma slug_rule_cuts_trimmed_slug_at_first_salary :
  (exists st a r',
     ReplaceRoute.POST
       (oneFile [[(slug_url, str "a-salary-b-salary"); (location, str "Boston")]])
       (replaceRequest location (str "New York")) = Some st
     /\ saved st = [a] /\ art_rows a = [r']
     /\ JsString.endsWith (str "a-salary-b-salary") salary = true
     /\ spec_recomputedSlug (str "a-salary-b-salary") (str "New York")
        = Some (str "a-salary-b-salary-new-york")
     /\ Row.get r' slug_url = Some (str "a-salary-new-york")
     /\ Row.get r' slug_url
        <> spec_recomputedSlug (str "a-salary-b-salary") (str "New York"))
  /\ (exists st a r',
        ReplaceRoute.POST
          (oneFile [[(slug_url, str " engineer-salary"); (location, str "Old")]])
          (replaceRequest location (str "New York")) = Some st
        /\ saved st = [a] /\ art_rows a = [r']
        /\ JsString.endsWith (str " engineer-salary") salary = true
        /\ spec_recomputedSlug (str " engineer-salary") (str "New York")
           = Some (str " engineer-salary-new-york")
        /\ Row.get r' slug_url = Some (str "engineer-salary-new-york")
        /\ Row.get r' slug_url
           <> spec_recomputedSlug (str " engineer-salary") (str "New York")).
Proof.
  split; (eexists _, _, _; split; [vm_compute; reflexivity|];
          split; [reflexivity|]; split; [reflexivity|];
          repeat split; try reflexivity; vm_compute; discriminate).
Qed.

(** The rule works on the trimmed slug and cuts at the first
    [-salary]: a previous location suffix is replaced, and what follows
    the first [-salary] is dropped even when the slug ends with a second
    one. *)
Example slug_rule_replaces_old_suffix :
  Row.cell (out_row (ReplaceRoute.replaceRow [slug_url; location]
                       [{| op_field := location; op_value := str "New York" |}]
                       true
                       [(slug_url, str "engineer-salary-boston");
                        (location, str "Boston")]))
           slug_url
  = str "engineer-salary-new-york".
Proof. reflexivity. Qed.

Example slug_rule_first_occurrence :
  Row.cell (out_row (ReplaceRoute.replaceRow [slug_url; location]
                       [{| op_field := location; op_value := str "New York" |}]
                       true
                       [(slug_url, str "a-salary-b-salary");
                        (location, str "Boston")]))
           slug_url
  = str "a-salary-new-york".
Proof. reflexivity. Qed.

Example slug_rule_empty_location :
  Row.cell (out_row (ReplaceRoute.replaceRow [slug_url; location]
                       [{| op_field := location; op_value := [] |}]
                       true
                       [(slug_url, str "engineer-salary");
                        (location, str "Boston")]))
           slug_url
  = str "engineer-salary".
Proof. reflexivity. Qed.

Lemma location_change_recomputes_slug_witness :
  exists idx pre,
    JsString.indexOf (str "a-salary-b-salary") salary = Some idx
    /\ JsString.substring0 (idx + 7) (str "a-salary-b-salary") = pre ++ salary
    /\ length pre = idx
    /\ Row.cell (out_row (ReplaceRoute.replaceRow [slug_url; location]
                            [{| op_field := location; op_value := str "New York" |}]
                            true
                            [(slug_url, str " a-salary-b-salary");
                             (location, str "Old")]))
                slug_url
       = str "a-salary-new-york".
Proof.
  destruct (proj1 location_change_recomputes_slug Latin1.runtime
              [slug_url; location]
              [{| op_field := location; op_value := str "New York" |}]
              [(slug_url, str " a-salary-b-salary"); (location, str "Old")]
              (str "Old") (str "New York") eq_refl eq_refl)
    as (_ & _ & Hrule & _).
  destruct (Hrule eq_refl) as (idx & pre & H1 & H2 & H3 & H4 & _).
  exists idx, pre. split; [exact H1|]. split; [exact H2|]. split; [exact H3|].
  vm_compute in H1. injection H1 as <-.
  assert (pre = str "a") as ->
    by (apply (app_inv_tail salary); rewrite <- H2; reflexivity).
  rewrite H4. reflexivity.
Defined.

End SlugRuleExample.

(** ** The literal "empty" in the multi-condition replace *)

Section EmptyLiteral.
Context `{!JsRuntime}.

Lemma updateSlugUrl_blank_slug headers r events n loc :
  Row.cell r slug_url = [] ->
  (ReplaceRoute.updateSlugUrl headers r events n loc).1.1 = r.
Proof.
  intros Hs. unfold ReplaceRoute.updateSlugUrl.
  destruct loc as [[old new]|]; [|done].
  destruct (hasHeader headers slug_url); [|done].
  by rewrite Hs.
Qed.

(** A key of a row stays one under the operations and the slug rule. *)
Lemma set_keeps_key r f v g :
  is_Some (Row.get r g) -> is_Some (Row.get (Row.set r f v) g).
Proof.
  intros Hg. destruct (decide (f = g)) as [<-|Hne].
  - rewrite get_set_eq. by eexists.
  - by rewrite get_set_ne.
Qed.

Lemma applyOperations_keeps_key headers ops r events n loc g :
  is_Some (Row.get r g) ->
  is_Some (Row.get (ReplaceRoute.applyOperations headers ops r events n loc).1.1.1 g).
Proof.
  revert r events n loc. induction ops as [|op ops IH]; intros r events n loc Hg;
    [done|].
  cbn [ReplaceRoute.applyOperations].
  destruct (negb (hasHeader headers (op_field op))); [by apply IH|].
  destruct (negb (JsString.eqb _ _)); [|by apply IH].
  by apply IH, set_keeps_key.
Qed.

Lemma updateSlugUrl_keeps_key headers r events n loc g :
  is_Some (Row.get r g) ->
  is_Some (Row.get (ReplaceRoute.updateSlugUrl headers r events n loc).1.1 g).
Proof.
  intros Hg. unfold ReplaceRoute.updateSlugUrl.
  destruct loc as [[old new]|]; [|done].
  destruct (hasHeader headers slug_url); [|done].
  destruct (ReplaceRoute.recomputedSlug _ _); [|done].
  destruct (negb _); [|done]. cbn. by apply set_keeps_key.
Qed.

(** C8.  In the multi-condition replace path, a replace condition whose
    value, trimmed and lower-cased, is the literal [empty] is sent as an
    operation with the empty string for value, and (being the last
    condition on its field) leaves the target field of every targeted
    row holding the empty string, not the text [empty]: the row keeps
    the column, with the value [""], and the columns that no operation
    names (other than [slug_url]) are as they were. *)
Theorem empty_literal_clears_field
    (conds pre post : list ReplaceCondition) (c : ReplaceCondition)
    (headers : list jsstring) (r : row) :
  CSVProcessorPanel.activeReplaceConditions conds = pre ++ c :: post ->
  toLowerCase (JsString.trim (rc_value c)) = CSVProcessorPanel.emptyLiteral ->
  Forall (fun c' => rc_field c' <> rc_field c) post ->
  hasHeader headers (rc_field c) = true ->
  let ops := CSVProcessorPanel.buildReplaceOperations
               (CSVProcessorPanel.activeReplaceConditions conds) in
  (forall hasSearchResults fileResults mode req,
     CSVProcessorPanel.startReplace conds hasSearchResults fileResults mode
     = Some req ->
     replaceOperations req = Some ops)
  /\ ops !! length pre = Some {| op_field := rc_field c; op_value := [] |}
  /\ Row.cell (out_row (ReplaceRoute.replaceRow headers ops true r)) (rc_field c)
     = []
  /\ Row.cell (out_row (ReplaceRoute.replaceRow headers ops true r)) (rc_field c)
     <> CSVProcessorPanel.emptyLiteral
  /\ (is_Some (Row.get r (rc_field c)) ->
      Row.get (out_row (ReplaceRoute.replaceRow headers ops true r)) (rc_field c)
      = Some [])
  /\ (forall g, g ∉ List.map op_field ops -> g <> slug_url ->
        Row.get (out_row (ReplaceRoute.replaceRow headers ops true r)) g
        = Row.get r g).
Proof.
  intros Hact Hlit Hpost Hh. cbn zeta.
  assert (CSVProcessorPanel.buildReplaceOperations
            (CSVProcessorPanel.activeReplaceConditions conds)
          = CSVProcessorPanel.buildReplaceOperations pre
            ++ {| op_field := rc_field c; op_value := [] |}
            :: CSVProcessorPanel.buildReplaceOperations post) as Hops.
  { rewrite Hact. unfold CSVProcessorPanel.buildReplaceOperations.
    rewrite map_app. cbn [List.map]. do 3 f_equal.
    unfold CSVProcessorPanel.actualValue. by rewrite Hlit, eqb_refl. }
  assert (Row.cell (out_row (ReplaceRoute.replaceRow headers
                      (CSVProcessorPanel.buildReplaceOperations
                         (CSVProcessorPanel.activeReplaceConditions conds))
                      true r)) (rc_field c) = []) as Hcell.
  { rewrite replaceRow_targeted, Hops.
    set (op := {| op_field := rc_field c; op_value := [] |}).
    pose proof (applyOperations_last headers
                  (CSVProcessorPanel.buildReplaceOperations pre) op
                  (CSVProcessorPanel.buildReplaceOperations post)
                  r [] 0%nat None Hh) as Hlast.
    cbn [op op_field op_value] in Hlast.
    assert (Forall (fun o => op_field o <> rc_field c)
              (CSVProcessorPanel.buildReplaceOperations post)) as Hpost'.
    { unfold CSVProcessorPanel.buildReplaceOperations.
      apply Forall_forall. intros o. rewrite list_elem_of_In, in_map_iff.
      intros (c' & <- & Hin). cbn. rewrite Forall_forall in Hpost.
      apply Hpost. by apply list_elem_of_In. }
    specialize (Hlast Hpost').
    destruct (decide (rc_field c = slug_url)) as [Heq|Hne].
    - rewrite Heq in *. by rewrite updateSlugUrl_blank_slug.
    - unfold Row.cell. rewrite updateSlugUrl_untouched by done. exact Hlast. }
  split; [|split; [|split; [|split; [|split]]]].
  - intros hasSearchResults fileResults mode req.
    unfold CSVProcessorPanel.startReplace.
    destruct (_ =? _)%nat; [done|]. destruct (_ || _); [done|].
    destruct (_ =? _)%nat; [done|]. by intros [= <-].
  - rewrite Hops. unfold CSVProcessorPanel.buildReplaceOperations.
    rewrite lookup_app_r by (by rewrite length_map).
    by rewrite length_map, Nat.sub_diag.
  - exact Hcell.
  - by rewrite Hcell.
  - intros Hkey.
    assert (is_Some (Row.get (out_row (ReplaceRoute.replaceRow headers
                       (CSVProcessorPanel.buildReplaceOperations
                          (CSVProcessorPanel.activeReplaceConditions conds))
                       true r)) (rc_field c))) as [v Hv].
    { rewrite replaceRow_targeted.
      by apply updateSlugUrl_keeps_key, applyOperations_keeps_key. }
    unfold Row.cell in Hcell. rewrite Hv in Hcell. cbn in Hcell.
    by rewrite Hv, Hcell.
  - intros g Hg Hslug. by apply replaceRow_frame.
Qed.

End EmptyLiteral.

Section EmptyLiteralExample.
#[local] Existing Instance Latin1.runtime.
#[local] Existing Instance latin1_laws.

Lemma empty_literal_clears_field_witness :
  let conds := [{| rc_id := str "1"; rc_field := note; rc_value := str " Empty " |}] in
  let ops := CSVProcessorPanel.buildReplaceOperations
               (CSVProcessorPanel.activeReplaceConditions conds) in
  ops !! 0%nat = Some {| op_field := note; op_value := [] |}
  /\ Row.cell (out_row (ReplaceRoute.replaceRow [title; note] ops true rowPlain))
              note = []
  /\ Row.get (out_row (ReplaceRoute.replaceRow [title; note] ops true rowPlain))
             note = Some []
  /\ Row.get (out_row (ReplaceRoute.replaceRow [title; note] ops true rowPlain))
             title = Some (str "abc").
Proof.
  cbn zeta.
  destruct (@empty_literal_clears_field Latin1.runtime
              [{| rc_id := str "1"; rc_field := note; rc_value := str " Empty " |}]
              [] [] {| rc_id := str "1"; rc_field := note; rc_value := str " Empty " |}
              [title; note] rowPlain eq_refl eq_refl (List.Forall_nil _) eq_refl)
    as (_ & H1 & H2 & _ & H4 & H5).
  split; [exact H1|]. split; [exact H2|]. split.
  - apply H4. by eexists.
  - rewrite (H5 title); [reflexivity| |discriminate].
    refine (proj1 (bool_decide_eq_false _) _). reflexivity.
Defined.

Example empty_literal_end_to_end :
  exists st a,
    ReplaceRoute.POST (oneFile [rowPlain])
      {| searchResults := [firstRow];
         rr_replaceTargetField := None; rr_replaceValue := None;
         replaceOperations :=
           Some (CSVProcessorPanel.buildReplaceOperations
                   [{| rc_id := str "1"; rc_field := note; rc_value := str "EMPTY" |}]);
         rr_saveMode := Some local |} = Some st
    /\ saved st = [a]
    /\ art_rows a = [[(title, str "abc"); (note, [])]].
Proof. eexists _, _. split; [vm_compute; reflexivity|]. by split. Qed.

(** The mapping is the panel's: an operation posted to the endpoint
    with the value [empty] itself is written as given. *)
Example endpoint_writes_value_as_given :
  exists st a,
    ReplaceRoute.POST (oneFile [rowPlain]) (replaceRequest note (str "empty"))
    = Some st
    /\ saved st = [a]
    /\ art_rows a = [[(title, str "abc"); (note, str "empty")]].
Proof. eexists _, _. split; [vm_compute; reflexivity|]. by split. Qed.

End EmptyLiteralExample.

(** ** The fix-slug-urls endpoint is idempotent *)

Section FixSlugIdempotent.
Context `{!JsRuntime}.

Lemma truthy_nonempty s : JsString.truthy s = true -> s <> [].
Proof. by destruct s. Qed.

(** The slug a fix writes is already trimmed and carries the expected
    suffix. *)
Lemma fixed_slug_shape cur norm :
  headFree JsString.isWhiteSpace cur ->
  JsString.endsWith cur salary = true ->
  norm <> [] ->
  Forall (fun c => JsString.isWhiteSpace c = false) norm ->
  JsString.trim (cur ++ [JsString.hyphen] ++ norm) = cur ++ [JsString.hyphen] ++ norm
  /\ JsString.endsWith (cur ++ [JsString.hyphen] ++ norm)
       (salary ++ [JsString.hyphen] ++ norm) = true.
Proof.
  intros Hhead [pre ->]%endsWith_inv Hne Hns. split.
  - apply trim_fixed.
    + apply headFree_app; [by destruct pre | done].
    + rewrite (app_assoc _ [JsString.hyphen]).
      by apply dropWhileEnd_app_free.
  - rewrite <- (app_assoc pre). apply endsWith_app.
Qed.

(** Fixing a fixed row changes nothing. *)
Lemma fixRow_idem targeted r :
  FixSlugUrlsRoute.fixRow targeted (out_row (FixSlugUrlsRoute.fixRow targeted r))
  = {| out_row := out_row (FixSlugUrlsRoute.fixRow targeted r);
       out_pushed := true; out_matched := false;
       out_events := []; out_replacements := 0 |}.
Proof.
  destruct targeted; [|done].
  unfold FixSlugUrlsRoute.fixRow at 2 3.
  set (cur := JsString.trim (Row.cell r slug_url)).
  set (norm := normalizeToKebabCase (JsString.trim (Row.cell r location))).
  destruct (JsString.endsWith cur salary) eqn:Hends.
  2: { cbn [out_row]. unfold FixSlugUrlsRoute.fixRow. fold cur. by rewrite Hends. }
  destruct (JsString.truthy norm) eqn:Hn.
  2: { cbn [out_row]. unfold FixSlugUrlsRoute.fixRow. fold cur norm.
       by rewrite Hends, Hn. }
  destruct (JsString.endsWith cur (salary ++ [JsString.hyphen] ++ norm)) eqn:Hexp.
  { cbn [negb out_row]. unfold FixSlugUrlsRoute.fixRow. fold cur norm.
    by rewrite Hends, Hn, Hexp. }
  cbn [negb out_row].
  destruct (fixed_slug_shape cur norm (trim_headFree _) Hends
              (truthy_nonempty _ Hn) (normalize_no_space _)) as [Htrim Hsuf].
  unfold FixSlugUrlsRoute.fixRow.
  rewrite cell_set_eq, cell_set_ne by done. fold norm.
  rewrite Htrim, Hn, Hsuf. cbn [negb].
  by destruct (JsString.endsWith (cur ++ [JsString.hyphen] ++ norm) salary).
Qed.

Lemma fixedRows_again result i rows :
  outcomesFrom (fun i r => FixSlugUrlsRoute.fixRow (inRowSet result i) r) i
    (List.map out_row
       (outcomesFrom (fun i r => FixSlugUrlsRoute.fixRow (inRowSet result i) r)
                     i rows))
  = List.map (fun o => {| out_row := out_row o; out_pushed := true;
                          out_matched := false; out_events := [];
                          out_replacements := 0 |})
      (outcomesFrom (fun i r => FixSlugUrlsRoute.fixRow (inRowSet result i) r)
                    i rows).
Proof.
  revert i. induction rows as [|r rows IH]; intros i; [done|].
  cbn [outcomesFrom List.map]. by rewrite fixRow_idem, IH.
Qed.

Lemma headersOf_fixedRows result rows :
  headersOf (fixedRows result rows) = headersOf rows.
Proof.
  destruct rows as [|r rows]; [done|].
  unfold fixedRows. cbn [outcomesFrom List.map headersOf].
  unfold FixSlugUrlsRoute.fixRow.
  repeat match goal with |- context [if ?b then _ else _] => destruct b eqn:? end;
    try done.
  cbn [out_row]. apply keys_set, cell_nonempty_get.
  intros Hnil. rewrite Hnil in *. discriminate.
Qed.

(** C5.  The fix-slug-urls operation is idempotent.  The rows a run
    produces ([fixedRows], the content of the file it saves) are left
    unchanged, row by row, by a second run with the same search
    results: the second run counts no fix, saves nothing and does not
    count the file as processed, so no slug gets its suffix twice. *)
Theorem fix_slug_urls_idempotent (result : SearchResult) (rows : list row) :
  fixedRows result (fixedRows result rows) = fixedRows result rows
  /\ (forall w mode file st a,
        download w file = Parsed rows ->
        saved (fst (FixSlugUrlsRoute.processFile w mode (file, result) st))
        = saved st ++ [a] ->
        art_rows a = fixedRows result rows)
  /\ (forall w mode file st,
        download w file = Parsed (fixedRows result rows) ->
        let st' := fst (FixSlugUrlsRoute.processFile w mode (file, result) st) in
        saved st' = saved st
        /\ totalReplacements (stats st') = totalReplacements (stats st)
        /\ processedFiles (stats st') = processedFiles (stats st)).
Proof.
  assert (replacementsOf
            (outcomesFrom (fun i r => FixSlugUrlsRoute.fixRow (inRowSet result i) r)
                          0 (fixedRows result rows)) = 0%nat) as Hzero.
  { unfold fixedRows. rewrite fixedRows_again.
    apply replacementsOf_zero, Forall_forall. intros o.
    rewrite list_elem_of_In, in_map_iff. by intros (? & <- & _). }
  split; [|split].
  - unfold fixedRows at 1 2. rewrite fixedRows_again.
    unfold fixedRows. rewrite map_map. by apply map_ext.
  - intros w mode file st a Hdl.
    rewrite (fix_processFile_parsed _ _ _ _ _ _ Hdl). cbn zeta.
    destruct (_ || _); cbn [saved].
    { intros Hs. apply (f_equal length) in Hs.
      rewrite length_app in Hs. cbn in Hs. lia. }
    destruct (0 <? _)%nat; [destruct (storeOk w file)|]; cbn [saved].
    + by intros [= <-]%app_inv_head.
    + intros Hs. apply (f_equal length) in Hs.
      rewrite length_app in Hs. cbn in Hs. lia.
    + intros Hs. apply (f_equal length) in Hs.
      rewrite length_app in Hs. cbn in Hs. lia.
  - intros w mode file st Hdl. cbn zeta.
    rewrite (fix_processFile_parsed _ _ _ _ _ _ Hdl). cbn zeta.
    rewrite Hzero. destruct (_ || _); cbn; auto with lia.
Qed.

End FixSlugIdempotent.

Section FixSlugExample.
#[local] Existing Instance Latin1.runtime.
#[local] Existing Instance latin1_laws.

Example fix_slug_first_run :
  fixedRows firstRow [[(slug_url, str " dev-salary"); (location, str "New York")]]
  = [[(slug_url, str "dev-salary-new-york"); (location, str "New York")]].
Proof. reflexivity. Qed.

Lemma fix_slug_urls_idempotent_witness :
  let rows := [[(slug_url, str " dev-salary"); (location, str "New York")]] in
  let st' := fst (FixSlugUrlsRoute.processFile
                    (oneFile (fixedRows firstRow rows)) overwrite
                    (aCsv, firstRow) (initState 1)) in
  saved st' = []
  /\ totalReplacements (stats st') = 0%nat
  /\ processedFiles (stats st') = 0%nat.
Proof.
  exact (proj2 (proj2 (fix_slug_urls_idempotent firstRow
                         [[(slug_url, str " dev-salary");
                           (location, str "New York")]]))
           (oneFile (fixedRows firstRow
                       [[(slug_url, str " dev-salary");
                         (location, str "New York")]]))
           overwrite aCsv (initState 1) eq_refl).
Defined.

End FixSlugExample.

(** * Further properties of the endpoints *)

(** ** The advanced evaluator: AND, OR and failing patterns *)

Section AdvancedEvaluator.
Context `{!JsRuntime}.

Lemma andLoop_spec headers r ms acc :
  ProcessRoute.andLoop headers r ms acc
  = if forallb (accepts headers r) ms
    then (true, acc ++ List.map (fun m => cond_field m.1) ms)
    else (false, []).
Proof.
  revert acc. induction ms as [|[c t] ms IH]; intros acc.
  - cbn. by rewrite app_nil_r.
  - cbn [ProcessRoute.andLoop forallb]. unfold accepts at 1. cbn [fst snd].
    destruct (hasHeader headers (cond_field c)); [|done].
    destruct (t (Row.cell r (cond_field c))); [|done].
    cbn [negb andb]. rewrite IH.
    destruct (forallb _ ms); [|done]. cbn [List.map fst]. by rewrite <- app_assoc.
Qed.

Lemma orLoop_spec headers r ms any acc :
  ProcessRoute.orLoop headers r ms any acc
  = let found := any || existsb (accepts headers r) ms in
    (found,
     if found
     then acc ++ List.map (fun m => cond_field m.1)
                          (List.filter (accepts headers r) ms)
     else []).
Proof.
  revert any acc. induction ms as [|[c t] ms IH]; intros any acc.
  - cbn. rewrite orb_false_r. destruct any; [by rewrite app_nil_r | done].
  - cbn [ProcessRoute.orLoop existsb List.filter].
    assert (accepts headers r (c, t)
            = hasHeader headers (cond_field c) && t (Row.cell r (cond_field c)))
      as -> by reflexivity.
    destruct (hasHeader headers (cond_field c)); cbn [negb andb].
    + destruct (t (Row.cell r (cond_field c))); rewrite IH; cbn zeta.
      * rewrite orb_true_r. cbn [orb List.map fst]. by rewrite <- app_assoc.
      * by rewrite orb_false_l.
    + rewrite IH. cbn zeta. by rewrite orb_false_l.
Qed.

(** The matchers built for a list of conditions agree with
    [conditionHolds] on the conditions. *)
Lemma matchers_agree headers r cs conds ms :
  mapM (fun c => pair c <$> ProcessRoute.buildFieldMatcher c cs) conds = Some ms ->
  forallb (accepts headers r) ms = forallb (conditionHolds headers r cs) conds
  /\ existsb (accepts headers r) ms = existsb (conditionHolds headers r cs) conds
  /\ List.map (fun m => cond_field m.1) ms = List.map cond_field conds
  /\ List.map (fun m => cond_field m.1) (List.filter (accepts headers r) ms)
     = List.map cond_field (List.filter (conditionHolds headers r cs) conds).
Proof.
  rewrite mapM_Some. induction 1 as [|c m conds ms Hm _ IH]; [done|].
  destruct IH as (IH1 & IH2 & IH3 & IH4).
  assert (accepts headers r m = conditionHolds headers r cs c
          /\ cond_field m.1 = cond_field c) as [Ha Hf].
  { unfold accepts, conditionHolds.
    destruct (ProcessRoute.buildFieldMatcher c cs); [|done].
    cbn in Hm. by injection Hm as <-. }
  cbn [forallb existsb List.map List.filter]. rewrite Ha, IH1, IH2, IH3, Hf.
  repeat split; try done.
  destruct (conditionHolds headers r cs c); cbn [List.map]; by rewrite ?Hf, IH4.
Qed.

Lemma rowMatchesAdvanced_unfold r headers adv :
  ProcessRoute.rowMatchesAdvanced r headers adv
  = match List.filter ProcessRoute.isActive (conditions adv) with
    | [] => Some (true, [])
    | active =>
        ms ← mapM (fun c => pair c <$> ProcessRoute.buildFieldMatcher c
                                         (adv_caseSensitive adv)) active;
        Some (match default AND (logic adv) with
              | AND => ProcessRoute.andLoop headers r ms []
              | OR => ProcessRoute.orLoop headers r ms false []
              end)
    end.
Proof.
  unfold ProcessRoute.rowMatchesAdvanced.
  destruct (List.filter _ _) as [|c l]; [done|]. cbn [length Nat.eqb].
  destruct (mapM _ _); [|done]. cbn. by destruct (default AND (logic adv)).
Qed.

(** Matchers that can be built are built. *)
Lemma matchers_built cs conds :
  Forall (fun c => is_Some (ProcessRoute.buildFieldMatcher c cs)) conds ->
  exists ms,
    mapM (fun c => pair c <$> ProcessRoute.buildFieldMatcher c cs) conds = Some ms.
Proof.
  intros Hbuilt.
  destruct (mapM (fun c => pair c <$> ProcessRoute.buildFieldMatcher c cs) conds)
    as [ms|] eqn:Hms; [by eexists|].
  exfalso. apply mapM_None in Hms. apply Exists_exists in Hms as (c & Hc & Hn).
  rewrite Forall_forall in Hbuilt. destruct (Hbuilt c Hc) as [t Ht].
  rewrite Ht in Hn. done.
Qed.

(** The evaluator on its non-blank conditions, once their matchers are
    built. *)
Lemma rowMatchesAdvanced_with_matchers r headers adv ms :
  let active := List.filter ProcessRoute.isActive (conditions adv) in
  let holds := conditionHolds headers r (adv_caseSensitive adv) in
  active <> [] ->
  mapM (fun c => pair c <$> ProcessRoute.buildFieldMatcher c
                              (adv_caseSensitive adv)) active = Some ms ->
  ProcessRoute.rowMatchesAdvanced r headers adv
  = Some (match default AND (logic adv) with
          | AND => (forallb holds active,
                    if forallb holds active
                    then List.map cond_field active else [])
          | OR => (existsb holds active,
                   if existsb holds active
                   then List.map cond_field (List.filter holds active) else [])
          end).
Proof.
  cbn zeta. intros Hne Hms. rewrite rowMatchesAdvanced_unfold.
  destruct (List.filter ProcessRoute.isActive (conditions adv)) as [|c0 l] eqn:E;
    [done|].
  rewrite Hms.
  destruct (matchers_agree headers r _ _ _ Hms) as (H1 & H2 & H3 & H4).
  cbn [mbind option_bind]. f_equal.
  destruct (default AND (logic adv)).
  - rewrite andLoop_spec, H1. cbn [app]. rewrite H3.
    by destruct (forallb _ (c0 :: l)).
  - rewrite orLoop_spec. cbn zeta. cbn [orb app]. by rewrite H2, H4.
Qed.

(** X1.  With at least one non-blank condition, all of whose matchers are
    built: under AND the row matches exactly when every non-blank
    condition holds, and the matched fields are then the fields of all
    of them, in order; under OR it matches exactly when one holds, and
    the matched fields are those of the conditions that hold. *)
Theorem advanced_and_or (r : row) (headers : list jsstring)
    (adv : AdvancedSearchConfig) :
  let active := List.filter ProcessRoute.isActive (conditions adv) in
  let holds := conditionHolds headers r (adv_caseSensitive adv) in
  active <> [] ->
  Forall (fun c => is_Some (ProcessRoute.buildFieldMatcher c
                              (adv_caseSensitive adv))) active ->
  ProcessRoute.rowMatchesAdvanced r headers adv
  = Some (match default AND (logic adv) with
          | AND => (forallb holds active,
                    if forallb holds active
                    then List.map cond_field active else [])
          | OR => (existsb holds active,
                   if existsb holds active
                   then List.map cond_field (List.filter holds active) else [])
          end).
Proof.
  cbn zeta. intros Hne Hbuilt.
  destruct (matchers_built _ _ Hbuilt) as [ms Hms].
  exact (rowMatchesAdvanced_with_matchers r headers adv ms Hne Hms).
Qed.

(** X2.  A row that matches under AND matches under OR, for the same
    conditions and case sensitivity. *)
Theorem and_match_is_or_match (r : row) (headers : list jsstring)
    (conds : list FieldSearchCondition) (cs : bool) (fs : list jsstring) :
  ProcessRoute.rowMatchesAdvanced r headers
    {| conditions := conds; logic := Some AND; adv_caseSensitive := cs |}
  = Some (true, fs) ->
  exists fs',
    ProcessRoute.rowMatchesAdvanced r headers
      {| conditions := conds; logic := Some OR; adv_caseSensitive := cs |}
    = Some (true, fs').
Proof.
  rewrite !rowMatchesAdvanced_unfold. cbn [conditions logic adv_caseSensitive default].
  destruct (List.filter ProcessRoute.isActive conds) as [|c0 l]; [by eexists|].
  destruct (mapM _ (c0 :: l)) as [ms|] eqn:Hms; [|done].
  cbn [mbind option_bind]. rewrite andLoop_spec, orLoop_spec. cbn zeta.
  destruct (forallb (accepts headers r) ms) eqn:Hall; [|done]. intros _.
  assert (existsb (accepts headers r) ms = true) as ->; [|by eexists].
  destruct ms as [|m ms].
  - apply mapM_Some in Hms. by inversion Hms.
  - cbn in Hall |- *. apply andb_true_iff in Hall as [-> _]. done.
Qed.

(** Matchers that are built could be built. *)
Lemma matchers_built_inv cs conds ms :
  mapM (fun c => pair c <$> ProcessRoute.buildFieldMatcher c cs) conds = Some ms ->
  Forall (fun c => is_Some (ProcessRoute.buildFieldMatcher c cs)) conds.
Proof.
  rewrite mapM_Some. induction 1 as [|c m conds ms Hm _ IH]; constructor; [|done].
  destruct (ProcessRoute.buildFieldMatcher c cs); [by eexists | done].
Qed.

(** X3.  Under OR, when there is a non-blank condition and every non-blank
    condition names a column the file does not have, no row is reported
    as matching: the evaluator returns no match and no matched field
    when the matchers of all non-blank conditions can be built, and
    throws when one of them cannot (a regex condition whose pattern does
    not compile; the matchers are built before the headers are looked
    at). *)
Theorem or_all_fields_missing (r : row) (headers : list jsstring)
    (conds : list FieldSearchCondition) (cs : bool) :
  let active := List.filter ProcessRoute.isActive conds in
  let result :=
    ProcessRoute.rowMatchesAdvanced r headers
      {| conditions := conds; logic := Some OR; adv_caseSensitive := cs |} in
  active <> [] ->
  Forall (fun c => cond_field c ∉ headers) active ->
  (Forall (fun c => is_Some (ProcessRoute.buildFieldMatcher c cs)) active ->
   result = Some (false, []))
  /\ (~ Forall (fun c => is_Some (ProcessRoute.buildFieldMatcher c cs)) active ->
      result = None)
  /\ (forall fs, result <> Some (true, fs)).
Proof.
  cbn zeta. intros Hne Hmiss.
  destruct (mapM (fun c => pair c <$> ProcessRoute.buildFieldMatcher c cs)
              (List.filter ProcessRoute.isActive conds)) as [ms|] eqn:Hms.
  - assert (ProcessRoute.rowMatchesAdvanced r headers
              {| conditions := conds; logic := Some OR; adv_caseSensitive := cs |}
            = Some (false, [])) as ->.
    { rewrite (rowMatchesAdvanced_with_matchers r headers
                 {| conditions := conds; logic := Some OR;
                    adv_caseSensitive := cs |} ms Hne Hms).
      cbn [conditions logic adv_caseSensitive default].
      assert (existsb (conditionHolds headers r cs)
                (List.filter ProcessRoute.isActive conds) = false) as ->; [|done].
      apply not_true_iff_false. rewrite existsb_exists. intros (c & Hc & Hh).
      rewrite Forall_forall in Hmiss. apply list_elem_of_In in Hc.
      specialize (Hmiss c Hc). unfold conditionHolds in Hh.
      destruct (ProcessRoute.buildFieldMatcher c cs); [|done].
      apply andb_true_iff in Hh as [Hh _]. unfold hasHeader in Hh.
      by apply bool_decide_eq_true in Hh. }
    split; [done|]. split; [|done].
    intros Hnot. destruct Hnot. by eapply matchers_built_inv.
  - assert (ProcessRoute.rowMatchesAdvanced r headers
              {| conditions := conds; logic := Some OR; adv_caseSensitive := cs |}
            = None) as ->.
    { rewrite rowMatchesAdvanced_unfold.
      cbn [conditions logic adv_caseSensitive].
      destruct (List.filter ProcessRoute.isActive conds) as [|c0 l]; [done|].
      by rewrite Hms. }
    split; [|done]. intros Hbuilt.
    destruct (matchers_built _ _ Hbuilt) as [ms Hms']. congruence.
Qed.

Lemma buildFieldMatcher_None c cs :
  ProcessRoute.buildFieldMatcher c cs = None
  <-> cond_mode c = Some regex /\ RegExp (cond_value c) (negb cs) = None.
Proof.
  unfold ProcessRoute.buildFieldMatcher.
  destruct (cond_mode c) as [[]|]; cbn; split; try done;
    try (by intros [? _]); try (by intros [_ ?]); by intros ?.
Qed.

(** X4.  The evaluator throws exactly when one of the non-blank conditions is
    a regex condition whose pattern does not compile, whatever the
    logic, the row and the other conditions. *)
Theorem advanced_throws_iff (r : row) (headers : list jsstring)
    (adv : AdvancedSearchConfig) :
  ProcessRoute.rowMatchesAdvanced r headers adv = None
  <-> exists c, c ∈ conditions adv
        /\ ProcessRoute.isActive c = true
        /\ cond_mode c = Some regex
        /\ RegExp (cond_value c) (negb (adv_caseSensitive adv)) = None.
Proof.
  rewrite rowMatchesAdvanced_unfold.
  assert (forall c, c ∈ List.filter ProcessRoute.isActive (conditions adv)
            <-> c ∈ conditions adv /\ ProcessRoute.isActive c = true) as Hin.
  { intros c. by rewrite !list_elem_of_In, filter_In. }
  destruct (List.filter ProcessRoute.isActive (conditions adv)) as [|c0 l] eqn:E.
  - split; [done|]. intros (c & Hc & Ha & _).
    assert (c ∈ @nil FieldSearchCondition) as Hn by (apply Hin; done).
    by apply elem_of_nil in Hn.
  - destruct (mapM _ (c0 :: l)) as [ms|] eqn:Hms; cbn [mbind option_bind].
    + split; [done|]. intros (c & Hc & Ha & Hm & Hre).
      apply mapM_Some in Hms.
      assert (c ∈ c0 :: l) as Hc' by (apply Hin; done).
      apply list_elem_of_lookup in Hc' as [i Hi].
      destruct (Forall2_lookup_l _ _ _ _ _ Hms Hi) as (m & _ & Hb).
      assert (ProcessRoute.buildFieldMatcher c (adv_caseSensitive adv) = None) as Hn
        by (apply buildFieldMatcher_None; done).
      rewrite Hn in Hb. done.
    + split; [|done]. intros _. apply mapM_None in Hms.
      apply Exists_exists in Hms as (c & Hc & Hn).
      apply Hin in Hc as [Hc Ha]. exists c. split; [done|]. split; [done|].
      apply buildFieldMatcher_None.
      by destruct (ProcessRoute.buildFieldMatcher c (adv_caseSensitive adv)).
Qed.

Lemma startsWith_refl s : JsString.startsWith s s = true.
Proof. rewrite <- (app_nil_r s) at 1. apply startsWith_app. Qed.

Lemma endsWith_refl s : JsString.endsWith s s = true.
Proof. apply (endsWith_app [] s). Qed.

Lemma includes_refl s : JsString.includes s s = true.
Proof. apply (includes_suffix [] s). Qed.

(** X5.  A cell accepted in mode [equals] is accepted, for the same value
    and case sensitivity, in the modes [startsWith], [endsWith] and
    [contains] (also when the mode is absent). *)
Theorem equals_implies_other_modes (field value raw : jsstring) (cs : bool)
    (test : jsstring -> bool) :
  ProcessRoute.buildFieldMatcher
    {| cond_field := field; cond_value := value; cond_mode := Some equals |} cs
  = Some test ->
  test raw = true ->
  forall mode, mode <> Some regex ->
    exists test',
      ProcessRoute.buildFieldMatcher
        {| cond_field := field; cond_value := value; cond_mode := mode |} cs
      = Some test'
      /\ test' raw = true.
Proof.
  unfold ProcessRoute.buildFieldMatcher. cbn. intros [= <-] Heq mode Hmode.
  apply eqb_true in Heq.
  destruct mode as [[]|]; try done; cbn; eexists; (split; [reflexivity|]);
    cbn; rewrite Heq;
    auto using eqb_refl, startsWith_refl, endsWith_refl, includes_refl.
Qed.

End AdvancedEvaluator.

(** ** File loops: what a file may do to the counters *)

Section FileSteps.
Context `{!JsRuntime}.

Lemma countRows_nil s : countRows [] s = s.
Proof. destruct s. unfold countRows. cbn. f_equal; lia. Qed.

Lemma countRows_cons o outs s :
  countRows (o :: outs) s = countRows outs (countRow o s).
Proof.
  destruct s. unfold countRows, countRow. cbn.
  change (foldr (fun o n => ((if out_matched o then 1 else 0) + n)%nat) 0%nat ?l)
    with (matchesOf l).
  change (foldr (fun o n => (out_replacements o + n)%nat) 0%nat ?l)
    with (replacementsOf l).
  f_equal; lia.
Qed.

Lemma matchesOf_le outs : (matchesOf outs <= length outs)%nat.
Proof.
  induction outs as [|o outs IH]; [done|].
  change (matchesOf (o :: outs))
    with ((if out_matched o then 1 else 0) + matchesOf outs)%nat.
  cbn [length]. destruct (out_matched o); lia.
Qed.

(** A row loop, throwing or not, has processed a prefix of the rows:
    the state it leaves is the one of the outcomes it got. *)
Lemma rowLoop_prefix step i rows a st :
  exists outs,
    (length outs <= length rows)%nat
    /\ Forall (fun o => exists j r, r ∈ rows /\ step j r = Some o) outs
    /\ fst (rowLoop step i rows a st)
       = {| stats := countRows outs (stats st); saved := saved st |}
    /\ (is_Some (snd (rowLoop step i rows a st)) -> length outs = length rows).
Proof.
  revert i a st. induction rows as [|r rows IH]; intros i a st.
  - exists []. cbn. rewrite countRows_nil. by destruct st.
  - cbn [rowLoop]. destruct (step i r) as [o|] eqn:Hstep.
    + unfold mbind, run_bind, bind, updStats.
      destruct (IH (S i) (accRow o a)
                  {| stats := countRow o (stats st); saved := saved st |})
        as (outs & Hlen & Hall & Hst & Hsome).
      exists (o :: outs). cbn [length]. split; [lia|]. split.
      { constructor.
        - exists i, r. split; [by left | done].
        - eapply Forall_impl; [exact Hall|]. intros o' (j & r' & Hin & Ho).
          exists j, r'. split; [by right | done]. }
      rewrite Hst, countRows_cons. split; [done|].
      intros Hs. by rewrite Hsome.
    + exists []. cbn. rewrite countRows_nil. split; [lia|].
      split; [done|]. split; [by destruct st|]. by intros [? ?].
Qed.

(** The state after a row loop, as a step of the file. *)
Lemma rowLoop_step step rows a st s0 :
  stats st = addTotalRows (length rows) s0 ->
  let st' := fst (rowLoop step 0 rows a st) in
  saved st' = saved st
  /\ totalFiles (stats st') = totalFiles s0
  /\ processedFiles (stats st') = processedFiles s0
  /\ totalRows (stats st') = (totalRows s0 + length rows)%nat
  /\ exists dProcessed dMatches dReplacements,
       processedRows (stats st') = (processedRows s0 + dProcessed)%nat
       /\ (dProcessed <= length rows)%nat
       /\ totalMatches (stats st') = (totalMatches s0 + dMatches)%nat
       /\ (dMatches <= dProcessed)%nat
       /\ totalReplacements (stats st')
          = (totalReplacements s0 + dReplacements)%nat.
Proof.
  intros Hst. cbn zeta.
  destruct (rowLoop_prefix step 0 rows a st) as (outs & Hlen & _ & -> & _).
  rewrite Hst. cbn. repeat split.
  exists (length outs), (matchesOf outs), (replacementsOf outs).
  repeat split; auto using matchesOf_le.
Qed.

(** After the row loop a file either stops, or saves its output and is
    counted, or is counted without an output. *)
Lemma fileStep_finish st s0 (n : nat) st1 st' :
  stats st = s0 ->
  saved st1 = saved st ->
  totalFiles (stats st1) = totalFiles s0 ->
  processedFiles (stats st1) = processedFiles s0 ->
  totalRows (stats st1) = (totalRows s0 + n)%nat ->
  (exists dProcessed dMatches dReplacements,
     processedRows (stats st1) = (processedRows s0 + dProcessed)%nat
     /\ (dProcessed <= n)%nat
     /\ totalMatches (stats st1) = (totalMatches s0 + dMatches)%nat
     /\ (dMatches <= dProcessed)%nat
     /\ totalReplacements (stats st1)
        = (totalReplacements s0 + dReplacements)%nat) ->
  (st' = st1
   \/ st' = {| stats := incProcessedFiles (stats st1); saved := saved st1 |}
   \/ exists a, st' = {| stats := incProcessedFiles (stats st1);
                         saved := saved st1 ++ [a] |}) ->
  fileStep st st'.
Proof.
  intros <- Hs Htf Hpf Htr (dP & dM & dR & HP & HPle & HM & HMle & HR) Hcases.
  destruct Hcases as [-> | [-> | [a ->]]]; cbn [stats saved]; split;
    try (by destruct (stats st1)).
  - exists 0%nat, (n), dP, dM, dR.
    rewrite Hpf, Htr, HP, HM, HR, Hs. repeat split; auto with lia.
  - exists 1%nat, (n), dP, dM, dR.
    destruct (stats st1); cbn in *. rewrite Hpf, Htr, HP, HM, HR, Hs.
    repeat split; auto with lia.
  - exists 1%nat, (n), dP, dM, dR.
    destruct (stats st1); cbn in *. rewrite Hpf, Htr, HP, HM, HR, Hs.
    repeat split; try lia. right. split; [done|]. by exists a.
Qed.

Lemma fileStep_refl st : fileStep st st.
Proof.
  split; [done|]. exists 0%nat, 0%nat, 0%nat, 0%nat, 0%nat.
  repeat split; auto with lia.
Qed.

(** The tail of a file body: an optional save, then the count. *)
Lemma save_then_count w file mode suffix rows (doSave : bool) st1 :
  let st' := fst ((_ ← (if doSave then saveOutput w file mode suffix rows
                         else ret tt);
                   updStats incProcessedFiles) st1) in
  st' = st1
  \/ st' = {| stats := incProcessedFiles (stats st1); saved := saved st1 |}
  \/ exists a, st' = {| stats := incProcessedFiles (stats st1);
                        saved := saved st1 ++ [a] |}.
Proof.
  cbn zeta. run_unfold. destruct doSave.
  - cbn [art_source]. destruct (storeOk w file); [|by left].
    right; right. by eexists.
  - right; left. done.
Qed.

End FileSteps.

Section FileBodies.
Context `{!JsRuntime}.

Lemma bind_updStats {A} f (rest : Run A) st :
  (_ ← updStats f; rest) st
  = rest {| stats := f (stats st); saved := saved st |}.
Proof. reflexivity. Qed.

Lemma totalRows_only_step st n :
  fileStep st {| stats := addTotalRows n (stats st); saved := saved st |}.
Proof.
  apply (fileStep_finish st (stats st) n
           {| stats := addTotalRows n (stats st); saved := saved st |});
    try done; [|by left].
  exists 0%nat, 0%nat, 0%nat. cbn. repeat split; lia.
Qed.

(** A row loop followed by the tail of a file body is a file step. *)
Lemma loop_then_tail_step step rows (tail : FileAcc -> Run unit) st :
  (forall acc st1,
     let st' := fst (tail acc st1) in
     st' = st1
     \/ st' = {| stats := incProcessedFiles (stats st1); saved := saved st1 |}
     \/ exists a, st' = {| stats := incProcessedFiles (stats st1);
                           saved := saved st1 ++ [a] |}) ->
  fileStep st
    (fst ((acc ← rowLoop step 0 rows emptyAcc; tail acc)
            {| stats := addTotalRows (length rows) (stats st);
               saved := saved st |})).
Proof.
  intros Htail.
  set (st0 := {| stats := addTotalRows (length rows) (stats st);
                 saved := saved st |}).
  destruct (rowLoop_step step rows emptyAcc st0 (stats st) eq_refl)
    as (Hs & Htf & Hpf & Htr & Hrest).
  unfold mbind, run_bind, bind.
  destruct (rowLoop step 0 rows emptyAcc st0) as [st1 [acc|]] eqn:E;
    cbn [fst] in *.
  - eapply (fileStep_finish st (stats st) (length rows) st1);
      first [done | apply Htail].
  - eapply (fileStep_finish st (stats st) (length rows) st1);
      first [done | by left].
Qed.

Lemma processFileSimple_step w req term file st :
  fileStep st (fst (ProcessRoute.processFileSimple w req term file st)).
Proof.
  unfold ProcessRoute.processFileSimple, catch. cbn [fst].
  destruct (download w (path file)) as [| |rows];
    [apply fileStep_refl | apply fileStep_refl |].
  rewrite bind_updStats.
  destruct (RegExp _ _) as [test|]; [|apply totalRows_only_step].
  apply loop_then_tail_step. intros acc st1.
  destruct (ProcessRoute.replaceModeTerm (replaceTerm req)).
  - apply (save_then_count w (path file) _ _ _ true).
  - apply (save_then_count w (path file) filebrowser [] [] false).
Qed.

Lemma processFileAdvanced_step w adv mode showOnly saveTo file st :
  fileStep st (fst (ProcessRoute.processFileAdvanced w adv mode showOnly
                      saveTo file st)).
Proof.
  unfold ProcessRoute.processFileAdvanced, catch. cbn [fst].
  destruct (download w (path file)) as [| |rows];
    [apply fileStep_refl | apply fileStep_refl |].
  rewrite bind_updStats.
  apply loop_then_tail_step. intros acc st1.
  destruct mode.
  - apply (save_then_count w (path file) _ _ _ true).
  - apply (save_then_count w (path file) filebrowser [] [] false).
Qed.

(** The tail of the replace endpoints: save and count when something
    was replaced. *)
Lemma save_if_replaced w file mode suffix (acc : FileAcc) st1 :
  let st' := fst ((if (0 <? acc_replacements acc)%nat
                   then _ ← saveOutput w file mode suffix (acc_rows acc);
                        updStats incProcessedFiles
                   else ret tt) st1) in
  st' = st1
  \/ st' = {| stats := incProcessedFiles (stats st1); saved := saved st1 |}
  \/ exists a, st' = {| stats := incProcessedFiles (stats st1);
                        saved := saved st1 ++ [a] |}.
Proof.
  cbn zeta. destruct (0 <? _)%nat; [|by left].
  apply (save_then_count w file mode suffix (acc_rows acc) true).
Qed.

Lemma replace_processFile_step w ops mode entry st :
  fileStep st (fst (ReplaceRoute.processFile w ops mode entry st)).
Proof.
  destruct entry as [file result].
  unfold ReplaceRoute.processFile, catch. cbn [fst].
  destruct (download w file) as [| |rows];
    [apply fileStep_refl | apply fileStep_refl |].
  rewrite bind_updStats.
  destruct (negb _); [apply totalRows_only_step|].
  apply loop_then_tail_step. intros acc st1. apply save_if_replaced.
Qed.

Lemma fix_processFile_step w mode entry st :
  fileStep st (fst (FixSlugUrlsRoute.processFile w mode entry st)).
Proof.
  destruct entry as [file result].
  unfold FixSlugUrlsRoute.processFile, catch. cbn [fst].
  destruct (download w file) as [| |rows];
    [apply fileStep_refl | apply fileStep_refl |].
  rewrite bind_updStats.
  destruct (negb (hasHeader _ slug_url)); [apply totalRows_only_step|].
  destruct (negb (hasHeader _ location)); [apply totalRows_only_step|].
  apply loop_then_tail_step. intros acc st1. apply save_if_replaced.
Qed.

Lemma legacy_processFile_step w target value mode entry st :
  fileStep st (fst (LegacyReplaceRoute.processFile w target value mode entry st)).
Proof.
  destruct entry as [file result].
  unfold LegacyReplaceRoute.processFile, catch. cbn [fst].
  destruct (download w file) as [| |rows];
    [apply fileStep_refl | apply fileStep_refl |].
  rewrite bind_updStats.
  destruct (negb _); [apply totalRows_only_step|].
  apply loop_then_tail_step. intros acc st1. apply save_if_replaced.
Qed.

(** A file loop whose bodies are file steps that do not throw keeps the
    loop invariant. *)
Lemma forEach_invariant {A} (xs : list A) (body : A -> Run unit) n k st :
  (forall x st, fileStep st (fst (body x st))) ->
  (forall x st, snd (body x st) = Some tt) ->
  loopInvariant n k st ->
  loopInvariant n (k + length xs) (fst (forEach xs body st)).
Proof.
  intros Hstep Hsome. revert k st.
  induction xs as [|x xs IH]; intros k st Hinv.
  - cbn. by rewrite Nat.add_0_r.
  - cbn [forEach length]. unfold mbind, run_bind, bind.
    pose proof (Hstep x st) as Hx. pose proof (Hsome x st) as Hs.
    destruct (body x st) as [st1 [[]|]]; cbn [fst snd] in *; [|done].
    replace (k + S (length xs))%nat with (S k + length xs)%nat by lia.
    apply IH. destruct Hinv as (I1 & I2 & I3 & I4 & I5).
    destruct Hx as (Htf & dF & dR & dP & dM & dRe
                    & HdF & Hpf & Htr & Hpr & HdP & Htm & HdM & _ & Hsv).
    unfold loopInvariant. rewrite Htf, Hpf, Htr, Hpr, Htm.
    repeat split; try lia.
    destruct Hsv as [-> | [-> [a ->]]]; [lia|].
    rewrite length_app. cbn. lia.
Qed.

Lemma initState_invariant n : loopInvariant n 0 (initState n).
Proof. unfold loopInvariant. cbn. repeat split; lia. Qed.

Lemma loopInvariant_consistent n st :
  loopInvariant n n st ->
  totalFiles (stats st) = n /\ countersConsistent st
  /\ (length (saved st) <= processedFiles (stats st))%nat.
Proof.
  intros (I1 & I2 & I3 & I4 & I5). unfold countersConsistent.
  rewrite I1. repeat split; done.
Qed.

(** The invariant of the file loop, at the end of the request. *)
Lemma process_POST_loop (w : World) (req : ProcessRequest) (st : RunState) :
  ProcessRoute.POST w req = Some st ->
  loopInvariant (length (files req)) (length (files req)) st.
Proof.
  unfold ProcessRoute.POST. destruct (_ =? _)%nat; [done|].
  destruct (ProcessRoute.useAdvanced req) as [adv|].
  - intros [= <-].
    apply (forEach_invariant (files req) _ (length (files req)) 0);
      [intros; apply processFileAdvanced_step | done
       | apply initState_invariant].
  - unfold ProcessRoute.simpleSearch.
    destruct (searchTerm req) as [[|c t]|]; [done| |done].
    intros [= <-].
    apply (forEach_invariant (files req) _ (length (files req)) 0);
      [intros; apply processFileSimple_step | done
       | apply initState_invariant].
Qed.

(** X6.  Whatever the files, the search and the store do, the state the
    process endpoint reports with ['complete'] is consistent:
    [totalFiles] is the number of files submitted, no more files are
    counted as processed than that, no more rows are processed than
    were parsed, no more rows match than were processed, and no more
    outputs are saved than files are counted. *)
Theorem process_counters_consistent (w : World) (req : ProcessRequest)
    (st : RunState) :
  ProcessRoute.POST w req = Some st ->
  totalFiles (stats st) = length (files req)
  /\ countersConsistent st
  /\ (length (saved st) <= processedFiles (stats st))%nat.
Proof.
  intros Hpost.
  destruct (process_POST_loop w req st Hpost) as (I1 & I2 & I3 & I4 & I5).
  unfold countersConsistent. rewrite I1. repeat split; done.
Qed.

End FileBodies.

(** ** The counters of the replace endpoints, and search mode *)

Section ReplaceCounters.
Context `{!JsRuntime}.

(** What a row loop that does not throw hands to the tail of the file. *)
Lemma rowLoop_returns step i rows a st st1 acc :
  rowLoop step i rows a st = (st1, Some acc) ->
  exists outs,
    Forall (fun o => exists j r, r ∈ rows /\ step j r = Some o) outs
    /\ st1 = {| stats := countRows outs (stats st); saved := saved st |}
    /\ acc_replacements acc = (acc_replacements a + replacementsOf outs)%nat.
Proof.
  revert i a st. induction rows as [|r rows IH]; intros i a st.
  - cbn. unfold ret. intros [= <- <-]. exists [].
    rewrite countRows_nil. cbn. split; [done|]. split; [by destruct st | lia].
  - cbn [rowLoop]. destruct (step i r) as [o|] eqn:Hstep; [|done].
    unfold mbind, run_bind, bind, updStats. intros Hrun.
    destruct (IH _ _ _ Hrun) as (outs & Hall & -> & Hacc).
    exists (o :: outs). split.
    { constructor.
      - exists i, r. split; [by left | done].
      - eapply Forall_impl; [exact Hall|]. intros o' (j & r' & Hin & Ho).
        exists j, r'. split; [by right | done]. }
    rewrite countRows_cons. split; [done|].
    rewrite Hacc. unfold accRow. cbn [acc_replacements].
    change (replacementsOf (o :: outs))
      with (out_replacements o + replacementsOf outs)%nat. lia.
Qed.

Lemma matchesOf_zero outs :
  Forall (fun o => out_matched o = false) outs -> matchesOf outs = 0%nat.
Proof.
  induction 1 as [|o outs Ho _ IH]; [done|].
  change (matchesOf (o :: outs))
    with ((if out_matched o then 1 else 0) + matchesOf outs)%nat.
  by rewrite Ho, IH.
Qed.

(** A row loop without matches, followed by the tail of the replace
    endpoints, keeps [replaceInvariant]. *)
Lemma replace_like_body step rows w file mode suffix st :
  (forall i r o, step i r = Some o -> out_matched o = false) ->
  replaceInvariant st ->
  replaceInvariant
    (fst ((acc ← rowLoop step 0 rows emptyAcc;
           if (0 <? acc_replacements acc)%nat
           then _ ← saveOutput w file mode suffix (acc_rows acc);
                updStats incProcessedFiles
           else ret tt)
            {| stats := addTotalRows (length rows) (stats st);
               saved := saved st |})).
Proof.
  intros Hnm (I1 & I2 & I3).
  set (st0 := {| stats := addTotalRows (length rows) (stats st);
                 saved := saved st |}).
  unfold mbind, run_bind, bind.
  destruct (rowLoop step 0 rows emptyAcc st0) as [st1 [acc|]] eqn:E.
  - destruct (rowLoop_returns _ _ _ _ _ _ _ E) as (outs & Hall & -> & Hacc).
    assert (matchesOf outs = 0%nat) as Hm.
    { apply matchesOf_zero. eapply Forall_impl; [exact Hall|].
      intros o (j & r & _ & Ho). by eapply Hnm. }
    cbn [acc_replacements emptyAcc Nat.add] in Hacc. rewrite Hacc.
    destruct (0 <? replacementsOf outs)%nat eqn:Hn.
    + apply Nat.ltb_lt in Hn. run_unfold. cbn [art_source stats saved].
      destruct (storeOk w file); unfold replaceInvariant; cbn;
        rewrite ?length_app, ?Hm; cbn; repeat split; lia.
    + unfold ret, replaceInvariant. cbn. rewrite Hm. repeat split; lia.
  - destruct (rowLoop_prefix step 0 rows emptyAcc st0)
      as (outs & _ & Hall & Hst & _).
    rewrite E in Hst. cbn [fst] in *. subst st1.
    assert (matchesOf outs = 0%nat) as Hm.
    { apply matchesOf_zero. eapply Forall_impl; [exact Hall|].
      intros o (j & r & _ & Ho). by eapply Hnm. }
    unfold replaceInvariant. cbn. rewrite Hm. repeat split; lia.
Qed.

Lemma replaceInvariant_totalRows st n :
  replaceInvariant st ->
  replaceInvariant {| stats := addTotalRows n (stats st); saved := saved st |}.
Proof. intros (I1 & I2 & I3). unfold replaceInvariant. by cbn. Qed.

Lemma replaceRow_unmatched headers ops targeted r :
  out_matched (ReplaceRoute.replaceRow headers ops targeted r) = false.
Proof.
  unfold ReplaceRoute.replaceRow. destruct targeted; [|done].
  destruct (ReplaceRoute.applyOperations _ _ _ _ _ _) as [[[? ?] ?] ?].
  by destruct (ReplaceRoute.updateSlugUrl _ _ _ _ _) as [[? ?] ?].
Qed.

Lemma fixRow_unmatched targeted r :
  out_matched (FixSlugUrlsRoute.fixRow targeted r) = false.
Proof.
  unfold FixSlugUrlsRoute.fixRow.
  repeat match goal with |- context [if ?b then _ else _] => destruct b end;
    done.
Qed.

Lemma legacyRow_unmatched target value targeted r :
  out_matched (LegacyReplaceRoute.replaceRow target value targeted r) = false.
Proof.
  unfold LegacyReplaceRoute.replaceRow.
  repeat match goal with |- context [if ?b then _ else _] => destruct b end;
    done.
Qed.

Lemma replace_processFile_invariant w ops mode entry st :
  replaceInvariant st ->
  replaceInvariant (fst (ReplaceRoute.processFile w ops mode entry st)).
Proof.
  intros Hinv. destruct entry as [file result].
  unfold ReplaceRoute.processFile, catch. cbn [fst].
  destruct (download w file) as [| |rows]; [done..|].
  rewrite bind_updStats.
  destruct (negb _); [by apply replaceInvariant_totalRows|].
  apply replace_like_body; [|done].
  intros i r o [= <-]. apply replaceRow_unmatched.
Qed.

Lemma fix_processFile_invariant w mode entry st :
  replaceInvariant st ->
  replaceInvariant (fst (FixSlugUrlsRoute.processFile w mode entry st)).
Proof.
  intros Hinv. destruct entry as [file result].
  unfold FixSlugUrlsRoute.processFile, catch. cbn [fst].
  destruct (download w file) as [| |rows]; [done..|].
  rewrite bind_updStats.
  destruct (negb (hasHeader _ slug_url)); [by apply replaceInvariant_totalRows|].
  destruct (negb (hasHeader _ location)); [by apply replaceInvariant_totalRows|].
  apply replace_like_body; [|done].
  intros i r o [= <-]. apply fixRow_unmatched.
Qed.

Lemma legacy_processFile_invariant w target value mode entry st :
  replaceInvariant st ->
  replaceInvariant
    (fst (LegacyReplaceRoute.processFile w target value mode entry st)).
Proof.
  intros Hinv. destruct entry as [file result].
  unfold LegacyReplaceRoute.processFile, catch. cbn [fst].
  destruct (download w file) as [| |rows]; [done..|].
  rewrite bind_updStats.
  destruct (negb _); [by apply replaceInvariant_totalRows|].
  apply replace_like_body; [|done].
  intros i r o [= <-]. apply legacyRow_unmatched.
Qed.

Lemma forEach_preserves {A} (P : RunState -> Prop) (xs : list A)
    (body : A -> Run unit) st :
  (forall x st, P st -> P (fst (body x st))) ->
  (forall x st, snd (body x st) = Some tt) ->
  P st -> P (fst (forEach xs body st)).
Proof.
  intros Hstep Hsome. revert st.
  induction xs as [|x xs IH]; intros st HP; [done|].
  cbn [forEach]. unfold mbind, run_bind, bind.
  pose proof (Hstep x st HP) as Hx. pose proof (Hsome x st) as Hs.
  destruct (body x st) as [st1 [[]|]]; cbn [fst snd] in *; [|done].
  by apply IH.
Qed.

Lemma initState_replaceInvariant n : replaceInvariant (initState n).
Proof. unfold replaceInvariant. cbn. repeat split; lia. Qed.

(** X7.  Whatever the store does, the state the replace endpoint, its older
    version and the fix-slug-urls endpoint report with ['complete'] is
    consistent, counts as many processed files as outputs were saved,
    counts at least one replacement for each of them, and counts no
    match. *)
Theorem replace_counters_consistent (w : World) :
  (forall req st,
     ReplaceRoute.POST w req = Some st ->
     totalFiles (stats st) = length (filesMap (searchResults req))
     /\ countersConsistent st /\ replaceInvariant st)
  /\ (forall req st,
        LegacyReplaceRoute.POST w req = Some st ->
        totalFiles (stats st) = length (filesMap (searchResults req))
        /\ countersConsistent st /\ replaceInvariant st)
  /\ (forall req st,
        FixSlugUrlsRoute.POST w req = Some st ->
        totalFiles (stats st) = length (filesMap (fs_searchResults req))
        /\ countersConsistent st /\ replaceInvariant st).
Proof.
  split; [|split]; intros req st.
  - unfold ReplaceRoute.POST. destruct (_ =? _)%nat; [done|].
    destruct (ReplaceRoute.operationsOf req) as [ops|]; [|done].
    cbn [mbind option_bind]. destruct (negb _); [done|].
    destruct (_ =? _)%nat; [done|]. intros [= <-].
    set (fm := filesMap (searchResults req)).
    destruct (loopInvariant_consistent (length fm)
                (fst (forEach fm (ReplaceRoute.processFile w ops
                        (default filebrowser (rr_saveMode req)))
                        (initState (length fm))))) as (H1 & H2 & _).
    { apply (forEach_invariant fm _ (length fm) 0);
        [intros; apply replace_processFile_step
        | by intros [? ?] ? | apply initState_invariant]. }
    split; [done|]. split; [done|].
    apply forEach_preserves;
      [intros; by apply replace_processFile_invariant
      | by intros [? ?] ? | apply initState_replaceInvariant].
  - unfold LegacyReplaceRoute.POST. destruct (_ =? _)%nat; [done|].
    destruct (rr_replaceTargetField req) as [[|c t]|]; [done| |done].
    destruct (rr_replaceValue req) as [[|d v]|]; [done| |done].
    destruct (_ =? _)%nat; [done|]. intros [= <-].
    set (fm := filesMap (searchResults req)).
    destruct (loopInvariant_consistent (length fm)
                (fst (forEach fm (LegacyReplaceRoute.processFile w (c :: t)
                        (d :: v) (default filebrowser (rr_saveMode req)))
                        (initState (length fm))))) as (H1 & H2 & _).
    { apply (forEach_invariant fm _ (length fm) 0);
        [intros; apply legacy_processFile_step
        | by intros [? ?] ? | apply initState_invariant]. }
    split; [done|]. split; [done|].
    apply forEach_preserves;
      [intros; by apply legacy_processFile_invariant
      | by intros [? ?] ? | apply initState_replaceInvariant].
  - unfold FixSlugUrlsRoute.POST. destruct (_ =? _)%nat; [done|].
    destruct (_ =? _)%nat; [done|]. intros [= <-].
    set (fm := filesMap (fs_searchResults req)).
    destruct (loopInvariant_consistent (length fm)
                (fst (forEach fm (FixSlugUrlsRoute.processFile w
                        (default filebrowser (fs_saveMode req)))
                        (initState (length fm))))) as (H1 & H2 & _).
    { apply (forEach_invariant fm _ (length fm) 0);
        [intros; apply fix_processFile_step
        | by intros [? ?] ? | apply initState_invariant]. }
    split; [done|]. split; [done|].
    apply forEach_preserves;
      [intros; by apply fix_processFile_invariant
      | by intros [? ?] ? | apply initState_replaceInvariant].
Qed.

End ReplaceCounters.

(** ** Search mode *)

Section SearchMode.
Context `{!JsRuntime}.

Lemma simpleRow_search test headers fields showOnly r :
  let o := ProcessRoute.simpleRow test headers fields None showOnly r in
  out_row o = r /\ out_replacements o = 0%nat
  /\ out_matched o = test (rowText headers r).
Proof.
  cbn zeta. unfold ProcessRoute.simpleRow. fold (rowText headers r).
  by destruct (test (rowText headers r)).
Qed.

Lemma advancedRow_search adv headers showOnly r o :
  ProcessRoute.advancedRow adv headers None showOnly r = Some o ->
  out_row o = r /\ out_replacements o = 0%nat.
Proof.
  unfold ProcessRoute.advancedRow.
  destruct (ProcessRoute.rowMatchesAdvanced r headers adv) as [[[] fs]|];
    cbn; [| |done]; by intros [= <-].
Qed.

(** A row loop whose outcomes count no replacement, followed by the
    count of the file, saves nothing and replaces nothing. *)
Lemma search_body step rows st :
  (forall i r o, step i r = Some o -> out_replacements o = 0%nat) ->
  let st' := fst ((acc ← rowLoop step 0 rows emptyAcc;
                   _ ← ret tt; updStats incProcessedFiles)
                    {| stats := addTotalRows (length rows) (stats st);
                       saved := saved st |}) in
  saved st' = saved st
  /\ totalReplacements (stats st') = totalReplacements (stats st).
Proof.
  intros Hz. cbn zeta.
  set (st0 := {| stats := addTotalRows (length rows) (stats st);
                 saved := saved st |}).
  destruct (rowLoop_prefix step 0 rows emptyAcc st0)
    as (outs & _ & Hall & Hst & _).
  assert (replacementsOf outs = 0%nat) as Hr.
  { apply replacementsOf_zero. eapply Forall_impl; [exact Hall|].
    intros o (j & r & _ & Ho). by eapply Hz. }
  unfold mbind, run_bind, bind.
  destruct (rowLoop step 0 rows emptyAcc st0) as [st1 [acc|]];
    cbn [fst] in *; subst st1; cbn; rewrite Hr; split; (done || lia).
Qed.

Lemma processFileSimple_search w req term file st :
  ProcessRoute.replaceModeTerm (replaceTerm req) = None ->
  let st' := fst (ProcessRoute.processFileSimple w req term file st) in
  saved st' = saved st
  /\ totalReplacements (stats st') = totalReplacements (stats st).
Proof.
  intros Hmode. cbn zeta.
  unfold ProcessRoute.processFileSimple, catch. cbn [fst]. rewrite Hmode.
  destruct (download w (path file)) as [| |rows]; [done..|].
  rewrite bind_updStats. destruct (RegExp _ _) as [test|]; [|done].
  apply search_body. intros i r o [= <-]. apply simpleRow_search.
Qed.

Lemma processFileAdvanced_search w adv showOnly saveTo file st :
  let st' := fst (ProcessRoute.processFileAdvanced w adv None showOnly
                    saveTo file st) in
  saved st' = saved st
  /\ totalReplacements (stats st') = totalReplacements (stats st).
Proof.
  cbn zeta. unfold ProcessRoute.processFileAdvanced, catch. cbn [fst].
  destruct (download w (path file)) as [| |rows]; [done..|].
  rewrite bind_updStats.
  apply search_body. intros i r o Ho. by eapply advancedRow_search.
Qed.

(** The loops over the files in search mode leave the outputs and
    [totalReplacements] alone. *)
Lemma search_loops_write_nothing (w : World) (fs : list FileRef) (st0 : RunState) :
  saved st0 = [] /\ totalReplacements (stats st0) = 0%nat ->
  (forall adv showOnly mode,
     let st := (forEach fs (ProcessRoute.processFileAdvanced w adv None
                              showOnly mode) st0).1 in
     saved st = [] /\ totalReplacements (stats st) = 0%nat)
  /\ (forall req term,
        ProcessRoute.replaceModeTerm (replaceTerm req) = None ->
        let st := (forEach fs (ProcessRoute.processFileSimple w req term) st0).1 in
        saved st = [] /\ totalReplacements (stats st) = 0%nat).
Proof.
  intros H0. split.
  - intros adv showOnly mode. cbn zeta.
    apply (forEach_preserves
             (fun st => saved st = [] /\ totalReplacements (stats st) = 0%nat));
      [|done|done].
    intros file st1 [Hs Hr].
    destruct (processFileAdvanced_search w adv showOnly mode file st1) as [-> ->].
    done.
  - intros req term Hmode. cbn zeta.
    apply (forEach_preserves
             (fun st => saved st = [] /\ totalReplacements (stats st) = 0%nat));
      [|done|done].
    intros file st1 [Hs Hr].
    destruct (processFileSimple_search w req term file st1 Hmode) as [-> ->].
    done.
Qed.

(** X8.  In search mode the process endpoint saves no output and counts no
    replacement, whatever the files hold and whichever of them fail. *)
Theorem search_mode_writes_nothing (w : World) (req : ProcessRequest)
    (st : RunState) :
  searchOnly req ->
  ProcessRoute.POST w req = Some st ->
  saved st = [] /\ totalReplacements (stats st) = 0%nat.
Proof.
  unfold searchOnly, ProcessRoute.POST. destruct (_ =? _)%nat; [done|].
  destruct (search_loops_write_nothing w (files req)
              (initState (length (files req)))) as [Hadv Hsimple]; [done|].
  destruct (ProcessRoute.useAdvanced req) as [adv|].
  - intros Hmode [= <-]. unfold ProcessRoute.processFilesWithAdvancedSearch.
    rewrite Hmode. apply Hadv.
  - intros Hmode. unfold ProcessRoute.simpleSearch.
    destruct (searchTerm req) as [[|c t]|]; [done| |done]. intros [= <-].
    by apply Hsimple.
Qed.

(** X9.  A search started from the panel is accepted by the process
    endpoint, runs in advanced mode on all selected files, and writes
    nothing. *)
Theorem panel_search_writes_nothing (w : World) (selectedFiles : list FileRef)
    (conds : list FieldSearchCondition) (advancedLogic : AdvancedLogic)
    (cs showOnly : bool) (req : ProcessRequest) :
  CSVProcessorPanelSearch.startProcessing selectedFiles conds advancedLogic
    cs showOnly = Some req ->
  exists st,
    ProcessRoute.POST w req = Some st
    /\ totalFiles (stats st) = length selectedFiles
    /\ saved st = [] /\ totalReplacements (stats st) = 0%nat.
Proof.
  unfold CSVProcessorPanelSearch.startProcessing.
  destruct (length selectedFiles =? 0)%nat eqn:Hf; [done|].
  destruct conds as [|c conds]; [done|]. cbn [length Nat.ltb Nat.leb negb].
  intros [= <-].
  match goal with |- context [ProcessRoute.POST w ?q] => set (req := q) end.
  assert (ProcessRoute.POST w req
          = Some (forEach selectedFiles
                    (ProcessRoute.processFileAdvanced w
                       {| conditions := c :: conds; logic := Some advancedLogic;
                          adv_caseSensitive := cs |}
                       None showOnly filebrowser)
                    (initState (length selectedFiles))).1) as Hst.
  { unfold ProcessRoute.POST. subst req. cbn [files]. by rewrite Hf. }
  eexists. split; [exact Hst|].
  destruct (process_POST_loop w req _ Hst) as (Htf & _).
  split; [done|].
  by apply (search_loops_write_nothing w selectedFiles
              (initState (length selectedFiles))).
Qed.

End SearchMode.

(** ** What the row loops count and report *)

Section RowReports.
Context `{!JsRuntime}.

Lemma simpleRow_matched_flag test headers fields mode showOnly r :
  out_matched (ProcessRoute.simpleRow test headers fields mode showOnly r)
  = test (rowText headers r).
Proof.
  unfold ProcessRoute.simpleRow. fold (rowText headers r).
  destruct (test (rowText headers r)); cbn [negb]; [|done].
  destruct mode; [|done].
  by destruct (ProcessRoute.overwriteFields _ _ _ _ _) as [[? ?] ?].
Qed.

Lemma simple_matchesOf test headers fields mode showOnly i rows :
  matchesOf (outcomesFrom
               (fun _ r => ProcessRoute.simpleRow test headers fields mode
                             showOnly r) i rows)
  = length (List.filter (fun r => test (rowText headers r)) rows).
Proof.
  revert i. induction rows as [|r rows IH]; intros i; [done|].
  cbn [outcomesFrom List.filter].
  change (matchesOf (?o :: ?outs))
    with ((if out_matched o then 1 else 0) + matchesOf outs)%nat.
  rewrite simpleRow_matched_flag, IH.
  by destruct (test (rowText headers r)).
Qed.

(** X10.  In simple mode a parsed file adds its number of rows to [totalRows]
    and to [processedRows], and the number of its matching rows to
    [totalMatches]: a row counts once, however many of its fields
    match, in search and in replace mode, and whether or not the output
    can be stored. *)
Theorem simple_counts_rows_once (w : World) (req : ProcessRequest)
    (term : jsstring) (file : FileRef) (rows : list row)
    (test : jsstring -> bool) (st : RunState) :
  download w (path file) = Parsed rows ->
  RegExp (ProcessRoute.searchPattern (useRegex req) (wholeWord req) term)
         (negb (caseSensitive req)) = Some test ->
  let st' := fst (ProcessRoute.processFileSimple w req term file st) in
  totalRows (stats st') = (totalRows (stats st) + length rows)%nat
  /\ processedRows (stats st') = (processedRows (stats st) + length rows)%nat
  /\ totalMatches (stats st')
     = (totalMatches (stats st)
        + length (List.filter (fun r => test (rowText (headersOf rows) r)) rows))%nat.
Proof.
  intros Hdl Hre. cbn zeta.
  rewrite (processFileSimple_parsed _ _ _ _ _ _ _ Hdl Hre). cbn zeta.
  destruct (ProcessRoute.replaceModeTerm _); [destruct (storeOk w (path file))|];
    cbn; by rewrite outcomesFrom_length, simple_matchesOf.
Qed.

(** The events of the replace branch: one per replacement counted, one
    for each field of the list that does not hold the new value, from
    the value the row holds to the new value. *)
Lemma overwriteFields_report newValue fields r events n :
  exists added,
    (ProcessRoute.overwriteFields newValue fields r events n).1.2
    = events ++ added
    /\ (ProcessRoute.overwriteFields newValue fields r events n).2
       = (n + length added)%nat
    /\ Forall (fun e => ev_field e ∈ fields
                        /\ ev_oldValue e = Row.cell r (ev_field e)
                        /\ ev_newValue e = newValue
                        /\ ev_oldValue e <> newValue) added
    /\ NoDup (List.map ev_field added)
    /\ (forall g, g ∈ fields -> Row.cell r g <> newValue ->
          g ∈ List.map ev_field added).
Proof.
  revert r events n. induction fields as [|f fields IH]; intros r events n.
  - exists []. cbn. rewrite app_nil_r, Nat.add_0_r.
    split; [done|]. split; [done|]. split; [done|]. split; [constructor|].
    by intros g ?%elem_of_nil.
  - cbn [ProcessRoute.overwriteFields].
    destruct (JsString.eqb newValue (Row.cell r f)) eqn:E; cbn [negb].
    + apply eqb_true in E.
      destruct (IH r events n) as (added & H1 & H2 & H3 & H4 & H5).
      exists added. split; [done|]. split; [done|]. split; [|split; [done|]].
      * eapply Forall_impl; [exact H3|]. intros e (? & ? & ? & ?).
        repeat split; try done. by right.
      * intros g [->|Hg]%elem_of_cons Hne; [congruence | by apply H5].
    + apply eqb_false in E.
      destruct (IH (Row.set r f newValue)
                  (events ++ [{| ev_field := f; ev_oldValue := Row.cell r f;
                                 ev_newValue := newValue |}]) (S n))
        as (added & H1 & H2 & H3 & H4 & H5).
      assert (forall e, e ∈ added -> ev_field e <> f) as Hother.
      { intros e He Heq. rewrite Forall_forall in H3.
        destruct (H3 e He) as (_ & Hold & _ & Hne).
        rewrite Heq, cell_set_eq in Hold. done. }
      eexists (_ :: added). rewrite H1, H2, <- app_assoc. cbn [app length].
      split; [done|]. split; [lia|]. split; [|split].
      * constructor.
        -- cbn. split; [by left|]. split; [done|]. split; [done|congruence].
        -- apply Forall_forall. intros e He. rewrite Forall_forall in H3.
           destruct (H3 e He) as (Hin & Hold & Hnew & Hne).
           split; [by right|]. split; [|done].
           rewrite Hold. apply cell_set_ne. intros Heq.
           by apply (Hother e He).
      * cbn [List.map ev_field]. constructor; [|done].
        intros (e & Heq & He)%list_elem_of_fmap. by apply (Hother e He).
      * intros g Hg Hne. cbn [List.map ev_field].
        destruct (decide (g = f)) as [->|Hgf]; [by left|]. right.
        apply elem_of_cons in Hg as [?|Hg]; [done|].
        apply H5; [done|]. by rewrite cell_set_ne.
Qed.

(** The events of the search branch, spelled out. *)
Lemma matchedFieldEvents_filter test searchFields r :
  ProcessRoute.matchedFieldEvents test searchFields r
  = List.map (fun f => {| ev_field := f; ev_oldValue := Row.cell r f;
                          ev_newValue := Row.cell r f |})
             (List.filter (fun f => test (Row.cell r f)) searchFields).
Proof.
  unfold ProcessRoute.matchedFieldEvents.
  induction searchFields as [|f fs IH]; [done|]. cbn [flat_map List.filter].
  destruct (test (Row.cell r f)); cbn [List.map app]; by rewrite IH.
Qed.

(** X11.  The events reported for a row in simple mode.  A row whose text
    does not match has none.  For a matching row in replace mode there
    is exactly one event for each replace field that does not hold the
    replacement term, and no other: the events are as many as the
    replacements counted, their fields are pairwise different, each has
    the value the parsed row held as old value and the replacement term
    as new value, and the two differ.  For a matching row in search mode
    the row is left as it is, no replacement is counted, and the events
    are, in the order of the headers, one for each header whose own
    value matches, with that value as old and new value. *)
Theorem simple_row_events (test : jsstring -> bool)
    (headers fields : list jsstring) (showOnly : bool) (r : row) :
  (forall term,
     let o := ProcessRoute.simpleRow test headers fields (Some term) showOnly r in
     out_replacements o = length (out_events o)
     /\ Forall (fun e => ev_field e ∈ fields
                         /\ ev_oldValue e = Row.cell r (ev_field e)
                         /\ ev_newValue e = term
                         /\ ev_oldValue e <> term) (out_events o)
     /\ NoDup (List.map ev_field (out_events o))
     /\ (test (rowText headers r) = true ->
         forall f, f ∈ fields -> Row.cell r f <> term ->
           f ∈ List.map ev_field (out_events o))
     /\ (test (rowText headers r) = false -> out_events o = []))
  /\ (let o := ProcessRoute.simpleRow test headers fields None showOnly r in
      out_row o = r /\ out_replacements o = 0%nat
      /\ out_events o
         = if test (rowText headers r)
           then List.map (fun f => {| ev_field := f; ev_oldValue := Row.cell r f;
                                      ev_newValue := Row.cell r f |})
                         (List.filter (fun f => test (Row.cell r f)) headers)
           else []).
Proof.
  split.
  - intros term. cbn zeta. unfold ProcessRoute.simpleRow.
    fold (rowText headers r).
    destruct (test (rowText headers r)); cbn [negb].
    2: { cbn. repeat split; try done. constructor. }
    destruct (overwriteFields_report term fields r [] 0%nat)
      as (added & H1 & H2 & H3 & H4 & H5).
    destruct (ProcessRoute.overwriteFields term fields r [] 0)
      as [[r' evs] n]. cbn in *. subst evs n.
    split; [done|]. split; [done|]. split; [done|]. split; [|done].
    intros _ f Hf Hne. by apply H5.
  - cbn zeta. unfold ProcessRoute.simpleRow. fold (rowText headers r).
    destruct (test (rowText headers r)); cbn [negb]; [|done].
    split; [done|]. split; [done|]. cbn [out_events].
    apply matchedFieldEvents_filter.
Qed.

Lemma applyOperations_events headers ops r events n loc :
  exists added,
    (ReplaceRoute.applyOperations headers ops r events n loc).1.1.2
    = events ++ added
    /\ (ReplaceRoute.applyOperations headers ops r events n loc).1.2
       = (n + length added)%nat
    /\ Forall (fun e => ev_field e ∈ headers
                        /\ ev_oldValue e <> ev_newValue e
                        /\ {| op_field := ev_field e;
                              op_value := ev_newValue e |} ∈ ops) added.
Proof.
  revert r events n loc.
  induction ops as [|[f v] ops IH]; intros r events n loc.
  - exists []. cbn. by rewrite app_nil_r, Nat.add_0_r.
  - cbn [ReplaceRoute.applyOperations op_field op_value].
    destruct (hasHeader headers f) eqn:Hh; cbn [negb].
    2: { destruct (IH r events n loc) as (added & H1 & H2 & H3).
         exists added. split; [done|]. split; [done|].
         eapply Forall_impl; [exact H3|]. intros e (? & ? & ?).
         repeat split; try done. by right. }
    destruct (JsString.eqb (Row.cell r f) v) eqn:E; cbn [negb].
    + destruct (IH r events n loc) as (added & H1 & H2 & H3).
      exists added. split; [done|]. split; [done|].
      eapply Forall_impl; [exact H3|]. intros e (? & ? & ?).
      repeat split; try done. by right.
    + match goal with
      | |- context [ReplaceRoute.applyOperations headers ops ?r1 ?e1 ?n1 ?l1] =>
          destruct (IH r1 e1 n1 l1) as (added & H1 & H2 & H3)
      end.
      eexists (_ :: added). rewrite H1, H2, <- app_assoc. cbn [app length].
      split; [done|]. split; [lia|]. constructor.
      * cbn. split; [by apply bool_decide_eq_true in Hh|].
        split; [by apply eqb_false in E | by left].
      * eapply Forall_impl; [exact H3|]. intros e (? & ? & ?).
        repeat split; try done. by right.
Qed.

(** X12.  In the replace endpoints every reported event is a real change (its
    old and new values differ) of a column of the file, and the
    replacements counted for a row are exactly its events; a row that
    is not targeted has neither. *)
Theorem replace_row_events (headers : list jsstring)
    (ops : list ReplaceOperation) (targeted : bool) (r : row) :
  (let o := ReplaceRoute.replaceRow headers ops targeted r in
   out_replacements o = length (out_events o)
   /\ Forall (fun e => ev_field e ∈ headers
                       /\ ev_oldValue e <> ev_newValue e) (out_events o)
   /\ (targeted = false -> out_events o = []))
  /\ (let o := FixSlugUrlsRoute.fixRow targeted r in
      out_replacements o = length (out_events o)
      /\ Forall (fun e => ev_field e = slug_url
                          /\ ev_oldValue e <> ev_newValue e) (out_events o)
      /\ (targeted = false -> out_events o = [])).
Proof.
  split.
  - cbn zeta. unfold ReplaceRoute.replaceRow. destruct targeted; [|done].
    destruct (applyOperations_events headers ops r [] 0%nat None)
      as (added & H1 & H2 & H3).
    destruct (ReplaceRoute.applyOperations headers ops r [] 0 None)
      as [[[r1 ev1] n1] loc]. cbn in H1, H2. subst ev1 n1.
    assert (Forall (fun e => ev_field e ∈ headers
                             /\ ev_oldValue e <> ev_newValue e) added) as H3'.
    { eapply Forall_impl; [exact H3|]. by intros e (? & ? & _). }
    unfold ReplaceRoute.updateSlugUrl.
    destruct loc as [[old new]|]; [|done].
    destruct (hasHeader headers slug_url) eqn:Hh; [|done].
    destruct (ReplaceRoute.recomputedSlug _ new) as [newSlug|]; [|done].
    destruct (JsString.eqb newSlug _) eqn:E; cbn [negb]; [done|].
    cbn. rewrite length_app. cbn. split; [lia|]. split; [|done].
    apply Forall_app. split; [done|]. constructor; [|done]. cbn.
    split; [by apply bool_decide_eq_true in Hh|].
    apply eqb_false in E. congruence.
  - cbn zeta. unfold FixSlugUrlsRoute.fixRow. destruct targeted; [|done].
    destruct (JsString.endsWith _ salary) eqn:Hends; [|done].
    destruct (JsString.truthy _) eqn:Hn; [|done].
    destruct (JsString.endsWith _ (salary ++ _)) eqn:Hexp; cbn [negb]; [done|].
    cbn. split; [done|]. split; [|done]. constructor; [|done]. cbn.
    split; [done|]. intros Heq. apply (f_equal length) in Heq.
    rewrite length_app in Heq. cbn in Heq. lia.
Qed.

End RowReports.

(** ** Files that cannot be read, files that lack a field *)

Section SkippedFiles.
Context `{!JsRuntime}.

Lemma forEach_skip {A} (body : A -> Run unit) (pre post : list A) (x : A) st :
  (forall y s, (body y s).2 = Some tt) ->
  (forall s, (body x s).1 = s) ->
  (forEach (pre ++ x :: post) body st).1 = (forEach (pre ++ post) body st).1.
Proof.
  intros Hret Hskip. revert st.
  induction pre as [|y pre IH]; intros st; cbn [app forEach]; run_unfold.
  - specialize (Hret x st). specialize (Hskip st).
    destruct (body x st) as [s' [[]|]]; cbn in *; by subst.
  - specialize (Hret y st).
    destruct (body y st) as [s' [[]|]]; cbn in *; [apply IH | done].
Qed.

(** X13.  A file whose download fails or whose parse reports errors changes
    nothing: in every endpoint the loop over the files ends in the state
    it reaches without that file.  No counter moves for it and the files
    after it are processed as usual. *)
Theorem unreadable_file_is_skipped (w : World) (p : jsstring) :
  (forall rows, download w p <> Parsed rows) ->
  (forall req term nm pre post st,
     (forEach (pre ++ {| path := p; name := nm |} :: post)
              (ProcessRoute.processFileSimple w req term) st).1
     = (forEach (pre ++ post) (ProcessRoute.processFileSimple w req term) st).1)
  /\ (forall adv replaceMode showOnly mode nm pre post st,
        (forEach (pre ++ {| path := p; name := nm |} :: post)
                 (ProcessRoute.processFileAdvanced w adv replaceMode showOnly mode)
                 st).1
        = (forEach (pre ++ post)
                   (ProcessRoute.processFileAdvanced w adv replaceMode showOnly mode)
                   st).1)
  /\ (forall ops mode result pre post st,
        (forEach (pre ++ (p, result) :: post)
                 (ReplaceRoute.processFile w ops mode) st).1
        = (forEach (pre ++ post) (ReplaceRoute.processFile w ops mode) st).1)
  /\ (forall mode result pre post st,
        (forEach (pre ++ (p, result) :: post)
                 (FixSlugUrlsRoute.processFile w mode) st).1
        = (forEach (pre ++ post) (FixSlugUrlsRoute.processFile w mode) st).1)
  /\ (forall target value mode result pre post st,
        (forEach (pre ++ (p, result) :: post)
                 (LegacyReplaceRoute.processFile w target value mode) st).1
        = (forEach (pre ++ post)
                   (LegacyReplaceRoute.processFile w target value mode) st).1).
Proof.
  intros Hdl.
  repeat split; intros; apply forEach_skip;
    try (intros [? ?] ?); try done; intros s;
    unfold ProcessRoute.processFileSimple, ProcessRoute.processFileAdvanced,
      ReplaceRoute.processFile, FixSlugUrlsRoute.processFile,
      LegacyReplaceRoute.processFile; cbn [path];
    destruct (download w p) as [| |rows]; try done; by destruct (Hdl rows).
Qed.

(** X14.  The replace endpoints leave a parsed file alone when it lacks a
    field they need: a field of any one operation in the replace
    endpoint (even when the file has the fields of the others),
    [slug_url] or [location] in the fix-slug-urls endpoint, the target
    field in the first replace endpoint.  Only [totalRows] has grown by
    then; no row is processed and nothing is persisted. *)
Theorem missing_field_skips_file (w : World) (p : jsstring)
    (result : SearchResult) (rows : list row) (mode : SaveMode)
    (st : RunState) :
  download w p = Parsed rows ->
  let skipped := {| stats := addTotalRows (length rows) (stats st);
                    saved := saved st |} in
  (forall ops op,
     op ∈ ops -> op_field op ∉ headersOf rows ->
     (ReplaceRoute.processFile w ops mode (p, result) st).1 = skipped)
  /\ (slug_url ∉ headersOf rows \/ location ∉ headersOf rows ->
      (FixSlugUrlsRoute.processFile w mode (p, result) st).1 = skipped)
  /\ (forall target value,
        target ∉ headersOf rows ->
        (LegacyReplaceRoute.processFile w target value mode (p, result) st).1
        = skipped).
Proof.
  intros Hdl. cbn zeta. repeat split.
  - intros ops op Hop Hmiss.
    rewrite (replace_processFile_parsed _ _ _ _ _ _ _ Hdl). cbn zeta.
    destruct (List.filter _ _) as [|f fs] eqn:Hf; [|done].
    assert (op_field op ∈ List.filter
              (fun f => negb (hasHeader (headersOf rows) f))
              (List.map op_field ops)) as Hin.
    { apply list_elem_of_In, filter_In. split.
      - apply in_map. by apply list_elem_of_In.
      - apply negb_true_iff, bool_decide_eq_false. done. }
    rewrite Hf in Hin. by apply elem_of_nil in Hin.
  - intros Hmiss.
    rewrite (fix_processFile_parsed _ _ _ _ _ _ Hdl). cbn zeta.
    unfold hasHeader.
    destruct Hmiss as [Hm|Hm]; rewrite (bool_decide_eq_false_2 _ Hm);
      cbn; [done | by rewrite orb_true_r].
  - intros target value Hmiss.
    unfold LegacyReplaceRoute.processFile. rewrite Hdl. run_unfold.
    unfold hasHeader. by rewrite (bool_decide_eq_false_2 _ Hmiss).
Qed.

End SkippedFiles.

(** ** The files of a replace request *)

Section FilesMap.

Lemma mapSet_elem m k v k' v' :
  (k', v') ∈ mapSet m k v -> (k' = k /\ v' = v) \/ (k', v') ∈ m.
Proof.
  induction m as [|[k0 v0] m IH]; cbn [mapSet].
  - intros [= -> ->]%list_elem_of_singleton. by left.
  - destruct (JsString.eqb k0 k) eqn:E.
    + apply eqb_true in E as ->.
      intros [[= -> ->]|Hin]%elem_of_cons; [by left|].
      right. by apply elem_of_cons; right.
    + intros [[= -> ->]|Hin]%elem_of_cons.
      * right. by apply elem_of_cons; left.
      * destruct (IH Hin) as [?|?]; [by left|].
        right. by apply elem_of_cons; right.
Qed.

Lemma mapSet_here m k v : (k, v) ∈ mapSet m k v.
Proof.
  induction m as [|[k0 v0] m IH]; cbn [mapSet].
  - by apply list_elem_of_singleton.
  - destruct (JsString.eqb k0 k) eqn:E.
    + apply eqb_true in E as ->. by apply elem_of_cons; left.
    + by apply elem_of_cons; right.
Qed.

Lemma mapSet_other m k v k' v' :
  k' <> k -> (k', v') ∈ m -> (k', v') ∈ mapSet m k v.
Proof.
  intros Hne. induction m as [|[k0 v0] m IH]; cbn [mapSet].
  - by intros ?%elem_of_nil.
  - destruct (JsString.eqb k0 k) eqn:E.
    + apply eqb_true in E as ->.
      intros [[= -> ->]|Hin]%elem_of_cons; [done|].
      by apply elem_of_cons; right.
    + intros [[= -> ->]|Hin]%elem_of_cons.
      * by apply elem_of_cons; left.
      * apply elem_of_cons; right. by apply IH.
Qed.

Lemma mapSet_keys m k v :
  List.map fst (mapSet m k v)
  = if bool_decide (k ∈ List.map fst m) then List.map fst m
    else List.map fst m ++ [k].
Proof.
  induction m as [|[k0 v0] m IH]; cbn [mapSet List.map fst]; [done|].
  destruct (JsString.eqb k0 k) eqn:E.
  - apply eqb_true in E as ->. cbn [List.map fst].
    rewrite bool_decide_eq_true_2; [done | by apply elem_of_cons; left].
  - apply eqb_false in E. cbn [List.map fst]. rewrite IH.
    destruct (bool_decide (k ∈ List.map fst m)) eqn:Hk.
    + apply bool_decide_eq_true in Hk.
      rewrite bool_decide_eq_true_2; [done | by apply elem_of_cons; right].
    + apply bool_decide_eq_false in Hk.
      rewrite bool_decide_eq_false_2; [done|].
      intros [?|?]%elem_of_cons; [congruence | done].
Qed.

Lemma mapSet_NoDup m k v :
  NoDup (List.map fst m) -> NoDup (List.map fst (mapSet m k v)).
Proof.
  intros Hnd. rewrite mapSet_keys.
  destruct (bool_decide _) eqn:Hk; [done|].
  apply bool_decide_eq_false in Hk.
  apply NoDup_app. split; [done|]. split; [|apply NoDup_singleton].
  intros x Hx ->%list_elem_of_singleton. done.
Qed.

Lemma mapSet_length m k v : (length (mapSet m k v) <= S (length m))%nat.
Proof.
  induction m as [|[k0 v0] m IH]; cbn [mapSet length]; [lia|].
  destruct (JsString.eqb k0 k); cbn [length]; lia.
Qed.

(** The step of the loop that fills [filesMap]. *)
Lemma filesMap_unfold results :
  filesMap results
  = fold_left (fun m result =>
                 if negb (length (sr_rows result) =? 0)%nat
                 then mapSet m (sr_path result) result else m)
              results [].
Proof. done. Qed.

Lemma filesMap_fold_inv results m :
  let step := fun m result =>
                if negb (length (sr_rows result) =? 0)%nat
                then mapSet m (sr_path result) result else m in
  let fm := fold_left step results m in
  (NoDup (List.map fst m) -> NoDup (List.map fst fm))
  /\ (forall k v, (k, v) ∈ fm ->
        (k, v) ∈ m \/ (sr_path v = k /\ v ∈ results /\ sr_rows v <> []))
  /\ (forall k, k ∈ List.map fst m -> k ∈ List.map fst fm)
  /\ (forall result, result ∈ results -> sr_rows result <> [] ->
        sr_path result ∈ List.map fst fm)
  /\ (length fm <= length m + length results)%nat.
Proof.
  cbn zeta. revert m.
  induction results as [|x results IH]; intros m; cbn [fold_left length].
  - repeat split; try done; [by left | by intros ? ?%elem_of_nil | lia].
  - match goal with
    | |- context [fold_left ?f results ?m1] =>
        destruct (IH m1) as (I1 & I2 & I3 & I4 & I5)
    end.
    destruct (length (sr_rows x) =? 0)%nat eqn:Hx; cbn [negb] in *.
    + repeat split; [done | | done | | lia].
      * intros k v Hkv. destruct (I2 k v Hkv) as [?|(? & ? & ?)]; [by left|].
        right. repeat split; try done. by apply elem_of_cons; right.
      * intros result [->|Hin]%elem_of_cons Hrows; [|by apply I4].
        apply Nat.eqb_eq in Hx. by destruct (sr_rows x).
    + apply Nat.eqb_neq in Hx.
      repeat split.
      * intros Hnd. by apply I1, mapSet_NoDup.
      * intros k v Hkv. destruct (I2 k v Hkv) as [Hm|(? & ? & ?)].
        -- apply mapSet_elem in Hm as [[-> ->]|?]; [|by left].
           right. repeat split; [by apply elem_of_cons; left|].
           intros Hnil. by rewrite Hnil in Hx.
        -- right. repeat split; try done. by apply elem_of_cons; right.
      * intros k Hk. apply I3. rewrite mapSet_keys.
        destruct (bool_decide _); [done|]. apply elem_of_app. by left.
      * intros result [->|Hin]%elem_of_cons Hrows; [|by apply I4].
        apply I3. apply list_elem_of_fmap. exists (sr_path x, x).
        split; [done | apply mapSet_here].
      * pose proof (mapSet_length m (sr_path x) x). lia.
Qed.

Lemma filesMap_keeps results m k v :
  (k, v) ∈ m ->
  Forall (fun u => sr_rows u <> [] -> sr_path u <> k) results ->
  (k, v) ∈ fold_left (fun m result =>
                        if negb (length (sr_rows result) =? 0)%nat
                        then mapSet m (sr_path result) result else m)
                     results m.
Proof.
  revert m. induction results as [|x results IH]; intros m Hin Hall; [done|].
  apply Forall_cons in Hall as [Hx Hall]. cbn [fold_left].
  apply IH; [|done].
  destruct (length (sr_rows x) =? 0)%nat eqn:E; [done|]. cbn [negb].
  apply mapSet_other; [|done].
  intros ->. apply Hx; [|done]. intros Hnil. by rewrite Hnil in E.
Qed.

(** X15.  The file map of the replace endpoints holds each path once, under
    that path a search result of the request that has rows, and for a
    path that occurs several times the last such result; every result
    with rows has its path in the map, so that [totalFiles] counts the
    distinct paths of the results that have rows. *)
Theorem filesMap_spec (results : list SearchResult) :
  NoDup (List.map fst (filesMap results))
  /\ (forall k v, (k, v) ∈ filesMap results ->
        sr_path v = k /\ v ∈ results /\ sr_rows v <> [])
  /\ (forall result, result ∈ results -> sr_rows result <> [] ->
        sr_path result ∈ List.map fst (filesMap results))
  /\ (forall pre v post,
        results = pre ++ v :: post -> sr_rows v <> [] ->
        Forall (fun u => sr_rows u <> [] -> sr_path u <> sr_path v) post ->
        (sr_path v, v) ∈ filesMap results)
  /\ (length (filesMap results) <= length results)%nat.
Proof.
  destruct (filesMap_fold_inv results []) as (I1 & I2 & I3 & I4 & I5).
  rewrite filesMap_unfold. repeat split.
  - apply I1. constructor.
  - destruct (I2 k v H) as [?%elem_of_nil|(? & ? & ?)]; done.
  - destruct (I2 k v H) as [?%elem_of_nil|(? & ? & ?)]; done.
  - destruct (I2 k v H) as [?%elem_of_nil|(? & ? & ?)]; done.
  - done.
  - intros pre v post -> Hrows Hpost.
    rewrite fold_left_app. cbn [fold_left].
    apply filesMap_keeps; [|done].
    destruct (length (sr_rows v) =? 0)%nat eqn:E.
    + apply Nat.eqb_eq in E. by destruct (sr_rows v).
    + apply mapSet_here.
  - done.
Qed.

Lemma filesMap_nonempty results :
  results <> [] -> Forall (fun u => sr_rows u <> []) results ->
  (length (filesMap results) =? 0)%nat = false.
Proof.
  intros Hne Hall. destruct results as [|x results]; [done|].
  destruct (filesMap_fold_inv (x :: results) []) as (_ & _ & _ & I4 & _).
  rewrite filesMap_unfold.
  apply Forall_cons in Hall as [Hx _].
  specialize (I4 x (ltac:(by apply elem_of_cons; left)) Hx).
  cbn zeta in I4. destruct (fold_left _ _ _); [|done].
  by apply elem_of_nil in I4.
Qed.

Lemma filter_rows_nonempty fileResults :
  Forall (fun u => sr_rows u <> [])
    (List.filter (fun fr => negb (length (sr_rows fr) =? 0)%nat) fileResults).
Proof.
  apply Forall_forall. intros u [_ Hu]%list_elem_of_In%filter_In.
  intros Hnil. by rewrite Hnil in Hu.
Qed.

End FilesMap.

(** ** The panel and the endpoints it posts to *)

Section PanelRequests.
Context `{!JsRuntime}.


(** X17.  Whatever [startFixSlugUrls] posts is served by the fix-slug-urls
    endpoint, every file posted has rows, and the search that led to it
    held a condition [slug_url endsWith '-salary'] and a condition
    [location regex '.+']. *)
Theorem panel_fix_is_accepted (w : World) (hasSearchResults : bool)
    (fileResults : list SearchResult) (conds : list FieldSearchCondition)
    (mode : SaveMode) (req : FixSlugUrlsRequest) :
  CSVProcessorPanelFix.startFixSlugUrls hasSearchResults fileResults conds mode
  = Some req ->
  is_Some (FixSlugUrlsRoute.POST w req)
  /\ Forall (fun u => sr_rows u <> []) (fs_searchResults req)
  /\ {| cond_field := slug_url; cond_value := salary;
        cond_mode := Some endsWith |} ∈ conds
  /\ {| cond_field := location;
        cond_value := CSVProcessorPanelFix.anyLocation;
        cond_mode := Some regex |} ∈ conds.
Proof.
  unfold CSVProcessorPanelFix.startFixSlugUrls.
  destruct (_ || _) eqn:Hfirst; [done|].
  destruct (CSVProcessorPanelFix.shouldShowFixSlugSection _ _ _) eqn:Hshow;
    [|done]. cbn [negb].
  destruct (length (List.filter _ fileResults) =? 0)%nat eqn:Hres; [done|].
  intros [= <-]. cbn [fs_searchResults]. split; [|split].
  - unfold FixSlugUrlsRoute.POST. cbn [fs_searchResults]. rewrite Hres.
    rewrite filesMap_nonempty; [done| |apply filter_rows_nonempty].
    intros Hnil. by rewrite Hnil in Hres.
  - apply filter_rows_nonempty.
  - unfold CSVProcessorPanelFix.shouldShowFixSlugSection in Hshow.
    revert Hshow.
    destruct (negb hasSearchResults || (length fileResults =? 0)%nat);
      [done|].
    intros [H1 H2]%andb_true_iff.
    apply existsb_exists in H1 as ([f1 v1 m1] & Hin1 & Hc1).
    apply existsb_exists in H2 as ([f2 v2 m2] & Hin2 & Hc2).
    cbn [cond_field cond_value cond_mode] in Hc1, Hc2.
    apply andb_true_iff in Hc1 as [[E1 M1]%andb_true_iff V1].
    apply andb_true_iff in Hc2 as [[E2 M2]%andb_true_iff V2].
    apply eqb_true in E1, V1, E2, V2. subst.
    destruct m1 as [[]|]; try done. destruct m2 as [[]|]; try done.
    split; by apply list_elem_of_In.
Qed.

Lemma forEach_ext {A} (xs : list A) (body1 body2 : A -> Run unit) st :
  (forall x s, body1 x s = body2 x s) ->
  forEach xs body1 st = forEach xs body2 st.
Proof.
  intros Hext. revert st. induction xs as [|x xs IH]; intros st; [done|].
  cbn [forEach]. unfold mbind, run_bind, bind. rewrite Hext.
  destruct (body2 x st) as [s' [[]|]]; [apply IH | done].
Qed.

Lemma rowLoop_ext step1 step2 i rows a st :
  (forall j r, step1 j r = step2 j r) ->
  rowLoop step1 i rows a st = rowLoop step2 i rows a st.
Proof.
  intros Hext. revert i a st.
  induction rows as [|r rows IH]; intros i a st; [done|].
  cbn [rowLoop]. rewrite Hext. destruct (step2 i r) as [o|]; [|done].
  unfold mbind, run_bind, bind, updStats. apply IH.
Qed.

Lemma single_operation_row headers target value targeted r :
  hasHeader headers target = true -> target <> location ->
  ReplaceRoute.replaceRow headers
    [{| op_field := target; op_value := value |}] targeted r
  = LegacyReplaceRoute.replaceRow target value targeted r.
Proof.
  intros Hh Hne. unfold ReplaceRoute.replaceRow, LegacyReplaceRoute.replaceRow.
  destruct targeted; [|done].
  cbn [ReplaceRoute.applyOperations op_field op_value]. rewrite Hh. cbn [negb].
  destruct (JsString.eqb (Row.cell r target) value); cbn [negb]; [done|].
  apply eqb_false in Hne. rewrite Hne. done.
Qed.

Lemma single_operation_file w target value mode entry st :
  target <> location ->
  ReplaceRoute.processFile w [{| op_field := target; op_value := value |}]
    mode entry st
  = LegacyReplaceRoute.processFile w target value mode entry st.
Proof.
  intros Hne. destruct entry as [file result].
  unfold ReplaceRoute.processFile, LegacyReplaceRoute.processFile.
  destruct (download w file) as [| |rows]; [done|done|].
  unfold catch. f_equal. f_equal. run_unfold. cbn [List.map op_field List.filter].
  destruct (hasHeader (headersOf rows) target) eqn:Hh; cbn [negb length Nat.eqb];
    [|done].
  erewrite rowLoop_ext; [reflexivity|].
  intros j r. cbn beta. f_equal. by apply single_operation_row.
Qed.

(** X18.  A request in the old format (one target field, one value, no
    operation list) that the first replace endpoint serves is served by
    the present one with the same final state, unless its target is
    [location], for which the present endpoint also rewrites
    [slug_url]. *)
Theorem legacy_requests_served_alike (w : World) (req : ReplaceRequest)
    (st : RunState) :
  LegacyReplaceRoute.POST w req = Some st ->
  replaceOperations req = None \/ replaceOperations req = Some [] ->
  rr_replaceTargetField req <> Some location ->
  ReplaceRoute.POST w req = Some st.
Proof.
  unfold LegacyReplaceRoute.POST, ReplaceRoute.POST.
  destruct (length (searchResults req) =? 0)%nat; [done|].
  destruct (rr_replaceTargetField req) as [[|c t]|] eqn:Ht; [done| |done].
  destruct (rr_replaceValue req) as [[|d v]|] eqn:Hv; [done| |done].
  destruct (length (filesMap (searchResults req)) =? 0)%nat eqn:Hfm; [done|].
  intros [= <-] Hops Hloc.
  assert (ReplaceRoute.operationsOf req
          = Some [{| op_field := c :: t; op_value := d :: v |}]) as ->.
  { unfold ReplaceRoute.operationsOf. rewrite Ht, Hv.
    by destruct Hops as [-> | ->]. }
  cbn [mbind option_bind forallb op_field JsString.truthy andb negb].
  do 2 f_equal. apply forEach_ext.
  intros x s. apply single_operation_file. congruence.
Qed.

End PanelRequests.

(** ** The edit handlers of the detection tables *)

Section EditHandlers.
Context `{!JsRuntime}.

Lemma editCondition_value field value :
  isBlank value = false ->
  CSVProcessorPanelSearch.editCondition field value
  = {| cond_field := field; cond_value := value; cond_mode := Some equals |}
  /\ ProcessRoute.isActive
       {| cond_field := field; cond_value := value; cond_mode := Some equals |}
     = true.
Proof.
  intros Hb. unfold CSVProcessorPanelSearch.editCondition, ProcessRoute.isActive.
  cbn [cond_value].
  assert (JsString.truthy value = true) as -> by (by destruct value).
  assert (JsString.eqb (JsString.trim value) [] = false) as ->; [|done].
  apply eqb_false. intros Ht%trim_nil_iff. congruence.
Qed.

(** X19.  The search a detection table sets up for a value that is not blank
    finds the rows that hold the value: with [handleEditFromState] or
    [handleEditFromLocation] a row matches exactly when the file has the
    column and the cell equals the value (after [toLowerCase] of both
    unless the search is case sensitive), and with [handleEditFromCombo]
    exactly when that holds for both columns. *)
Theorem edit_handlers_find_their_values (r : row) (headers : list jsstring)
    (cs : bool) (stateValue locationValue : jsstring) :
  isBlank stateValue = false -> isBlank locationValue = false ->
  let fold := fun s => if cs then s else toLowerCase s in
  let holds := fun f v => hasHeader headers f
                          && JsString.eqb (fold (Row.cell r f)) (fold v) in
  let search := fun conds =>
    ProcessRoute.rowMatchesAdvanced r headers
      {| conditions := conds; logic := Some AND; adv_caseSensitive := cs |} in
  search (CSVProcessorPanelSearch.handleEditFromState stateValue)
  = Some (if holds state stateValue then (true, [state]) else (false, []))
  /\ search (CSVProcessorPanelSearch.handleEditFromLocation locationValue)
     = Some (if holds location locationValue then (true, [location])
             else (false, []))
  /\ search (CSVProcessorPanelSearch.handleEditFromCombo stateValue locationValue)
     = Some (if holds state stateValue && holds location locationValue
             then (true, [state; location]) else (false, [])).
Proof.
  intros Hs Hl. cbn zeta.
  unfold CSVProcessorPanelSearch.handleEditFromState,
    CSVProcessorPanelSearch.handleEditFromLocation,
    CSVProcessorPanelSearch.handleEditFromCombo.
  destruct (editCondition_value state stateValue Hs) as [-> As].
  destruct (editCondition_value location locationValue Hl) as [-> Al].
  unfold ProcessRoute.rowMatchesAdvanced.
  cbn [conditions logic adv_caseSensitive List.filter default].
  rewrite As, Al.
  unfold ProcessRoute.buildFieldMatcher.
  cbn [length Nat.eqb mapM mbind option_bind fmap option_fmap option_map
       cond_mode cond_value cond_field default id
       mret option_ret ProcessRoute.andLoop app].
  repeat split.
  - destruct (hasHeader headers state); cbn [negb andb]; [|done].
    by destruct cs; destruct (JsString.eqb _ _).
  - destruct (hasHeader headers location); cbn [negb andb]; [|done].
    by destruct cs; destruct (JsString.eqb _ _).
  - destruct (hasHeader headers state); cbn [negb andb]; [|done].
    destruct cs.
    + destruct (JsString.eqb (Row.cell r state) stateValue); cbn [negb andb];
        [|done].
      destruct (hasHeader headers location); cbn [negb andb]; [|done].
      by destruct (JsString.eqb _ _).
    + destruct (JsString.eqb (toLowerCase (Row.cell r state)) _);
        cbn [negb andb]; [|done].
      destruct (hasHeader headers location); cbn [negb andb]; [|done].
      by destruct (JsString.eqb _ _).
Qed.

End EditHandlers.

(** ** Columns *)

Section Columns.
Context `{!JsRuntime}.

Lemma get_is_Some r f : is_Some (Row.get r f) <-> f ∈ Row.keys r.
Proof.
  induction r as [|[k v] r IH]; cbn [Row.get Row.keys List.map fst].
  - split; [by intros [? ?] | by intros ?%elem_of_nil].
  - destruct (JsString.eqb k f) eqn:E.
    + apply eqb_true in E as ->. split; [by left | by eexists].
    + apply eqb_false in E. rewrite IH. split; [by right|].
      by intros [?|?]%elem_of_cons.
Qed.

Lemma set_keeps_keys r f v : f ∈ Row.keys r -> Row.keys (Row.set r f v) = Row.keys r.
Proof. intros Hf. by apply keys_set, get_is_Some. Qed.

Lemma overwriteFields_keys newValue fields r events n :
  Forall (fun f => f ∈ Row.keys r) fields ->
  Row.keys (ProcessRoute.overwriteFields newValue fields r events n).1.1
  = Row.keys r.
Proof.
  revert r events n. induction fields as [|f fields IH]; intros r events n Hall;
    [done|].
  apply Forall_cons in Hall as [Hf Hall]. cbn [ProcessRoute.overwriteFields].
  destruct (negb _); [|by apply IH].
  rewrite IH; rewrite set_keeps_keys; done.
Qed.

Lemma applyOperations_keys headers ops r events n loc :
  Forall (fun h => h ∈ Row.keys r) headers ->
  Row.keys (ReplaceRoute.applyOperations headers ops r events n loc).1.1.1
  = Row.keys r.
Proof.
  revert r events n loc. induction ops as [|op ops IH]; intros r events n loc Hall;
    [done|].
  cbn [ReplaceRoute.applyOperations].
  destruct (hasHeader headers (op_field op)) eqn:Hh; cbn [negb]; [|by apply IH].
  destruct (negb _); [|by apply IH].
  apply bool_decide_eq_true in Hh.
  assert (op_field op ∈ Row.keys r) as Hin.
  { rewrite Forall_forall in Hall. by apply Hall. }
  rewrite IH; rewrite set_keeps_keys; done.
Qed.

Lemma replaceFields_headers selected headers :
  Forall (fun f => f ∈ headers) (ProcessRoute.replaceFields selected headers).
Proof.
  unfold ProcessRoute.replaceFields. destruct (_ || _).
  - by apply Forall_forall.
  - apply Forall_forall. intros f [_ Hf]%list_elem_of_In%filter_In.
    by apply bool_decide_eq_true in Hf.
Qed.

(** X20.  No endpoint adds a column to, or removes one from, a row that has
    every header of its file as a column: the keys of the row pushed are
    the keys of the parsed row, in the same order.  (The fix-slug-urls
    and the first replace endpoint check at file level that the column
    they write is a header.) *)
Theorem rows_keep_their_columns (headers : list jsstring) (r : row) :
  Forall (fun h => h ∈ Row.keys r) headers ->
  (forall test selected mode showOnly,
     Row.keys (out_row (ProcessRoute.simpleRow test headers
                          (ProcessRoute.replaceFields selected headers)
                          mode showOnly r)) = Row.keys r)
  /\ (forall adv replaceMode showOnly o,
        ProcessRoute.advancedRow adv headers replaceMode showOnly r = Some o ->
        Row.keys (out_row o) = Row.keys r)
  /\ (forall ops targeted,
        Row.keys (out_row (ReplaceRoute.replaceRow headers ops targeted r))
        = Row.keys r)
  /\ (forall targeted,
        slug_url ∈ headers ->
        Row.keys (out_row (FixSlugUrlsRoute.fixRow targeted r)) = Row.keys r)
  /\ (forall target value targeted,
        target ∈ headers ->
        Row.keys (out_row (LegacyReplaceRoute.replaceRow target value targeted r))
        = Row.keys r).
Proof.
  intros Hall. pose proof Hall as Hall'. rewrite Forall_forall in Hall'.
  split; [|split; [|split; [|split]]].
  - intros test selected mode showOnly. unfold ProcessRoute.simpleRow.
    destruct (negb _); [done|]. destruct mode as [newValue|]; [|done].
    pose proof (overwriteFields_keys newValue
                  (ProcessRoute.replaceFields selected headers) r [] 0%nat) as Hk.
    destruct (ProcessRoute.overwriteFields _ _ _ _ _) as [[r' evs] n].
    cbn in *. apply Hk.
    eapply Forall_impl; [apply replaceFields_headers|]. intros f Hf. by apply Hall'.
  - intros adv replaceMode showOnly o. unfold ProcessRoute.advancedRow.
    destruct (ProcessRoute.rowMatchesAdvanced r headers adv) as [[b fs]|];
      [|done]. cbn [mbind option_bind].
    destruct (negb b); [by intros [= <-]|].
    destruct replaceMode as [[target newValue]|]; [|by intros [= <-]].
    destruct (hasHeader headers target) eqn:Hh; [|by intros [= <-]].
    apply bool_decide_eq_true in Hh.
    destruct (negb _); intros [= <-]; [|done]. cbn.
    by apply set_keeps_keys, Hall'.
  - intros ops targeted. destruct targeted; [|done].
    rewrite replaceRow_targeted.
    pose proof (applyOperations_keys headers ops r [] 0%nat None Hall) as Hk.
    destruct (ReplaceRoute.applyOperations headers ops r [] 0 None)
      as [[[r1 ev1] n1] loc]. cbn [fst snd] in *.
    unfold ReplaceRoute.updateSlugUrl. destruct loc as [[old new]|]; [|done].
    destruct (hasHeader headers slug_url) eqn:Hh; [|done].
    destruct (ReplaceRoute.recomputedSlug _ _); [|done].
    destruct (negb _); [|done]. cbn [fst].
    rewrite set_keeps_keys; [done|]. rewrite Hk.
    apply bool_decide_eq_true in Hh. by apply Hall'.
  - intros targeted Hslug. unfold FixSlugUrlsRoute.fixRow.
    repeat match goal with |- context [if ?b then _ else _] => destruct b end;
      try done.
    cbn. by apply set_keeps_keys, Hall'.
  - intros target value targeted Ht. unfold LegacyReplaceRoute.replaceRow.
    repeat match goal with |- context [if ?b then _ else _] => destruct b end;
      try done.
    cbn. by apply set_keeps_keys, Hall'.
Qed.

End Columns.

(** ** More on the derived slug *)

Section SlugKept.
Context `{!JsRuntime}.

Lemma applyOperations_same_location headers ops r events n c :
  Row.cell r location = c ->
  Forall (fun op => op_field op = location -> op_value op = c) ops ->
  (ReplaceRoute.applyOperations headers ops r events n None).2 = None.
Proof.
  revert r events n. induction ops as [|op ops IH]; intros r events n Hc Hall;
    [done|].
  apply Forall_cons in Hall as [Hop Hall]. cbn [ReplaceRoute.applyOperations].
  destruct (negb (hasHeader _ _)); [by apply IH|].
  destruct (JsString.eqb (Row.cell r (op_field op)) (op_value op)) eqn:E;
    cbn [negb]; [by apply IH|].
  destruct (JsString.eqb (op_field op) location) eqn:El.
  - apply eqb_true in El. apply eqb_false in E.
    rewrite El in E. rewrite (Hop El) in E. congruence.
  - apply eqb_false in El. apply IH; [|done].
    by rewrite cell_set_ne.
Qed.

(** X21.  The replace endpoint rewrites [slug_url] only for a change of
    [location]: when no operation names [slug_url] and every operation
    on [location] writes the value the row already holds, the row keeps
    its [slug_url] as it is, whatever the other operations change and
    whether or not the slug fits the location. *)
Theorem slug_kept_without_location_change (headers : list jsstring)
    (ops : list ReplaceOperation) (targeted : bool) (r : row) :
  Forall (fun op => op_field op <> slug_url
                    /\ (op_field op = location ->
                        op_value op = Row.cell r location)) ops ->
  Row.get (out_row (ReplaceRoute.replaceRow headers ops targeted r)) slug_url
  = Row.get r slug_url
  /\ Forall (fun e => ev_field e <> slug_url)
       (out_events (ReplaceRoute.replaceRow headers ops targeted r)).
Proof.
  intros Hall. destruct targeted; [|done].
  assert ((ReplaceRoute.applyOperations headers ops r [] 0 None).2 = None)
    as Hloc.
  { eapply applyOperations_same_location; [done|].
    eapply Forall_impl; [exact Hall|]. by intros op [_ ?]. }
  assert (slug_url ∉ List.map op_field ops) as Hno.
  { intros (op & Hf & Hop)%list_elem_of_fmap.
    rewrite Forall_forall in Hall. by destruct (Hall op Hop). }
  split.
  - rewrite replaceRow_targeted, Hloc. cbn [ReplaceRoute.updateSlugUrl fst].
    by apply applyOperations_untouched.
  - unfold ReplaceRoute.replaceRow.
    destruct (applyOperations_events headers ops r [] 0%nat None)
      as (added & H1 & _ & H3).
    destruct (ReplaceRoute.applyOperations headers ops r [] 0 None)
      as [[[r1 ev1] n1] loc]. cbn [fst snd] in *. subst loc ev1.
    cbn [ReplaceRoute.updateSlugUrl out_events].
    eapply Forall_impl; [exact H3|]. intros e (_ & _ & He) Hs.
    rewrite Forall_forall in Hall. destruct (Hall _ He) as [Hne _].
    by cbn in Hne.
Qed.

(** X22.  After the fix of a targeted row whose trimmed slug ends with
    [-salary] and whose location normalizes to a non-empty string, the
    trimmed slug of the row ends with [-salary-] and the normalized
    location, and the location is as it was. *)
Theorem fixed_slug_ends_with_location (r : row) :
  let cur := JsString.trim (Row.cell r slug_url) in
  let norm := normalizeToKebabCase (JsString.trim (Row.cell r location)) in
  JsString.endsWith cur salary = true ->
  norm <> [] ->
  let r' := out_row (FixSlugUrlsRoute.fixRow true r) in
  JsString.endsWith (JsString.trim (Row.cell r' slug_url))
    (salary ++ [JsString.hyphen] ++ norm) = true
  /\ Row.cell r' location = Row.cell r location.
Proof.
  cbn zeta. intros Hends Hnorm. unfold FixSlugUrlsRoute.fixRow.
  rewrite Hends.
  assert (JsString.truthy
            (normalizeToKebabCase (JsString.trim (Row.cell r location))) = true)
    as -> by (by destruct (normalizeToKebabCase _)).
  destruct (JsString.endsWith (JsString.trim (Row.cell r slug_url))
              (salary ++ [JsString.hyphen]
               ++ normalizeToKebabCase (JsString.trim (Row.cell r location))))
    eqn:Hexp; cbn [negb out_row]; [by split|].
  rewrite cell_set_eq, cell_set_ne by done.
  destruct (fixed_slug_shape (JsString.trim (Row.cell r slug_url))
              (normalizeToKebabCase (JsString.trim (Row.cell r location))))
    as [-> ->]; [apply trim_headFree | done | done | apply normalize_no_space |].
  done.
Qed.

End SlugKept.

(** ** The output of the normalizer *)

Section NormalizerOutput.
Context `{!JsRuntime}.

Lemma dropWhileEnd_last p s c :
  last (JsString.dropWhileEnd p s) = Some c -> p c = false.
Proof.
  induction s as [|a t IH]; [done|]. cbn [JsString.dropWhileEnd].
  destruct (JsString.dropWhileEnd p t) as [|x l] eqn:E.
  - destruct (p a) eqn:Ha; [done|]. by intros [= <-].
  - intros Hl. apply IH. by rewrite <- Hl.
Qed.

(** X23.  With a runtime that behaves as JavaScript does on ASCII, what the
    normalizer returns is a slug: every character is one of
    [a-z0-9_-], no two hyphens are adjacent, and neither the first nor
    the last character is a hyphen. *)
Theorem normalizeToKebabCase_gives_slug `{!JsRuntimeLaws} (input : jsstring) :
  let o := normalizeToKebabCase input in
  Forall (fun c => isSlugChar c = true) o
  /\ noAdjacent JsString.isHyphen o = true
  /\ head o <> Some JsString.hyphen
  /\ last o <> Some JsString.hyphen.
Proof.
  cbn zeta. destruct (normalize_shape input) as (Hadj & Hl & Hr).
  cbn zeta in *. split; [apply normalize_slug|]. split; [done|]. split.
  - pose proof (dropWhile_headFree JsString.isHyphen
                  (normalizeToKebabCase input)) as Hh.
    rewrite Hl in Hh. destruct (normalizeToKebabCase input) as [|c t]; [done|].
    cbn in *. intros [= ->]. done.
  - intros Hlast. rewrite <- Hr in Hlast.
    by apply dropWhileEnd_last in Hlast.
Qed.

End NormalizerOutput.

(** ** The detection endpoint *)

Section Detection.

Import DetectRoute.

Lemma insertSorted_Permutation {A} (le : A -> A -> bool) x l :
  insertSorted le x l ≡ₚ x :: l.
Proof.
  induction l as [|y l IH]; cbn [insertSorted]; [done|].
  destruct (le x y); [done|]. rewrite IH. apply Permutation_swap.
Qed.

Lemma sortBy_Permutation {A} (le : A -> A -> bool) l : sortBy le l ≡ₚ l.
Proof.
  induction l as [|x l IH]; [done|].
  cbn [sortBy fold_right]. rewrite insertSorted_Permutation.
  by apply Permutation_skip.
Qed.

Lemma setAdd_elem s x y : y ∈ setAdd s x <-> y ∈ s \/ y = x.
Proof.
  unfold setAdd. destruct (bool_decide (x ∈ s)) eqn:E.
  - apply bool_decide_eq_true in E. split; [by left|]. by intros [?| ->].
  - rewrite elem_of_app, list_elem_of_singleton. done.
Qed.

Lemma setAdd_NoDup s x : NoDup s -> NoDup (setAdd s x).
Proof.
  intros Hnd. unfold setAdd. destruct (bool_decide (x ∈ s)) eqn:E; [done|].
  apply bool_decide_eq_false in E. apply NoDup_app.
  split; [done|]. split; [|apply NoDup_singleton].
  by intros y Hy ->%list_elem_of_singleton.
Qed.

Lemma setAdd_length s x : (length (setAdd s x) <= S (length s))%nat.
Proof.
  unfold setAdd. destruct (bool_decide _); [lia|].
  rewrite length_app. cbn. lia.
Qed.

Lemma detectRow_invariant origin (hasState hasLocation : bool) d r :
  (hasLocation = true ->
   origin (if hasState then JsString.trim (Row.cell r state) else [])
          (JsString.trim (Row.cell r location))) ->
  detectInvariant origin d ->
  detectInvariant origin (detectRow hasState hasLocation d r).
Proof.
  intros Horigin Hinv. unfold detectRow.
  set (s := if hasState then JsString.trim (Row.cell r state) else []) in *.
  destruct hasLocation; [|done]. specialize (Horigin eq_refl).
  set (l := JsString.trim (Row.cell r location)) in *.
  destruct (JsString.truthy l) eqn:Hl; [|done].
  destruct (bool_decide (comboKey s l ∈ stateLocationSet d)) eqn:Hkey; [done|].
  apply bool_decide_eq_false in Hkey. cbn [negb].
  destruct Hinv as (I1 & I2 & I3 & I4 & I5 & I6 & I7 & I8 & I9).
  unfold detectInvariant.
  cbn [uniqueStatesSet uniqueLocationsSet stateLocationSet combosSoFar].
  assert (forall x, x ∈ (if JsString.truthy s
                         then setAdd (uniqueStatesSet d) s
                         else uniqueStatesSet d)
                    <-> x ∈ uniqueStatesSet d \/ (x = s /\ s <> [])) as Hst.
  { intros x. destruct s as [|c t] eqn:Es; cbn [JsString.truthy].
    - split; [by left | by intros [?|[_ ?]]].
    - rewrite setAdd_elem. split; intros [?|?]; [by left | by right | by left|].
      right. by destruct H. }
  split; [by destruct (JsString.truthy s); [apply setAdd_NoDup|]|].
  split; [by apply setAdd_NoDup|].
  split.
  { apply NoDup_app. split; [done|]. split; [|apply NoDup_singleton].
    by intros y Hy ->%list_elem_of_singleton. }
  split; [by rewrite map_app, I4|].
  split.
  { rewrite length_app. cbn [length].
    destruct (JsString.truthy s); [|lia].
    pose proof (setAdd_length (uniqueStatesSet d) s). lia. }
  split.
  { rewrite length_app. cbn [length].
    pose proof (setAdd_length (uniqueLocationsSet d) l). lia. }
  split; [|split].
  - intros s' l' [Hin|Heq%list_elem_of_singleton]%elem_of_app;
      [|injection Heq as -> ->].
    + destruct (I7 s' l' Hin) as (J1 & J2 & J3 & J4).
      split; [done|]. split; [apply setAdd_elem; by left|].
      split; [|done]. intros Hne. apply Hst. left. by apply J3.
    + split; [by destruct l|]. split; [apply setAdd_elem; by right|].
      split; [|done]. intros Hne. apply Hst. by right.
  - intros l' [Hin| ->]%setAdd_elem.
    + destruct (I8 l' Hin) as [s' Hs']. exists s'. apply elem_of_app. by left.
    + exists s. apply elem_of_app. right. by apply list_elem_of_singleton.
  - intros s' [Hin|[-> Hne]]%Hst.
    + destruct (I9 s' Hin) as [Hne [l' Hl']]. split; [done|].
      exists l'. apply elem_of_app. by left.
    + split; [done|]. exists l. apply elem_of_app. right.
      by apply list_elem_of_singleton.
Qed.

Lemma detectRows_invariant origin (hasState hasLocation : bool) rows d :
  (forall r, r ∈ rows -> hasLocation = true ->
     origin (if hasState then JsString.trim (Row.cell r state) else [])
            (JsString.trim (Row.cell r location))) ->
  detectInvariant origin d ->
  detectInvariant origin (fold_left (detectRow hasState hasLocation) rows d).
Proof.
  revert d. induction rows as [|r rows IH]; intros d Horigin Hinv; [done|].
  cbn [fold_left]. apply IH.
  - intros r' Hr'. apply Horigin. by apply elem_of_cons; right.
  - apply detectRow_invariant; [|done]. apply Horigin. by apply elem_of_cons; left.
Qed.

Lemma detectFile_invariant w fs file d :
  file ∈ fs ->
  detectInvariant (fromRow w fs) d ->
  detectInvariant (fromRow w fs) (detectFile w d file).
Proof.
  intros Hfile Hinv. unfold detectFile.
  destruct (download w (path file)) as [| |rows] eqn:Hdl; [done|done|].
  destruct (length rows =? 0)%nat; [done|].
  destruct (negb _ && negb _); [done|].
  apply detectRows_invariant; [|done].
  intros r Hr Hloc. exists file, rows, r.
  apply bool_decide_eq_true in Hloc. repeat split; try done.
  destruct (hasHeader (headersOf rows) state); [by left | by right].
Qed.

Lemma detectFiles_invariant w fs xs d :
  Forall (fun file => file ∈ fs) xs ->
  detectInvariant (fromRow w fs) d ->
  detectInvariant (fromRow w fs) (fold_left (detectFile w) xs d).
Proof.
  revert d. induction xs as [|x xs IH]; intros d Hall Hinv; [done|].
  apply Forall_cons in Hall as [Hx Hall]. cbn [fold_left].
  apply IH; [done|]. by apply detectFile_invariant.
Qed.

Lemma nothingDetected_invariant origin : detectInvariant origin nothingDetected.
Proof.
  unfold detectInvariant. cbn.
  repeat split; try constructor; try (by intros ? ?%elem_of_nil);
    try (by intros ? ? ?%elem_of_nil); by apply elem_of_nil in H.
Qed.

(** X24.  What the detection reports.  [totalFiles] is the number of files
    of the request, readable or not.  No state, location or
    combination key is reported twice, and there are at most as many
    states, and as many locations, as combinations.  Every combination
    has a non-empty location that is among the locations, a state that
    is empty or among the states, and comes from a row of a file of the
    request; every location and every state reported occurs in a
    combination, and no state reported is empty. *)
Theorem detect_reports_what_rows_hold (w : World)
    (localeCompare : jsstring -> jsstring -> Z) (fs : list FileRef)
    (resp : DetectResponse) :
  POST w localeCompare fs = Some resp ->
  dr_totalFiles resp = length fs
  /\ NoDup (uniqueStates resp) /\ NoDup (uniqueLocations resp)
  /\ NoDup (List.map (fun c => comboKey c.1 c.2) (stateLocationCombos resp))
  /\ (totalStates resp <= totalCombinations resp)%nat
  /\ (totalLocations resp <= totalCombinations resp)%nat
  /\ (forall s l, (s, l) ∈ stateLocationCombos resp ->
        l <> [] /\ l ∈ uniqueLocations resp
        /\ (s <> [] -> s ∈ uniqueStates resp) /\ fromRow w fs s l)
  /\ (forall l, l ∈ uniqueLocations resp ->
        exists s, (s, l) ∈ stateLocationCombos resp)
  /\ (forall s, s ∈ uniqueStates resp ->
        s <> [] /\ exists l, (s, l) ∈ stateLocationCombos resp).
Proof.
  unfold POST. destruct (length fs =? 0)%nat; [done|]. intros [= <-].
  cbn [dr_totalFiles uniqueStates uniqueLocations stateLocationCombos
       totalStates totalLocations totalCombinations].
  destruct (detectFiles_invariant w fs fs nothingDetected)
    as (I1 & I2 & I3 & I4 & I5 & I6 & I7 & I8 & I9);
    [by apply Forall_forall | apply nothingDetected_invariant |].
  set (d := fold_left (detectFile w) fs nothingDetected) in *.
  rewrite !sortBy_Permutation.
  split; [done|]. split; [done|]. split; [done|].
  split; [by rewrite <- I4|].
  split; [done|]. split; [done|].
  split; [|split].
  - intros s l Hin. rewrite sortBy_Permutation in Hin.
    destruct (I7 s l Hin) as (J1 & J2 & J3 & J4).
    split; [done|]. split; [by rewrite sortBy_Permutation|].
    split; [|done]. intros Hne. rewrite sortBy_Permutation. by apply J3.
  - intros l Hin. rewrite sortBy_Permutation in Hin.
    destruct (I8 l Hin) as [s Hs]. exists s. by rewrite sortBy_Permutation.
  - intros s Hin. rewrite sortBy_Permutation in Hin.
    destruct (I9 s Hin) as [Hne [l Hl]]. split; [done|].
    exists l. by rewrite sortBy_Permutation.
Qed.

(** Keys only accumulate. *)
Lemma detectRow_mono hasState hasLocation d r k :
  k ∈ stateLocationSet d -> k ∈ stateLocationSet (detectRow hasState hasLocation d r).
Proof.
  intros Hk. unfold detectRow.
  destruct (JsString.truthy _); [|done]. destruct (negb _); [|done].
  cbn. apply elem_of_app. by left.
Qed.

Lemma detectRows_mono hasState hasLocation rows d k :
  k ∈ stateLocationSet d ->
  k ∈ stateLocationSet (fold_left (detectRow hasState hasLocation) rows d).
Proof.
  revert d. induction rows as [|r rows IH]; intros d Hk; [done|].
  cbn [fold_left]. by apply IH, detectRow_mono.
Qed.

Lemma detectFile_mono w d file k :
  k ∈ stateLocationSet d -> k ∈ stateLocationSet (detectFile w d file).
Proof.
  intros Hk. unfold detectFile.
  destruct (download w (path file)); [done|done|].
  destruct (_ =? _)%nat; [done|]. destruct (_ && _); [done|].
  by apply detectRows_mono.
Qed.

Lemma detectFiles_mono w xs d k :
  k ∈ stateLocationSet d -> k ∈ stateLocationSet (fold_left (detectFile w) xs d).
Proof.
  revert d. induction xs as [|x xs IH]; intros d Hk; [done|].
  cbn [fold_left]. by apply IH, detectFile_mono.
Qed.

Lemma detectRows_has (hasState : bool) rows d r :
  r ∈ rows -> JsString.trim (Row.cell r location) <> [] ->
  comboKey (if hasState then JsString.trim (Row.cell r state) else [])
           (JsString.trim (Row.cell r location))
  ∈ stateLocationSet (fold_left (detectRow hasState true) rows d).
Proof.
  intros Hr Hne. revert d.
  induction rows as [|r' rows IH]; intros d; [by apply elem_of_nil in Hr|].
  cbn [fold_left]. apply elem_of_cons in Hr as [<-|Hr]; [|by apply IH].
  apply detectRows_mono. unfold detectRow.
  destruct (JsString.trim (Row.cell r location)) as [|c t] eqn:El; [done|].
  cbn [JsString.truthy].
  destruct (bool_decide (_ ∈ stateLocationSet d)) eqn:E; cbn [negb].
  - by apply bool_decide_eq_true in E.
  - cbn. apply elem_of_app. right. by apply list_elem_of_singleton.
Qed.

Lemma detectFiles_has w fs file rows r :
  file ∈ fs -> download w (path file) = Parsed rows -> r ∈ rows ->
  location ∈ headersOf rows ->
  JsString.trim (Row.cell r location) <> [] ->
  comboKey (if hasHeader (headersOf rows) state
            then JsString.trim (Row.cell r state) else [])
           (JsString.trim (Row.cell r location))
  ∈ stateLocationSet (fold_left (detectFile w) fs nothingDetected).
Proof.
  intros Hfile Hdl Hr Hloc Hne. generalize nothingDetected.
  induction fs as [|x xs IH]; intros d; [by apply elem_of_nil in Hfile|].
  cbn [fold_left]. apply elem_of_cons in Hfile as [<-|Hfile]; [|by apply IH].
  apply detectFiles_mono. unfold detectFile. rewrite Hdl.
  destruct rows as [|r0 rows0] eqn:Erows; [by apply elem_of_nil in Hr|].
  rewrite <- Erows in *. assert ((length rows =? 0)%nat = false) as ->
    by (by rewrite Erows).
  assert (hasHeader (headersOf rows) location = true) as Hl
    by (by apply bool_decide_eq_true).
  rewrite Hl. cbn [negb]. rewrite andb_false_r.
  by apply detectRows_has.
Qed.

(** A key splits in one way into a state and a location that hold no
    vertical bar. *)
Lemma free_prefix_unique (x x' rest rest' : jsstring) :
  124 ∉ x -> 124 ∉ x' -> x ++ 124 :: rest = x' ++ 124 :: rest' ->
  x = x' /\ rest = rest'.
Proof.
  revert x'. induction x as [|a x IH]; intros [|a' x'] Hx Hx'; cbn [app].
  - by intros [= ->].
  - intros [= <- _]. exfalso. apply Hx'. by left.
  - intros [= -> _]. exfalso. apply Hx. by left.
  - intros [= <- Heq]. apply not_elem_of_cons in Hx as [_ Hx].
    apply not_elem_of_cons in Hx' as [_ Hx'].
    by destruct (IH x' Hx Hx' Heq) as [-> ->].
Qed.

Lemma bars_app (x y : jsstring) :
  length (List.filter (Z.eqb 124) (x ++ y))
  = (length (List.filter (Z.eqb 124) x) + length (List.filter (Z.eqb 124) y))%nat.
Proof. by rewrite List.filter_app, length_app. Qed.

Lemma bars_none (x : jsstring) :
  124 ∉ x <-> length (List.filter (Z.eqb 124) x) = 0%nat.
Proof.
  induction x as [|a x IH]; cbn [List.filter]; [split; [done|]|].
  - by intros _ ?%elem_of_nil.
  - rewrite not_elem_of_cons, IH. destruct (Z.eqb_spec 124 a); cbn [length].
    + split; [by intros [? _] | done].
    + split; [by intros [_ ?] | done].
Qed.

Lemma comboKey_inj s l s' l' :
  124 ∉ s -> 124 ∉ l -> comboKey s l = comboKey s' l' -> s = s' /\ l = l'.
Proof.
  intros Hs Hl Heq. unfold comboKey, comboSeparator in Heq.
  assert ((124 ∉ s') /\ (124 ∉ l')) as [Hs' Hl'].
  { apply (f_equal (fun x => length (List.filter (Z.eqb 124) x))) in Heq.
    rewrite !bars_app in Heq. cbn in Heq.
    apply bars_none in Hs, Hl. rewrite !bars_none. lia. }
  cbn [app] in Heq.
  destruct (free_prefix_unique _ _ _ _ Hs Hs' Heq) as [-> [= ->]]. done.
Qed.

(** X25.  The detection is complete for values without a vertical bar: a row
    of a parsed file of the request that has a [location] column, whose
    trimmed location is not empty, has its state and location reported
    as a combination, its location among the locations and its state,
    when not empty, among the states.  (The state is the trimmed
    [state] cell, or the empty string when the file has no [state]
    column.) *)
Theorem detect_finds_every_pair (w : World)
    (localeCompare : jsstring -> jsstring -> Z) (fs : list FileRef)
    (resp : DetectResponse) (file : FileRef) (rows : list row) (r : row) :
  POST w localeCompare fs = Some resp ->
  file ∈ fs -> download w (path file) = Parsed rows -> r ∈ rows ->
  location ∈ headersOf rows ->
  let l := JsString.trim (Row.cell r location) in
  let s := if hasHeader (headersOf rows) state
           then JsString.trim (Row.cell r state) else [] in
  l <> [] -> 124 ∉ s -> 124 ∉ l ->
  (s, l) ∈ stateLocationCombos resp
  /\ l ∈ uniqueLocations resp
  /\ (s <> [] -> s ∈ uniqueStates resp).
Proof.
  intros Hpost Hfile Hdl Hr Hloc. cbn zeta. intros Hne Hs Hl.
  pose proof (detectFiles_has w fs file rows r Hfile Hdl Hr Hloc Hne) as Hkey.
  revert Hpost. unfold POST. destruct (length fs =? 0)%nat; [done|].
  intros [= <-]. cbn [uniqueStates uniqueLocations stateLocationCombos].
  destruct (detectFiles_invariant w fs fs nothingDetected)
    as (_ & _ & _ & I4 & _ & _ & I7 & _ & _);
    [by apply Forall_forall | apply nothingDetected_invariant |].
  rewrite I4 in Hkey. apply list_elem_of_fmap in Hkey as ([s' l'] & Heq & Hin).
  cbn [fst snd] in Heq.
  destruct (comboKey_inj _ _ _ _ Hs Hl Heq) as [<- <-].
  destruct (I7 _ _ Hin) as (_ & J2 & J3 & _).
  rewrite !sortBy_Permutation. done.
Qed.

End Detection.

(** ** The listing endpoint *)

Section Listing.
Context `{!JsRuntime}.

Import FilesRoute.

Lemma childPath_shape dir n :
  JsString.startsWith (childPath dir n) dir = true
  /\ JsString.endsWith (childPath dir n) (slash ++ n) = true.
Proof.
  unfold childPath. destruct (JsString.eqb dir slash) eqn:E.
  - apply eqb_true in E as ->. split; [apply startsWith_app|].
    apply (endsWith_app []).
  - split; [apply startsWith_app | apply endsWith_app].
Qed.

Lemma startsWith_trans s p q :
  JsString.startsWith s p = true -> JsString.startsWith p q = true ->
  JsString.startsWith s q = true.
Proof.
  intros [t ->]%startsWith_inv [u ->]%startsWith_inv.
  rewrite <- app_assoc. apply startsWith_app.
Qed.

(** The files found are added after the ones already there. *)
Lemma listing_accumulates :
  (forall d dir allFiles,
     getAllCSVFilesRecursive dir d allFiles
     = allFiles ++ getAllCSVFilesRecursive dir d [])
  /\ (forall fs dir allFiles,
        subdirectories dir fs allFiles = allFiles ++ subdirectories dir fs []).
Proof.
  apply Dir_Folders_ind.
  - intros dir allFiles. cbn. by rewrite app_nil_r.
  - intros fileNames fs IH dir allFiles. cbn [getAllCSVFilesRecursive].
    rewrite IH. rewrite (IH dir ([] ++ _)). by rewrite <- app_assoc.
  - intros dir allFiles. cbn. by rewrite app_nil_r.
  - intros n content IHc rest IHr dir allFiles. cbn [subdirectories].
    rewrite IHr, IHc. rewrite (IHr dir (getAllCSVFilesRecursive _ _ [])).
    by rewrite <- app_assoc.
Qed.

(** X26.  The listing is depth first and only adds: what a call finds goes
    after the files already collected, which are kept as they are; a
    directory gives its own CSV files in the order of the listing, then
    what each folder holds, folder after folder; a directory that cannot
    be listed adds nothing and does not stop the listing of the
    others. *)
Theorem listing_is_depth_first (dir : jsstring) :
  (forall d allFiles,
     getAllCSVFilesRecursive dir d allFiles
     = allFiles ++ getAllCSVFilesRecursive dir d [])
  /\ getAllCSVFilesRecursive dir Unreadable [] = []
  /\ (forall fileNames fs,
        getAllCSVFilesRecursive dir (Listed fileNames fs) []
        = List.map (fun n => {| path := childPath dir n; name := n |})
                   (List.filter isCsv fileNames)
          ++ subdirectories dir fs [])
  /\ (forall n content rest,
        subdirectories dir (folder n content rest) []
        = getAllCSVFilesRecursive (childPath dir n) content []
          ++ subdirectories dir rest []).
Proof.
  destruct listing_accumulates as [Hd Hf].
  split; [by intros d allFiles; apply Hd|]. split; [done|]. split.
  - intros fileNames fs. cbn [getAllCSVFilesRecursive]. by rewrite Hf.
  - intros n content rest. cbn [subdirectories]. by rewrite Hf.
Qed.

Lemma listing_sound :
  (forall d dir f,
     f ∈ getAllCSVFilesRecursive dir d [] ->
     isCsv (name f) = true
     /\ JsString.startsWith (path f) dir = true
     /\ JsString.endsWith (path f) (slash ++ name f) = true)
  /\ (forall fs dir f,
        f ∈ subdirectories dir fs [] ->
        isCsv (name f) = true
        /\ JsString.startsWith (path f) dir = true
        /\ JsString.endsWith (path f) (slash ++ name f) = true).
Proof.
  destruct listing_accumulates as [Hd Hf].
  apply Dir_Folders_ind.
  - by intros dir f ?%elem_of_nil.
  - intros fileNames fs IH dir f. cbn [getAllCSVFilesRecursive].
    rewrite Hf. cbn [app]. intros [Hin|Hin]%elem_of_app; [|by apply IH].
    apply list_elem_of_fmap in Hin as (n & -> & Hn).
    apply list_elem_of_In, filter_In in Hn as [_ Hn]. cbn [name path].
    split; [done|]. apply childPath_shape.
  - by intros dir f ?%elem_of_nil.
  - intros n content IHc rest IHr dir f. cbn [subdirectories].
    rewrite Hf. intros [Hin|Hin]%elem_of_app; [|by apply IHr].
    destruct (IHc _ _ Hin) as (H1 & H2 & H3). split; [done|]. split; [|done].
    eapply startsWith_trans; [exact H2|]. apply childPath_shape.
Qed.

(** X27.  Every file the listing endpoint returns has a name that ends with
    [.csv] once in lower case, and a path that starts with the
    directory asked for ([/] when the request names none) and ends with
    [/] and the name of the file. *)
Theorem listing_returns_csv_files (pathParam : option jsstring)
    (tree : jsstring -> Dir) (f : FileRef) :
  f ∈ GET pathParam tree ->
  isCsv (name f) = true
  /\ JsString.startsWith (path f)
       (match pathParam with Some (c :: t) => c :: t | _ => slash end) = true
  /\ JsString.endsWith (path f) (slash ++ name f) = true.
Proof. unfold GET. apply listing_sound. Qed.

End Listing.

(** ** The advanced replace, row by row *)

Section AdvancedReplace.
Context `{!JsRuntime}.

(** X28.  An iteration of the advanced-mode row loop that does not throw
    counts at most one replacement and changes at most the target
    field.  It counts none exactly when it leaves the row as it is; it
    counts one only for a matching row, in replace mode, when the target
    is a column of the file and holds another value, and the row then
    gets the new value under the target and one event, from the old to
    the new value. *)
Theorem advanced_row_changes_only_target (adv : AdvancedSearchConfig)
    (headers : list jsstring) (mode : option (jsstring * jsstring))
    (showOnly : bool) (r : row) (o : RowOutcome) :
  ProcessRoute.advancedRow adv headers mode showOnly r = Some o ->
  (out_replacements o <= 1)%nat
  /\ (forall f, (forall t v, mode = Some (t, v) -> f <> t) ->
        Row.get (out_row o) f = Row.get r f)
  /\ (out_replacements o = 0%nat -> out_row o = r)
  /\ (out_replacements o = 1%nat ->
      exists t v,
        mode = Some (t, v) /\ t ∈ headers /\ out_matched o = true
        /\ Row.cell r t <> v /\ out_row o = Row.set r t v
        /\ out_events o = [{| ev_field := t; ev_oldValue := Row.cell r t;
                              ev_newValue := v |}]).
Proof.
  unfold ProcessRoute.advancedRow.
  destruct (ProcessRoute.rowMatchesAdvanced r headers adv) as [[b fs]|]; [|done].
  cbn [mbind option_bind].
  assert (forall pushed matched events,
            let o := {| out_row := r; out_pushed := pushed;
                        out_matched := matched; out_events := events;
                        out_replacements := 0 |} in
            (out_replacements o <= 1)%nat
            /\ (forall f, (forall t v, mode = Some (t, v) -> f <> t) ->
                  Row.get (out_row o) f = Row.get r f)
            /\ (out_replacements o = 0%nat -> out_row o = r)
            /\ (out_replacements o = 1%nat ->
                exists t v,
                  mode = Some (t, v) /\ t ∈ headers /\ out_matched o = true
                  /\ Row.cell r t <> v /\ out_row o = Row.set r t v
                  /\ out_events o
                     = [{| ev_field := t; ev_oldValue := Row.cell r t;
                           ev_newValue := v |}])) as Hsame.
  { intros pushed matched events. cbn. split; [lia|]. by repeat split. }
  destruct (negb b); [intros [= <-]; apply Hsame|].
  destruct mode as [[t v]|]; [|intros [= <-]; apply Hsame].
  destruct (hasHeader headers t) eqn:Hh; [|intros [= <-]; apply Hsame].
  apply bool_decide_eq_true in Hh.
  destruct (JsString.eqb v (Row.cell r t)) eqn:E; cbn [negb]; intros [= <-];
    [apply Hsame|].
  cbn [out_row out_replacements out_matched out_events].
  apply eqb_false in E. split; [lia|]. split; [|split; [done|]].
  - intros f Hf. apply get_set_ne. intros Heq.
    exact (Hf t v eq_refl (eq_sym Heq)).
  - intros _. exists t, v. repeat split; try done.
Qed.

End AdvancedReplace.

(** ** The further properties on concrete inputs *)

Section FurtherExamples.
#[local] Existing Instance Latin1.runtime.
#[local] Existing Instance latin1_laws.

Lemma advanced_and_or_witness :
  ProcessRoute.rowMatchesAdvanced rowPlain [title; note]
    {| conditions := [{| cond_field := title; cond_value := str "zzz";
                         cond_mode := Some equals |};
                      {| cond_field := note; cond_value := str "e";
                         cond_mode := None |}];
       logic := Some OR; adv_caseSensitive := false |}
  = Some (true, [note]).
Proof.
  refine (advanced_and_or rowPlain [title; note]
            {| conditions := [{| cond_field := title; cond_value := str "zzz";
                                 cond_mode := Some equals |};
                              {| cond_field := note; cond_value := str "e";
                                 cond_mode := None |}];
               logic := Some OR; adv_caseSensitive := false |} _ _).
  - vm_compute. discriminate.
  - repeat constructor; by eexists.
Defined.

Lemma and_match_is_or_match_witness :
  exists fs',
    ProcessRoute.rowMatchesAdvanced rowPlain [title; note]
      {| conditions := [{| cond_field := title; cond_value := str "abc";
                           cond_mode := Some equals |}];
         logic := Some OR; adv_caseSensitive := true |}
    = Some (true, fs').
Proof.
  exact (and_match_is_or_match rowPlain [title; note]
           [{| cond_field := title; cond_value := str "abc";
               cond_mode := Some equals |}] true [title] eq_refl).
Defined.

Lemma or_all_fields_missing_witness :
  ProcessRoute.rowMatchesAdvanced rowPlain [title; note]
    {| conditions := [{| cond_field := str "missing"; cond_value := str "abc";
                         cond_mode := Some equals |}];
       logic := Some OR; adv_caseSensitive := true |}
  = Some (false, [])
  /\ ProcessRoute.rowMatchesAdvanced rowPlain [title; note]
       {| conditions := [{| cond_field := str "missing"; cond_value := str "(";
                            cond_mode := Some regex |}];
          logic := Some OR; adv_caseSensitive := true |}
     = None.
Proof.
  split.
  - refine (proj1 (or_all_fields_missing rowPlain [title; note]
                     [{| cond_field := str "missing"; cond_value := str "abc";
                         cond_mode := Some equals |}] true _ _) _).
    + vm_compute. discriminate.
    + repeat constructor. refine (proj1 (bool_decide_eq_false _) _). reflexivity.
    + repeat constructor; by eexists.
  - refine (proj1 (proj2 (or_all_fields_missing rowPlain [title; note]
                            [{| cond_field := str "missing"; cond_value := str "(";
                                cond_mode := Some regex |}] true _ _)) _).
    + vm_compute. discriminate.
    + repeat constructor. refine (proj1 (bool_decide_eq_false _) _). reflexivity.
    + intros Hall. apply Forall_cons in Hall as [[t Ht] _]. vm_compute in Ht.
      discriminate.
Defined.

Lemma equals_implies_other_modes_witness :
  exists test',
    ProcessRoute.buildFieldMatcher
      {| cond_field := title; cond_value := str "abc";
         cond_mode := Some startsWith |} false
    = Some test'
    /\ test' (str "ABC") = true.
Proof.
  refine (equals_implies_other_modes title (str "abc") (str "ABC") false
            _ eq_refl eq_refl (Some startsWith) _).
  discriminate.
Defined.

Lemma process_counters_consistent_witness :
  exists st,
    ProcessRoute.POST (oneFile [rowFooBar; rowPlain])
      (simpleRequest (str "foo") None false filebrowser) = Some st
    /\ totalFiles (stats st) = 1%nat
    /\ countersConsistent st
    /\ (length (saved st) <= processedFiles (stats st))%nat.
Proof.
  eexists. split; [reflexivity|].
  apply (process_counters_consistent (oneFile [rowFooBar; rowPlain])
           (simpleRequest (str "foo") None false filebrowser)).
  reflexivity.
Defined.

Lemma replace_counters_consistent_witness :
  exists st,
    ReplaceRoute.POST (oneFile [engineerRow])
      (replaceRequest location (str "New")) = Some st
    /\ totalFiles (stats st) = 1%nat
    /\ countersConsistent st /\ replaceInvariant st.
Proof.
  eexists. split; [reflexivity|].
  apply (proj1 (replace_counters_consistent (oneFile [engineerRow]))
           (replaceRequest location (str "New"))).
  reflexivity.
Defined.

Lemma search_mode_writes_nothing_witness :
  exists st,
    ProcessRoute.POST (oneFile [rowFooBar; rowPlain])
      (simpleRequest (str "foo") None false filebrowser) = Some st
    /\ saved st = [] /\ totalReplacements (stats st) = 0%nat.
Proof.
  eexists. split; [reflexivity|].
  apply (search_mode_writes_nothing (oneFile [rowFooBar; rowPlain])
           (simpleRequest (str "foo") None false filebrowser));
    reflexivity.
Defined.

Lemma panel_search_writes_nothing_witness :
  exists req,
    CSVProcessorPanelSearch.startProcessing
      [{| path := aCsv; name := str "a.csv" |}]
      (CSVProcessorPanelSearch.handleEditFromState (str "abc"))
      AND false true = Some req
    /\ exists st,
         ProcessRoute.POST (oneFile [rowFooBar; rowPlain]) req = Some st
         /\ totalFiles (stats st) = 1%nat
         /\ saved st = [] /\ totalReplacements (stats st) = 0%nat.
Proof.
  eexists. split; [reflexivity|].
  exact (panel_search_writes_nothing (oneFile [rowFooBar; rowPlain])
           [{| path := aCsv; name := str "a.csv" |}]
           (CSVProcessorPanelSearch.handleEditFromState (str "abc"))
           AND false true _ eq_refl).
Defined.

Lemma simple_counts_rows_once_witness :
  totalRows (stats (ProcessRoute.processFileSimple (oneFile [rowFooBar; rowPlain])
                      (simpleRequest (str "o") None false filebrowser)
                      (str "o") {| path := aCsv; name := str "a.csv" |}
                      (initState 1)).1) = 2%nat
  /\ processedRows
       (stats (ProcessRoute.processFileSimple (oneFile [rowFooBar; rowPlain])
                 (simpleRequest (str "o") None false filebrowser)
                 (str "o") {| path := aCsv; name := str "a.csv" |}
                 (initState 1)).1) = 2%nat
  /\ totalMatches
       (stats (ProcessRoute.processFileSimple (oneFile [rowFooBar; rowPlain])
                 (simpleRequest (str "o") None false filebrowser)
                 (str "o") {| path := aCsv; name := str "a.csv" |}
                 (initState 1)).1) = 1%nat.
Proof.
  exact (simple_counts_rows_once (oneFile [rowFooBar; rowPlain])
           (simpleRequest (str "o") None false filebrowser)
           (str "o") {| path := aCsv; name := str "a.csv" |}
           [rowFooBar; rowPlain]
           (fun text => JsString.includes text (str "o")) (initState 1)
           eq_refl eq_refl).
Defined.

Lemma unreadable_file_is_skipped_witness :
  (forEach ([] ++ {| path := str "/data/gone.csv"; name := str "gone.csv" |}
               :: [{| path := aCsv; name := str "a.csv" |}])
           (ProcessRoute.processFileSimple (oneFile [rowFooBar; rowPlain])
              (simpleRequest (str "foo") None false filebrowser) (str "foo"))
           (initState 2)).1
  = (forEach ([] ++ [{| path := aCsv; name := str "a.csv" |}])
             (ProcessRoute.processFileSimple (oneFile [rowFooBar; rowPlain])
                (simpleRequest (str "foo") None false filebrowser) (str "foo"))
             (initState 2)).1.
Proof.
  refine (proj1 (unreadable_file_is_skipped (oneFile [rowFooBar; rowPlain])
                   (str "/data/gone.csv") _)
            (simpleRequest (str "foo") None false filebrowser) (str "foo")
            (str "gone.csv") [] [{| path := aCsv; name := str "a.csv" |}]
            (initState 2)).
  intros rows. vm_compute. discriminate.
Defined.

Lemma missing_field_skips_file_witness :
  (ReplaceRoute.processFile (oneFile [rowFooBar; rowPlain])
     [{| op_field := title; op_value := str "X" |};
      {| op_field := str "missing"; op_value := str "Y" |}]
     filebrowser (aCsv, firstRow) (initState 1)).1
  = {| stats := addTotalRows 2 (stats (initState 1)); saved := [] |}.
Proof.
  refine (proj1 (missing_field_skips_file (oneFile [rowFooBar; rowPlain]) aCsv
                   firstRow [rowFooBar; rowPlain] filebrowser (initState 1)
                   eq_refl)
            [{| op_field := title; op_value := str "X" |};
             {| op_field := str "missing"; op_value := str "Y" |}]
            {| op_field := str "missing"; op_value := str "Y" |} _ _).
  - repeat constructor.
  - refine (proj1 (bool_decide_eq_false _) _). reflexivity.
Defined.


Lemma panel_fix_is_accepted_witness :
  exists req,
    CSVProcessorPanelFix.startFixSlugUrls true [firstRow]
      [{| cond_field := slug_url; cond_value := salary;
          cond_mode := Some endsWith |};
       {| cond_field := location;
          cond_value := CSVProcessorPanelFix.anyLocation;
          cond_mode := Some regex |}]
      filebrowser = Some req
    /\ is_Some (FixSlugUrlsRoute.POST (oneFile [engineerRow]) req).
Proof.
  eexists. split; [reflexivity|].
  exact (proj1 (panel_fix_is_accepted (oneFile [engineerRow]) true [firstRow]
                  [{| cond_field := slug_url; cond_value := salary;
                      cond_mode := Some endsWith |};
                   {| cond_field := location;
                      cond_value := CSVProcessorPanelFix.anyLocation;
                      cond_mode := Some regex |}]
                  filebrowser _ eq_refl)).
Defined.

Lemma legacy_requests_served_alike_witness :
  exists st,
    LegacyReplaceRoute.POST (oneFile [rowPlain])
      {| searchResults := [firstRow]; rr_replaceTargetField := Some title;
         rr_replaceValue := Some (str "X"); replaceOperations := None;
         rr_saveMode := None |} = Some st
    /\ ReplaceRoute.POST (oneFile [rowPlain])
         {| searchResults := [firstRow]; rr_replaceTargetField := Some title;
            rr_replaceValue := Some (str "X"); replaceOperations := None;
            rr_saveMode := None |} = Some st.
Proof.
  eexists. split; [reflexivity|].
  apply legacy_requests_served_alike;
    [reflexivity | by left | discriminate].
Defined.

Lemma edit_handlers_find_their_values_witness :
  ProcessRoute.rowMatchesAdvanced
    [(state, str "TX"); (location, str "Austin")] [state; location]
    {| conditions :=
         CSVProcessorPanelSearch.handleEditFromCombo (str "tx") (str "AUSTIN");
       logic := Some AND; adv_caseSensitive := false |}
  = Some (true, [state; location]).
Proof.
  exact (proj2 (proj2 (edit_handlers_find_their_values
                         [(state, str "TX"); (location, str "Austin")]
                         [state; location] false (str "tx") (str "AUSTIN")
                         eq_refl eq_refl))).
Defined.

Lemma rows_keep_their_columns_witness :
  Row.keys (out_row (ReplaceRoute.replaceRow [slug_url; location]
                       [{| op_field := location; op_value := str "New" |}]
                       true engineerRow))
  = Row.keys engineerRow.
Proof.
  refine (proj1 (proj2 (proj2 (rows_keep_their_columns [slug_url; location]
                                 engineerRow _)))
            [{| op_field := location; op_value := str "New" |}] true).
  repeat constructor.
Defined.

Lemma slug_kept_without_location_change_witness :
  Row.get (out_row (ReplaceRoute.replaceRow [slug_url; location]
                      [{| op_field := location; op_value := str "Old" |}]
                      true engineerRow)) slug_url
  = Row.get engineerRow slug_url.
Proof.
  refine (proj1 (slug_kept_without_location_change [slug_url; location]
                   [{| op_field := location; op_value := str "Old" |}]
                   true engineerRow _)).
  repeat constructor. discriminate.
Defined.

Lemma fixed_slug_ends_with_location_witness :
  JsString.endsWith
    (JsString.trim (Row.cell (out_row (FixSlugUrlsRoute.fixRow true engineerRow))
                             slug_url))
    (salary ++ [JsString.hyphen] ++ str "old") = true.
Proof.
  refine (proj1 (fixed_slug_ends_with_location engineerRow eq_refl _)).
  vm_compute. discriminate.
Defined.

Lemma normalizeToKebabCase_gives_slug_witness :
  Forall (fun c => isSlugChar c = true) (normalizeToKebabCase saoPaulo)
  /\ noAdjacent JsString.isHyphen (normalizeToKebabCase saoPaulo) = true
  /\ head (normalizeToKebabCase saoPaulo) <> Some JsString.hyphen
  /\ last (normalizeToKebabCase saoPaulo) <> Some JsString.hyphen.
Proof.
  exact (@normalizeToKebabCase_gives_slug Latin1.runtime latin1_laws saoPaulo).
Defined.

Lemma detect_reports_what_rows_hold_witness :
  exists resp,
    DetectRoute.POST
      (oneFile [[(state, str " TX"); (location, str "Austin ")];
                [(state, str "TX"); (location, str "Austin")]])
      (fun _ _ => 0) [{| path := aCsv; name := str "a.csv" |}] = Some resp
    /\ DetectRoute.dr_totalFiles resp = 1%nat
    /\ (DetectRoute.totalStates resp <= DetectRoute.totalCombinations resp)%nat
    /\ NoDup (DetectRoute.uniqueLocations resp).
Proof.
  eexists. split; [reflexivity|].
  destruct (detect_reports_what_rows_hold
              (oneFile [[(state, str " TX"); (location, str "Austin ")];
                        [(state, str "TX"); (location, str "Austin")]])
              (fun _ _ => 0) [{| path := aCsv; name := str "a.csv" |}] _ eq_refl)
    as (H1 & _ & H3 & _ & H5 & _).
  exact (conj H1 (conj H5 H3)).
Defined.

Lemma detect_finds_every_pair_witness :
  exists resp,
    DetectRoute.POST
      (oneFile [[(state, str " TX"); (location, str "Austin ")]])
      (fun _ _ => 0) [{| path := aCsv; name := str "a.csv" |}] = Some resp
    /\ (str "TX", str "Austin") ∈ DetectRoute.stateLocationCombos resp.
Proof.
  eexists. split; [reflexivity|].
  refine (proj1 (detect_finds_every_pair
                   (oneFile [[(state, str " TX"); (location, str "Austin ")]])
                   (fun _ _ => 0) [{| path := aCsv; name := str "a.csv" |}] _
                   {| path := aCsv; name := str "a.csv" |}
                   [[(state, str " TX"); (location, str "Austin ")]]
                   [(state, str " TX"); (location, str "Austin ")]
                   eq_refl _ eq_refl _ _ _ _ _)).
  - repeat constructor.
  - repeat constructor.
  - repeat constructor.
  - vm_compute. discriminate.
  - refine (proj1 (bool_decide_eq_false _) _). reflexivity.
  - refine (proj1 (bool_decide_eq_false _) _). reflexivity.
Defined.

Lemma listing_returns_csv_files_witness :
  FilesRoute.isCsv (str "B.CSV") = true
  /\ JsString.startsWith (str "/sub/B.CSV") FilesRoute.slash = true
  /\ JsString.endsWith (str "/sub/B.CSV") (FilesRoute.slash ++ str "B.CSV") = true.
Proof.
  refine (listing_returns_csv_files None
            (fun _ => FilesRoute.Listed [str "a.csv"; str "notes.txt"]
                        (FilesRoute.folder (str "bad") FilesRoute.Unreadable
                           (FilesRoute.folder (str "sub")
                              (FilesRoute.Listed [str "B.CSV"] FilesRoute.noFolders)
                              FilesRoute.noFolders)))
            {| path := str "/sub/B.CSV"; name := str "B.CSV" |} _).
  vm_compute. repeat constructor.
Defined.

Lemma advanced_row_changes_only_target_witness :
  exists o,
    ProcessRoute.advancedRow
      {| conditions := [{| cond_field := title; cond_value := str "abc";
                           cond_mode := Some equals |}];
         logic := Some AND; adv_caseSensitive := true |}
      [title; note] (Some (note, str "new")) false rowPlain = Some o
    /\ (out_replacements o <= 1)%nat
    /\ Row.get (out_row o) title = Row.get rowPlain title.
Proof.
  eexists. split; [reflexivity|].
  destruct (advanced_row_changes_only_target
              {| conditions := [{| cond_field := title; cond_value := str "abc";
                                   cond_mode := Some equals |}];
                 logic := Some AND; adv_caseSensitive := true |}
              [title; note] (Some (note, str "new")) false rowPlain _ eq_refl)
    as (H1 & H2 & _).
  refine (conj H1 (H2 title _)).
  intros t v [= <- _]. discriminate.
Defined.

End FurtherExamples.
